(** * Excalibur: the batched WebGL graphics context

    A shallow embedding of
    [src/engine/Graphics/Context/ExcaliburGraphicsContextWebGL.ts]
    and of the collaborators it drives (matrix and state stacks, texture
    manager, object pools, batches), followed by the properties of the
    batching pipeline.

    Conventions.
    - A JavaScript [number] is an exact rational ([Q]); rounding is not
      modelled.  Counters and array indices are [nat], the result of
      [Array.prototype.indexOf] is a [Z] (it may be [-1]).
    - An object with identity (a pooled command, a pooled batch, a backing
      image, a GPU texture) carries its identity as a [nat].
    - Mutable fields of the context become fields of the record [Context];
      every method is a function from [Context] to [Context].
    - The WebGL device and the logger are observed through the list of
      calls they received. *)

From Stdlib Require Import ZArith QArith Qround Qabs Lia.
From stdpp Require Import base option list gmap strings.

Local Open Scope nat_scope.

(* ===================================================================== *)
(** ** JavaScript numbers and values *)
(* ===================================================================== *)

Module JS.

(** [ToInt32]: wrap an integer into the signed 32-bit range. *)
Definition to_int32 (n : Z) : Z :=
  let m := (n mod 2 ^ 32)%Z in
  if (m <? 2 ^ 31)%Z then m else (m - 2 ^ 32)%Z.

(** Truncation toward zero of a rational. *)
Definition trunc (x : Q) : Z := (Qnum x ÷ Zpos (Qden x))%Z.

(** [~~x], the "quick bitwise truncate" of the source. *)
Definition bitwise_truncate (x : Q) : Q := inject_Z (to_int32 (trunc x)).

(** A number is an integer when truncating it changes nothing. *)
Definition is_integer (x : Q) : bool := Qeq_bool x (inject_Z (trunc x)).

(** [a || b] on numbers: [a] when it is truthy (non-zero), else [b]. *)
Definition or_else (a b : Q) : Q := if Qeq_bool a 0 then b else a.

(** The values that occur in the [filter] callback of [flush]. *)
Inductive Value :=
| VObject (handle : nat)
| VNumber (n : Z)
| VBoolean (b : bool).

(** [x === y]. *)
Definition strict_equals (x y : Value) : bool :=
  match x, y with
  | VObject a, VObject b => Nat.eqb a b
  | VNumber a, VNumber b => Z.eqb a b
  | VBoolean a, VBoolean b => Bool.eqb a b
  | _, _ => false
  end.

(** [ToBoolean]. *)
Definition truthy (x : Value) : bool :=
  match x with
  | VObject _ => true
  | VNumber n => negb (Z.eqb n 0)
  | VBoolean b => b
  end.

(** [arr.indexOf(x)]: first index holding a value strictly equal to [x],
    [-1] when there is none. *)
Fixpoint indexOf_from (arr : list Value) (x : Value) (i : Z) : Z :=
  match arr with
  | [] => (-1)%Z
  | y :: rest => if strict_equals y x then i else indexOf_from rest x (i + 1)%Z
  end.

Definition indexOf (arr : list Value) (x : Value) : Z := indexOf_from arr x 0.

(** [arr.filter((v, i, arr) => f(v, i, arr))]. *)
Fixpoint filter_from (f : Value -> Z -> list Value -> Value)
         (arr : list Value) (rest : list Value) (i : Z) : list Value :=
  match rest with
  | [] => []
  | v :: rest' =>
      if truthy (f v i arr)
      then v :: filter_from f arr rest' (i + 1)%Z
      else filter_from f arr rest' (i + 1)%Z
  end.

Definition filter (f : Value -> Z -> list Value -> Value) (arr : list Value)
  : list Value := filter_from f arr arr 0.

End JS.

(* ===================================================================== *)
(** ** Matrix, MatrixStack, StateStack *)
(* ===================================================================== *)

(** Sine and cosine on numbers, used by [rotate] only. *)
Class Trig := { sin : Q -> Q; cos : Q -> Q }.

(** Modelled from the spec: the [Matrix] of [Math/matrix] is not part of the
    sources at hand.  The spec speaks of "composed 2D affine transforms";
    a transform is the matrix
    [[ma mc me] [mb md mf] [0 0 1]] acting on column vectors. *)
Record Matrix := mkMatrix { ma : Q; mb : Q; mc : Q; md : Q; me : Q; mf : Q }.

Module Matrix.

(** Modelled from the spec: the identity transform. *)
Definition identity : Matrix := mkMatrix 1 0 0 1 0 0.

(** Modelled from the spec: composition of transforms, the product
    [m * n]. *)
Definition multm (m n : Matrix) : Matrix :=
  mkMatrix (ma m * ma n + mc m * mb n) (mb m * ma n + md m * mb n)
           (ma m * mc n + mc m * md n) (mb m * mc n + md m * md n)
           (ma m * me n + mc m * mf n + me m)
           (mb m * me n + md m * mf n + mf m).

(** Modelled from the spec: the transform applied to a point; the
    coordinates are kept in lowest terms. *)
Definition multv (m : Matrix) (p : Q * Q) : Q * Q :=
  (Qred (ma m * p.1 + mc m * p.2 + me m), Qred (mb m * p.1 + md m * p.2 + mf m)).

(** Modelled from the spec: "[translate/rotate/scale] post-multiply onto
    the current transform". *)
Definition translate (x y : Q) (m : Matrix) : Matrix :=
  multm m (mkMatrix 1 0 0 1 x y).

(** Modelled from the spec: post-multiplication by a rotation. *)
Definition rotate `{Trig} (angle : Q) (m : Matrix) : Matrix :=
  multm m (mkMatrix (cos angle) (sin angle) (- sin angle) (cos angle) 0 0).

(** Modelled from the spec: post-multiplication by a scaling. *)
Definition scale (x y : Q) (m : Matrix) : Matrix :=
  multm m (mkMatrix x 0 0 y 0 0).

End Matrix.

(** Modelled from the spec: [MatrixStack] ([matrix-stack.ts]) is not part of
    the sources at hand.  "Stack of saved frames; [current] is always the
    top"; "[save] duplicates the current frame and pushes it; [restore]
    pops, discarding the top frame and exposing the previous one as
    current".  The stack is [transform :: saved]. *)
Record MatrixStack := mkMatrixStack {
  transform : Matrix;
  saved_transforms : list Matrix
}.

Module MatrixStack.

(** Modelled from the spec: a stack holding the identity transform. *)
Definition new : MatrixStack := mkMatrixStack Matrix.identity [].

(** Modelled from the spec: "[save] duplicates the current frame and
    pushes it". *)
Definition save (s : MatrixStack) : MatrixStack :=
  mkMatrixStack (transform s) (transform s :: saved_transforms s).

(** Modelled from the spec: "[restore] pops, discarding the top frame and
    exposing the previous one as current".  With no saved frame there is
    no previous frame to expose: [None]. *)
Definition restore (s : MatrixStack) : option MatrixStack :=
  match saved_transforms s with
  | [] => None
  | previous :: rest => Some (mkMatrixStack previous rest)
  end.

(** Modelled from the spec: [translate], [rotate] and [scale] "mutate the
    current composed transform". *)
Definition translate (x y : Q) (s : MatrixStack) : MatrixStack :=
  mkMatrixStack (Matrix.translate x y (transform s)) (saved_transforms s).

(** Modelled from the spec: see [translate]. *)
Definition rotate `{Trig} (angle : Q) (s : MatrixStack) : MatrixStack :=
  mkMatrixStack (Matrix.rotate angle (transform s)) (saved_transforms s).

(** Modelled from the spec: see [translate]. *)
Definition scale (x y : Q) (s : MatrixStack) : MatrixStack :=
  mkMatrixStack (Matrix.scale x y (transform s)) (saved_transforms s).

(** Modelled from the spec: "[transform(matrix)] replaces the current
    transform outright". *)
Definition set_transform (m : Matrix) (s : MatrixStack) : MatrixStack :=
  mkMatrixStack m (saved_transforms s).

End MatrixStack.

(** The scalar render state of one frame. *)
Record State := mkState { opacity : Q; z : Q }.

(** Modelled from the spec: [StateStack] ([state-stack.ts]) is not part of
    the sources at hand.  Same stack discipline as [MatrixStack];
    "[opacity]/[z] are plain scalar fields on the current frame,
    independently settable". *)
Record StateStack := mkStateStack {
  current : State;
  saved_states : list State
}.

Module StateStack.

(** Modelled from the spec: a stack holding full opacity at depth 0. *)
Definition new : StateStack := mkStateStack (mkState 1 0) [].

(** Modelled from the spec: "[save] duplicates the current frame and
    pushes it". *)
Definition save (s : StateStack) : StateStack :=
  mkStateStack (current s) (current s :: saved_states s).

(** Modelled from the spec: "[restore] pops, discarding the top frame and
    exposing the previous one as current"; [None] with no saved frame. *)
Definition restore (s : StateStack) : option StateStack :=
  match saved_states s with
  | [] => None
  | previous :: rest => Some (mkStateStack previous rest)
  end.

(** Modelled from the spec: assignment to the field [opacity] of the
    current frame. *)
Definition set_opacity (value : Q) (s : StateStack) : StateStack :=
  mkStateStack (mkState value (z (current s))) (saved_states s).

(** Modelled from the spec: assignment to the field [z] of the current
    frame. *)
Definition set_z (value : Q) (s : StateStack) : StateStack :=
  mkStateStack (mkState (opacity (current s)) value) (saved_states s).

End StateStack.

(* ===================================================================== *)
(** ** Drawables, commands, textures *)
(* ===================================================================== *)

(** The backing image of a drawable: an identity and integer dimensions. *)
Record ImageSource := mkImageSource {
  image_id : nat;
  width : Z;
  height : Z
}.

(** A drawable; [getSource] is its backing image. *)
Record Graphic := mkGraphic { getSource : ImageSource }.

(** A GPU texture handle. *)
Definition WebGLTexture := nat.

(** The two triangles of a quad: six vertices of two coordinates. *)
Record Quad := mkQuad {
  g0 : Q * Q; g1 : Q * Q; g2 : Q * Q; g3 : Q * Q; g4 : Q * Q; g5 : Q * Q
}.

(** Modelled from the spec: [DrawImageCommand] ([command.ts]) is not part of
    the sources at hand.  "Drawable reference, source rectangle (x,y,w,h in
    source image space), resolved destination quad (6 vertices × 2
    coordinates, representing two triangles), depth value, opacity value".
    [cid] is the identity of the pooled object; [cwidth], [cheight] are the
    fields [width] and [height] read by the vertex packer. *)
Record DrawImageCommand := mkCommand {
  cid : nat;
  image : Graphic;
  view : Q * Q * Q * Q;
  dest : Q * Q;
  cwidth : Q;
  cheight : Q;
  geometry : Quad;
  cz : Q;
  copacity : Q
}.

(** The arguments of one [drawImage] call; [None] is an argument left out
    (and, for [graphic], [null] or [undefined]). *)
Record DrawCall := mkDrawCall {
  graphic : option Graphic;
  sx : Q; sy : Q;
  swidth : option Q; sheight : option Q;
  dx : option Q; dy : option Q;
  dwidth : option Q; dheight : option Q
}.

Module DrawImageCommand.

(** Modelled from the spec: a command as the pool's factory builds it,
    before [init] overwrites its fields. *)
Definition new (id : nat) : DrawImageCommand :=
  mkCommand id (mkGraphic (mkImageSource 0 0 0)) (0, 0, 0, 0)%Q (0, 0)%Q 0 0
            (mkQuad (0, 0) (0, 0) (0, 0) (0, 0) (0, 0) (0, 0))%Q 0 1.

(** Modelled from the spec: the "destination quad (6 vertices × 2
    coordinates, representing two triangles)" of the rectangle at [p] of
    size [w] by [h], in the order the vertex packer documents:
    (0,0) (0,1) (1,0) (1,0) (0,1) (1,1). *)
Definition corners (p : Q * Q) (w h : Q) : Quad :=
  let x0 := p.1 in
  let x1 := (p.1 + w)%Q in
  let y0 := p.2 in
  let y1 := (p.2 + h)%Q in
  mkQuad (x0, y0) (x0, y1) (x1, y0) (x1, y0) (x0, y1) (x1, y1).

(** Modelled from the spec: "initializes it with source/destination
    parameters"; every field but the identity is overwritten.  The three
    overloads of [drawImage] are [(graphic, x, y)],
    [(graphic, x, y, width, height)] and the form with a source rectangle
    and a destination rectangle. *)
Definition init (c : DrawImageCommand) (g : Graphic) (call : DrawCall)
  : DrawImageCommand :=
  let iw := inject_Z (width (getSource g)) in
  let ih := inject_Z (height (getSource g)) in
  match dx call, dy call, dwidth call, dheight call with
  | Some x, Some y, Some w, Some h =>
      mkCommand (cid c) g
                (sx call, sy call, default iw (swidth call), default ih (sheight call))
                (x, y) w h (corners (x, y) w h) (cz c) (copacity c)
  | _, _, _, _ =>
      let w := default iw (swidth call) in
      let h := default ih (sheight call) in
      mkCommand (cid c) g (0, 0, w, h)%Q (sx call, sy call) w h
                (corners (sx call, sy call) w h) (cz c) (copacity c)
  end.

(** Modelled from the spec: "applies the current composed transform,
    opacity, and depth". *)
Definition applyTransform (m : Matrix) (o d : Q) (c : DrawImageCommand)
  : DrawImageCommand :=
  let q := geometry c in
  mkCommand (cid c) (image c) (view c) (dest c) (cwidth c) (cheight c)
            (mkQuad (Matrix.multv m (g0 q)) (Matrix.multv m (g1 q))
                    (Matrix.multv m (g2 q)) (Matrix.multv m (g3 q))
                    (Matrix.multv m (g4 q)) (Matrix.multv m (g5 q)))
            d o.

End DrawImageCommand.

(** Modelled from the spec: [ensurePowerOfTwo] ([webgl-util.ts]) is not part
    of the sources at hand.  "Next power of two ≥ dimension". *)
Definition ensurePowerOfTwo (x : Q) : Q := inject_Z (2 ^ Z.log2_up (Qceiling x)).

(** A texture cache entry: "uploaded GPU texture handle + padded
    power-of-two width/height". *)
Record TextureEntry := mkTextureEntry {
  handle : WebGLTexture;
  potWidth : Q;
  potHeight : Q
}.

(** Modelled from the spec: [TextureManager] ([texture-manager.ts]) is not
    part of the sources at hand.  A cache "keyed by the drawable's
    backing-image identity", filled "lazily on first reference", with "no
    eviction".  [uploaded] counts the textures created so far and is the
    next fresh handle. *)
Record TextureManager := mkTextureManager {
  cache : gmap nat TextureEntry;
  uploaded : nat
}.

Module TextureManager.

(** Modelled from the spec: an empty cache. *)
Definition new : TextureManager := mkTextureManager ∅ 0.

(** Modelled from the spec: "[hasWebGLTexture(drawable) → bool]". *)
Definition hasWebGLTexture (tm : TextureManager) (g : Graphic) : bool :=
  bool_decide (is_Some (cache tm !! image_id (getSource g))).

(** Modelled from the spec: "[getWebGLTexture(drawable) → handle]";
    [None] is [undefined]. *)
Definition getWebGLTexture (tm : TextureManager) (g : Graphic)
  : option WebGLTexture :=
  handle <$> cache tm !! image_id (getSource g).

(** Modelled from the spec: "on first reference ... uploads the
    drawable's backing image to the GPU, padding to power-of-two
    dimensions, and caches the mapping"; later references return the
    cached handle. *)
Definition updateFromGraphic (tm : TextureManager) (g : Graphic)
  : WebGLTexture * TextureManager :=
  match cache tm !! image_id (getSource g) with
  | Some entry => (handle entry, tm)
  | None =>
      let entry :=
        mkTextureEntry (uploaded tm)
                       (ensurePowerOfTwo (inject_Z (width (getSource g))))
                       (ensurePowerOfTwo (inject_Z (height (getSource g)))) in
      (uploaded tm,
       mkTextureManager (<[image_id (getSource g) := entry]> (cache tm))
                        (S (uploaded tm)))
  end.

End TextureManager.

(* ===================================================================== *)
(** ** Pool *)
(* ===================================================================== *)

(** Modelled from the spec: [Pool<T>] ([pool.ts]) is not part of the sources
    at hand.  "Free list of reusable T plus a factory function".  [built]
    counts the instances the factory has constructed; it is the identity
    given to the next one. *)
Record Pool (T : Type) := mkPool {
  free_list : list T;
  built : nat
}.
Arguments mkPool {T} _ _.
Arguments free_list {T} _.
Arguments built {T} _.

Module Pool.
Section Pool.
Context {T : Type}.

(** Modelled from the spec: "pre-warms to an initial count". *)
Definition new (factory : nat -> T) (count : nat) : Pool T :=
  mkPool (factory <$> seq 0 count) count.

(** Modelled from the spec: "returns a previously freed instance,
    resetting it, or lazily constructs one via the factory if none are
    free". *)
Definition get (factory : nat -> T) (reset : T -> T) (p : Pool T)
  : T * Pool T :=
  match free_list p with
  | instance :: rest => (reset instance, mkPool rest (built p))
  | [] => (factory (built p), mkPool [] (S (built p)))
  end.

(** Modelled from the spec: "returns an instance to the free list". *)
Definition free (instance : T) (p : Pool T) : Pool T :=
  mkPool (instance :: free_list p) (built p).

(** Modelled from the spec: the pool's "in use" count, the instances
    handed out and not yet returned. *)
Definition in_use (p : Pool T) : Z :=
  (Z.of_nat (built p) - Z.of_nat (length (free_list p)))%Z.

End Pool.
End Pool.

(* ===================================================================== *)
(** ** Batch *)
(* ===================================================================== *)

(** Modelled from the spec: [Batch] ([batch.ts]) is not part of the sources
    at hand.  "Ordered sequence of DrawImageCommand (insertion order = draw
    order), set of distinct texture handles referenced by its commands,
    capacity limits".  [textures] keeps the distinct handles in insertion
    order; the position of a handle is its slot.  [bid] is the identity of
    the pooled object. *)
Record Batch := mkBatch {
  bid : nat;
  maxDraws : nat;
  maxTextures : nat;
  textures : list WebGLTexture;
  commands : list DrawImageCommand
}.

Module Batch.

(** Modelled from the spec: [new Batch(textureManager, maxDraws,
    maxTextures)], an empty batch with its limits. *)
Definition new (maxDraws maxTextures id : nat) : Batch :=
  mkBatch id maxDraws maxTextures [] [].

(** Modelled from the spec: the pool's reset, an empty batch with the
    same identity and limits. *)
Definition reset (b : Batch) : Batch :=
  mkBatch (bid b) (maxDraws b) (maxTextures b) [] [].

(** Modelled from the spec: "registers the command's texture in the
    distinct set (idempotent if already present)". *)
Definition register (t : WebGLTexture) (ts : list WebGLTexture)
  : list WebGLTexture :=
  if bool_decide (t ∈ ts) then ts else ts ++ [t].

(** Modelled from the spec: "unconditional append ... (capacity not
    re-checked)".  The texture of
    the command is resolved by the texture manager ("first reference
    (implicitly triggered by batch admission)") and registered. *)
Definition add (tm : TextureManager) (command : DrawImageCommand) (b : Batch)
  : Batch * TextureManager :=
  let '(t, tm') := TextureManager.updateFromGraphic tm (image command) in
  (mkBatch (bid b) (maxDraws b) (maxTextures b)
           (register t (textures b)) (commands b ++ [command]),
   tm').

(** Modelled from the spec: "returns false (does not mutate state) if
    adding the command's texture would make [distinctTextures.size]
    exceed [maxGPUTextures], or if
    [commands.length == maxDrawingsPerBatch].  Otherwise registers the
    command's texture in the distinct set and appends the command,
    returns true." *)
Definition maybeAdd (tm : TextureManager) (command : DrawImageCommand)
           (b : Batch) : bool * Batch * TextureManager :=
  let '(t, tm') := TextureManager.updateFromGraphic tm (image command) in
  if (maxTextures b <? length (register t (textures b)))
     || (length (commands b) =? maxDraws b)
  then (false, b, tm')
  else (true,
        mkBatch (bid b) (maxDraws b) (maxTextures b)
                (register t (textures b)) (commands b ++ [command]),
        tm').

End Batch.

(** Modelled from the spec: "binds each distinct texture to successive
    texture units in insertion order".  The result lists, in call order,
    the (unit, texture) pairs bound. *)
Definition bindTextures_units (b : Batch) : list (nat * WebGLTexture) :=
  imap (fun unit t => (unit, t)) (textures b).

(* ===================================================================== *)
(** ** The graphics context *)
(* ===================================================================== *)

Record Color := mkColor { red : Q; green : Q; blue : Q; alpha : Q }.

(** The calls received by the WebGL device. *)
Inductive GLCall :=
| gl_viewport (x y w h : Z)
| gl_clearColor (r g b a : Q)
| gl_clear
| gl_enable_BLEND
| gl_blendFunc
| gl_bindBuffer
| gl_bufferData (data : list Q)
| gl_bufferSubData (offset : nat) (data : list Q)
| gl_activeTexture (unit : nat)
| gl_bindTexture (t : WebGLTexture)
| gl_drawArrays (first count : nat).

(** What the logger and the console received. *)
Inductive LogEntry :=
| Warn (message : string)
| Trace.

Record ExcaliburContextDiagnostics := mkDiag {
  quads : nat;
  batches : nat;
  uniqueTextures : nat;
  maxTexturePerDraw : nat
}.

Record Context := mkContext {
  __gl : list GLCall;
  _textureManager : TextureManager;
  _stack : MatrixStack;
  _state : StateStack;
  _verts : list Q;
  _maxDrawingsPerBatch : nat;
  _maxGPUTextures : nat;
  _batches : list Batch;
  _commandPool : Pool DrawImageCommand;
  _batchPool : Pool Batch;
  snapToPixel : bool;
  backgroundColor : Color;
  _diag : ExcaliburContextDiagnostics;
  _log : list LogEntry
}.

(** Field updates. *)
Definition gl_call (call : GLCall) (c : Context) : Context :=
  mkContext (__gl c ++ [call]) (_textureManager c) (_stack c) (_state c) (_verts c)
            (_maxDrawingsPerBatch c) (_maxGPUTextures c) (_batches c)
            (_commandPool c) (_batchPool c) (snapToPixel c) (backgroundColor c)
            (_diag c) (_log c).

Definition set_textureManager (tm : TextureManager) (c : Context) : Context :=
  mkContext (__gl c) tm (_stack c) (_state c) (_verts c)
            (_maxDrawingsPerBatch c) (_maxGPUTextures c) (_batches c)
            (_commandPool c) (_batchPool c) (snapToPixel c) (backgroundColor c)
            (_diag c) (_log c).

Definition set_stack (s : MatrixStack) (c : Context) : Context :=
  mkContext (__gl c) (_textureManager c) s (_state c) (_verts c)
            (_maxDrawingsPerBatch c) (_maxGPUTextures c) (_batches c)
            (_commandPool c) (_batchPool c) (snapToPixel c) (backgroundColor c)
            (_diag c) (_log c).

Definition set_state (s : StateStack) (c : Context) : Context :=
  mkContext (__gl c) (_textureManager c) (_stack c) s (_verts c)
            (_maxDrawingsPerBatch c) (_maxGPUTextures c) (_batches c)
            (_commandPool c) (_batchPool c) (snapToPixel c) (backgroundColor c)
            (_diag c) (_log c).

Definition set_verts (v : list Q) (c : Context) : Context :=
  mkContext (__gl c) (_textureManager c) (_stack c) (_state c) v
            (_maxDrawingsPerBatch c) (_maxGPUTextures c) (_batches c)
            (_commandPool c) (_batchPool c) (snapToPixel c) (backgroundColor c)
            (_diag c) (_log c).

Definition set_batches (bs : list Batch) (c : Context) : Context :=
  mkContext (__gl c) (_textureManager c) (_stack c) (_state c) (_verts c)
            (_maxDrawingsPerBatch c) (_maxGPUTextures c) bs
            (_commandPool c) (_batchPool c) (snapToPixel c) (backgroundColor c)
            (_diag c) (_log c).

Definition set_commandPool (p : Pool DrawImageCommand) (c : Context) : Context :=
  mkContext (__gl c) (_textureManager c) (_stack c) (_state c) (_verts c)
            (_maxDrawingsPerBatch c) (_maxGPUTextures c) (_batches c)
            p (_batchPool c) (snapToPixel c) (backgroundColor c)
            (_diag c) (_log c).

Definition set_batchPool (p : Pool Batch) (c : Context) : Context :=
  mkContext (__gl c) (_textureManager c) (_stack c) (_state c) (_verts c)
            (_maxDrawingsPerBatch c) (_maxGPUTextures c) (_batches c)
            (_commandPool c) p (snapToPixel c) (backgroundColor c)
            (_diag c) (_log c).

Definition set_diag (d : ExcaliburContextDiagnostics) (c : Context) : Context :=
  mkContext (__gl c) (_textureManager c) (_stack c) (_state c) (_verts c)
            (_maxDrawingsPerBatch c) (_maxGPUTextures c) (_batches c)
            (_commandPool c) (_batchPool c) (snapToPixel c) (backgroundColor c)
            d (_log c).

Definition set_snapToPixel (snap : bool) (c : Context) : Context :=
  mkContext (__gl c) (_textureManager c) (_stack c) (_state c) (_verts c)
            (_maxDrawingsPerBatch c) (_maxGPUTextures c) (_batches c)
            (_commandPool c) (_batchPool c) snap (backgroundColor c)
            (_diag c) (_log c).

Definition log (entry : LogEntry) (c : Context) : Context :=
  mkContext (__gl c) (_textureManager c) (_stack c) (_state c) (_verts c)
            (_maxDrawingsPerBatch c) (_maxGPUTextures c) (_batches c)
            (_commandPool c) (_batchPool c) (snapToPixel c) (backgroundColor c)
            (_diag c) (_log c ++ [entry]).

(** The factories handed to the pools by [_init]:
    [() => new DrawImageCommand()] and
    [() => new Batch(this._textureManager, this._maxDrawingsPerBatch,
    this._maxGPUTextures)]. *)
Definition command_factory : nat -> DrawImageCommand := DrawImageCommand.new.

Definition batch_factory (c : Context) : nat -> Batch :=
  Batch.new (_maxDrawingsPerBatch c) (_maxGPUTextures c).

(** [clear()]. *)
Definition clear (c : Context) : Context :=
  let bg := backgroundColor c in
  gl_call gl_clear
    (gl_call (gl_clearColor (red bg / 255) (green bg / 255) (blue bg / 255) (alpha bg)) c).

(** The constructor followed by [_init()].  [maxDrawingsPerBatch] is the
    initial value of the private field (2000 in the source),
    [MAX_TEXTURE_IMAGE_UNITS] is what the device answers to
    [gl.getParameter].  The shader set-up is left out.  The command pool is
    pre-warmed to [maxDrawingsPerBatch]; the batch pool is given no count. *)
Definition new_context (maxDrawingsPerBatch MAX_TEXTURE_IMAGE_UNITS : nat)
           (canvas_width canvas_height : Z) (bg : Color) : Context :=
  let vertexSize := 6 * 7 in
  let verts := replicate (vertexSize * maxDrawingsPerBatch) 0%Q in
  mkContext
    [gl_viewport 0 0 canvas_width canvas_height;
     gl_clearColor (red bg / 255) (green bg / 255) (blue bg / 255) (alpha bg);
     gl_clear; gl_enable_BLEND; gl_blendFunc; gl_bindBuffer; gl_bufferData verts]
    TextureManager.new MatrixStack.new StateStack.new verts
    maxDrawingsPerBatch MAX_TEXTURE_IMAGE_UNITS []
    (Pool.new command_factory maxDrawingsPerBatch)
    (Pool.new (Batch.new maxDrawingsPerBatch MAX_TEXTURE_IMAGE_UNITS) 0)
    true bg
    (mkDiag 0 0 0 8)
    [].

(** [get opacity], [set opacity], [get z], [set z]. *)
Definition get_opacity (c : Context) : Q := opacity (current (_state c)).
Definition set_opacity (value : Q) (c : Context) : Context :=
  set_state (StateStack.set_opacity value (_state c)) c.
Definition get_z (c : Context) : Q := z (current (_state c)).
Definition set_z (value : Q) (c : Context) : Context :=
  set_state (StateStack.set_z value (_state c)) c.

(** [save()]: [this._stack.save(); this._state.save();]. *)
Definition save (c : Context) : Context :=
  set_state (StateStack.save (_state c)) (set_stack (MatrixStack.save (_stack c)) c).

(** [restore()]: [this._stack.restore(); this._state.restore();]. *)
Definition restore (c : Context) : option Context :=
  stack' ← MatrixStack.restore (_stack c);
  state' ← StateStack.restore (_state c);
  Some (set_state state' (set_stack stack' c)).

Definition translate (x y : Q) (c : Context) : Context :=
  set_stack (MatrixStack.translate x y (_stack c)) c.

Definition rotate `{Trig} (angle : Q) (c : Context) : Context :=
  set_stack (MatrixStack.rotate angle (_stack c)) c.

Definition scale (x y : Q) (c : Context) : Context :=
  set_stack (MatrixStack.scale x y (_stack c)) c.

(** [transform(matrix)]: [this._stack.transform = matrix]. *)
Definition set_transform (m : Matrix) (c : Context) : Context :=
  set_stack (MatrixStack.set_transform m (_stack c)) c.

(** The command built by lines 172-173 of [drawImage], with the command
    pool it leaves behind. *)
Definition make_command (g : Graphic) (call : DrawCall) (c : Context)
  : DrawImageCommand * Pool DrawImageCommand :=
  let '(fresh, pool') := Pool.get command_factory id (_commandPool c) in
  let command := DrawImageCommand.init fresh g call in
  (DrawImageCommand.applyTransform (transform (_stack c))
     (opacity (current (_state c))) (z (current (_state c))) command,
   pool').

(** [drawImage(graphic, sx, sy, swidth?, sheight?, dx?, dy?, dwidth?,
    dheight?)]. *)
Definition drawImage (call : DrawCall) (c : Context) : Context :=
  match graphic call with
  | None =>
      log Trace (log (Warn "Cannot draw a null or undefined image") c)
  | Some g =>
      let '(command, pool') := make_command g call c in
      let c := set_commandPool pool' c in
      let c :=
        if length (_batches c) =? 0 then
          let '(b, bp) := Pool.get (batch_factory c) Batch.reset (_batchPool c) in
          set_batchPool bp (set_batches (_batches c ++ [b]) c)
        else c in
      match _batches c !! (length (_batches c) - 1) with
      | None => c (* not reached: the list is not empty here *)
      | Some lastBatch =>
          let '(added, lastBatch', tm') :=
            Batch.maybeAdd (_textureManager c) command lastBatch in
          let c :=
            set_textureManager tm'
              (set_batches (<[length (_batches c) - 1 := lastBatch']> (_batches c)) c) in
          if negb added then
            let '(newBatch, bp) :=
              Pool.get (batch_factory c) Batch.reset (_batchPool c) in
            let '(newBatch', tm'') := Batch.add (_textureManager c) command newBatch in
            set_batches (_batches c ++ [newBatch'])
              (set_textureManager tm'' (set_batchPool bp c))
          else c
      end
  end.

(** [this._verts[vertIndex++] = value]; a typed array ignores a store past
    its end. *)
Definition store (s : list Q * nat) (value : Q) : list Q * nat :=
  (<[s.2 := value]> s.1, S s.2).

(** The 42 numbers stored for one command, in store order. *)
Definition quad_data (command : DrawImageCommand) (uvx0 uvy0 uvx1 uvy1 : Q)
           (textureId : Z) : list Q :=
  let q := geometry command in
  [ (g0 q).1; (g0 q).2; cz command; uvx0; uvy0; inject_Z textureId; copacity command;
    (g1 q).1; (g1 q).2; cz command; uvx0; uvy1; inject_Z textureId; copacity command;
    (g2 q).1; (g2 q).2; cz command; uvx1; uvy0; inject_Z textureId; copacity command;
    (g3 q).1; (g3 q).2; cz command; uvx1; uvy0; inject_Z textureId; copacity command;
    (g4 q).1; (g4 q).2; cz command; uvx0; uvy1; inject_Z textureId; copacity command;
    (g5 q).1; (g5 q).2; cz command; uvx1; uvy1; inject_Z textureId; copacity command ].

(** [batch.textures.indexOf(texture)]; [None] is [undefined], which no
    element equals. *)
Definition textures_indexOf (ts : list WebGLTexture) (t : option WebGLTexture) : Z :=
  match t with
  | Some t => JS.indexOf (JS.VObject <$> ts) (JS.VObject t)
  | None => (-1)%Z
  end.

(** The value of [textureId] after the [if] of lines 212-214. *)
Definition next_textureId (tm : TextureManager) (batch : Batch)
           (textureId : Z) (command : DrawImageCommand) : Z :=
  if TextureManager.hasWebGLTexture tm (image command)
  then textures_indexOf (textures batch)
                        (TextureManager.getWebGLTexture tm (image command))
  else textureId.

(** One iteration of the loop of [_updateVertexBufferData].  The state
    carried from one iteration to the next is the buffer, [vertIndex] and
    [textureId]; the other locals are assigned afresh at the top of the
    body. *)
Definition pack_command (tm : TextureManager) (snap : bool) (batch : Batch)
           (st : list Q * nat * Z) (command : DrawImageCommand)
  : list Q * nat * Z :=
  let '(verts, vertIndex, textureId) := st in
  let x := (dest command).1 in
  let y := (dest command).2 in
  let '(sx, sy, sw, sh) := view command in
  let potWidth :=
    ensurePowerOfTwo
      (JS.or_else (inject_Z (width (getSource (image command)))) (cwidth command)) in
  let potHeight :=
    ensurePowerOfTwo
      (JS.or_else (inject_Z (height (getSource (image command)))) (cheight command)) in
  let textureId := next_textureId tm batch textureId command in
  let x := if snap then JS.bitwise_truncate x else x in
  let y := if snap then JS.bitwise_truncate y else y in
  let uvx0 := (sx / potWidth)%Q in
  let uvy0 := (sy / potHeight)%Q in
  let uvx1 := ((sx + sw) / potWidth)%Q in
  let uvy1 := ((sy + sh) / potHeight)%Q in
  let '(verts, vertIndex) :=
    foldl store (verts, vertIndex) (quad_data command uvx0 uvy0 uvx1 uvy1 textureId) in
  (verts, vertIndex, textureId).

(** [_updateVertexBufferData(batch)]. *)
Definition _updateVertexBufferData (batch : Batch) (c : Context) : Context :=
  let vertIndex := 0 in
  let textureId := 0%Z in
  let '(verts, _, _) :=
    foldl (pack_command (_textureManager c) (snapToPixel c) batch)
          (_verts c, vertIndex, textureId) (commands batch) in
  set_verts verts c.

(** [batch.bindTextures(gl)] as calls on the device. *)
Definition bindTextures (b : Batch) (c : Context) : Context :=
  foldl (fun c '(unit, t) => gl_call (gl_bindTexture t) (gl_call (gl_activeTexture unit) c))
        c (bindTextures_units b).

(** The callback of line 389: [(v, i, arr) => arr.indexOf(v === i)]. *)
Definition uniqueTextures_callback (v : JS.Value) (i : Z) (arr : list JS.Value)
  : JS.Value :=
  JS.VNumber (JS.indexOf arr (JS.VBoolean (JS.strict_equals v (JS.VNumber i)))).

(** The body of the loop of [flush] for one batch; [textures] is the local
    array accumulated across the loop. *)
Definition flush_batch (st : Context * list WebGLTexture) (batch : Batch)
  : Context * list WebGLTexture :=
  let '(c, textures_acc) := st in
  let vertexCount := 6 * length (commands batch) in
  let c := _updateVertexBufferData batch c in
  let c := gl_call gl_bindBuffer c in
  let c := gl_call (gl_bufferSubData 0 (_verts c)) c in
  let c := bindTextures batch c in
  let textures_acc := textures_acc ++ textures batch in
  let c := gl_call (gl_drawArrays 0 vertexCount) c in
  let d := _diag c in
  let c :=
    set_diag (mkDiag (quads d + length (commands batch)) (batches d)
                     (uniqueTextures d) (maxTexturePerDraw d)) c in
  let c :=
    foldl (fun c command => set_commandPool (Pool.free command (_commandPool c)) c)
          c (commands batch) in
  let c := set_batchPool (Pool.free batch (_batchPool c)) c in
  (c, textures_acc).

(** [flush()]. *)
Definition flush (c : Context) : Context :=
  let c := set_diag (mkDiag 0 0 0 (_maxGPUTextures c)) c in
  let c := clear c in
  let '(c, textures_acc) := foldl flush_batch (c, []) (_batches c) in
  let d := _diag c in
  let c :=
    set_diag
      (mkDiag (quads d) (batches d)
              (length (JS.filter uniqueTextures_callback (JS.VObject <$> textures_acc)))
              (maxTexturePerDraw d)) c in
  let d := _diag c in
  let c :=
    set_diag (mkDiag (quads d) (length (_batches c)) (uniqueTextures d)
                     (maxTexturePerDraw d)) c in
  set_batches [] c.

(* ===================================================================== *)
(** ** Frames: sequences of calls *)
(* ===================================================================== *)

(** A sequence of [drawImage] calls, in program order. *)
Definition run (calls : list DrawCall) (c : Context) : Context :=
  foldl (fun c call => drawImage call c) c calls.

(** The commands the calls create, in submission order. *)
Fixpoint submitted (calls : list DrawCall) (c : Context) : list DrawImageCommand :=
  match calls with
  | [] => []
  | call :: rest =>
      match graphic call with
      | Some g => (make_command g call c).1 :: submitted rest (drawImage call c)
      | None => submitted rest (drawImage call c)
      end
  end.

(** A call with a drawable. *)
Definition valid (call : DrawCall) : Prop := is_Some (graphic call).

(** The backing images the calls refer to. *)
Definition call_images (calls : list DrawCall) : list nat :=
  omap (fun call => (fun g => image_id (getSource g)) <$> graphic call) calls.

(** All commands held by the batch list, in batch order. *)
Definition queued (c : Context) : list DrawImageCommand :=
  mjoin (commands <$> _batches c).

(** A batch built by the context's factory carries the context's limits. *)
Definition batch_ok (c : Context) (b : Batch) : Prop :=
  maxDraws b = _maxDrawingsPerBatch c ∧ maxTextures b = _maxGPUTextures c.

(** The state mutations of the drawing API. *)
Inductive Mutation :=
| Translate (x y : Q)
| Rotate (angle : Q)
| Scale (x y : Q)
| SetOpacity (value : Q)
| SetZ (value : Q).

Definition mutate `{Trig} (c : Context) (op : Mutation) : Context :=
  match op with
  | Translate x y => translate x y c
  | Rotate angle => rotate angle c
  | Scale x y => scale x y c
  | SetOpacity value => set_opacity value c
  | SetZ value => set_z value c
  end.

(** The context with an empty log. *)
Definition forget_log (c : Context) : Context :=
  mkContext (__gl c) (_textureManager c) (_stack c) (_state c) (_verts c)
            (_maxDrawingsPerBatch c) (_maxGPUTextures c) (_batches c)
            (_commandPool c) (_batchPool c) (snapToPixel c) (backgroundColor c)
            (_diag c) [].

(** The context after more calls on the device. *)
Definition add_gl_calls (calls : list GLCall) (c : Context) : Context :=
  mkContext (__gl c ++ calls) (_textureManager c) (_stack c) (_state c) (_verts c)
            (_maxDrawingsPerBatch c) (_maxGPUTextures c) (_batches c)
            (_commandPool c) (_batchPool c) (snapToPixel c) (backgroundColor c)
            (_diag c) (_log c).

(** The device calls of [bindTextures]. *)
Definition bindTextures_calls (b : Batch) : list GLCall :=
  mjoin ((fun '(unit, t) => [gl_activeTexture unit; gl_bindTexture t]) <$> bindTextures_units b).

(** The number of draw calls among the calls received by the device. *)
Definition count_drawArrays (calls : list GLCall) : nat :=
  length (List.filter
            (fun call => match call with gl_drawArrays _ _ => true | _ => false end)
            calls).

(** What the loop of [flush] makes of a context [c] when it runs over the
    batches [bs]. *)
Record flushed (bs : list Batch) (c c' : Context) : Prop := {
  flushed_quads : quads (_diag c') = quads (_diag c) + length (mjoin (commands <$> bs));
  flushed_batches : batches (_diag c') = batches (_diag c);
  flushed_uniqueTextures : uniqueTextures (_diag c') = uniqueTextures (_diag c);
  flushed_maxTexturePerDraw : maxTexturePerDraw (_diag c') = maxTexturePerDraw (_diag c);
  flushed_list : _batches c' = _batches c;
  flushed_commandPool :
    _commandPool c' = mkPool (rev (mjoin (commands <$> bs)) ++ free_list (_commandPool c))
                             (built (_commandPool c));
  flushed_batchPool :
    _batchPool c' = mkPool (rev bs ++ free_list (_batchPool c)) (built (_batchPool c));
  flushed_drawArrays :
    count_drawArrays (__gl c') = count_drawArrays (__gl c) + length bs;
  flushed_log : _log c' = _log c;
  flushed_limits : _maxGPUTextures c' = _maxGPUTextures c
                   ∧ _maxDrawingsPerBatch c' = _maxDrawingsPerBatch c;
  flushed_stacks : _stack c' = _stack c ∧ _state c' = _state c
                   ∧ _textureManager c' = _textureManager c
}.

(** Lines 175-185 of [drawImage] as a function of the three fields they
    touch: the batch list, the texture manager and the batch pool. *)
Definition admission (factory : nat -> Batch) (command : DrawImageCommand)
           (st : list Batch * TextureManager * Pool Batch)
  : list Batch * TextureManager * Pool Batch :=
  let '(bs, tm, bp) := st in
  let '(bs, bp) :=
    if length bs =? 0 then
      let '(b, bp') := Pool.get factory Batch.reset bp in (bs ++ [b], bp')
    else (bs, bp) in
  match bs !! (length bs - 1) with
  | None => (bs, tm, bp)
  | Some lastBatch =>
      let '(added, lastBatch', tm') := Batch.maybeAdd tm command lastBatch in
      let bs := <[length bs - 1 := lastBatch']> bs in
      if negb added then
        let '(newBatch, bp') := Pool.get factory Batch.reset bp in
        let '(newBatch', tm'') := Batch.add tm' command newBatch in
        (bs ++ [newBatch'], tm'', bp')
      else (bs, tm', bp)
  end.

(** A context as the constructor and the drawing API produce them: positive
    limits (the device guarantees at least 8 texture units), and every
    batch, queued or pooled, built by the context's factory. *)
Record well_formed (c : Context) : Prop := {
  wf_draws : 1 ≤ _maxDrawingsPerBatch c;
  wf_textures : 1 ≤ _maxGPUTextures c;
  wf_batches : Forall (batch_ok c) (_batches c);
  wf_pool : Forall (batch_ok c) (free_list (_batchPool c))
}.

(** The texture handles cached for the images [ids]. *)
Definition handles_of (tm : TextureManager) (ids : list nat) : list WebGLTexture :=
  omap (fun i => handle <$> cache tm !! i) ids.

(** [ceil(n / m)], the least integer not below the quotient. *)
Definition ceil_div (n m : nat) : Z := Qceiling (Z.of_nat n # Pos.of_nat m).

(** The shape of the batch list while every call uses the image [i]: full
    batches followed by a last batch that holds at least one command, all
    on the one texture cached for [i]. *)
Definition chunked (i : nat) (c : Context) : Prop :=
  ∃ (full : list Batch) (lastBatch : Batch) (e : TextureEntry),
    _batches c = full ++ [lastBatch]
    ∧ Forall (fun b => length (commands b) = _maxDrawingsPerBatch c) full
    ∧ 1 ≤ length (commands lastBatch) ≤ _maxDrawingsPerBatch c
    ∧ textures lastBatch = [handle e]
    ∧ cache (_textureManager c) !! i = Some e.

(** A call with a drawable whose backing image is [i]. *)
Definition uses_image (i : nat) (call : DrawCall) : Prop :=
  ∃ g, graphic call = Some g ∧ image_id (getSource g) = i.

(** The width and height of the texture of a command as the vertex packer
    reads them: those of the backing image, or, where that is 0, those of
    the command ([getSource().width || command.width]). *)
Definition texture_width (command : DrawImageCommand) : Q :=
  JS.or_else (inject_Z (width (getSource (image command)))) (cwidth command).

Definition texture_height (command : DrawImageCommand) : Q :=
  JS.or_else (inject_Z (height (getSource (image command)))) (cheight command).

(** The 42 numbers of one command, given the [textureId] left by the
    commands before it. *)
Definition command_data (tm : TextureManager) (batch : Batch) (textureId : Z)
           (command : DrawImageCommand) : list Q :=
  let '(sx, sy, sw, sh) := view command in
  let w := ensurePowerOfTwo (texture_width command) in
  let h := ensurePowerOfTwo (texture_height command) in
  quad_data command (sx / w) (sy / h) ((sx + sw) / w) ((sy + sh) / h)
            (next_textureId tm batch textureId command).

(** The numbers of a list of commands, in store order. *)
Fixpoint packed_data (tm : TextureManager) (batch : Batch) (textureId : Z)
         (cmds : list DrawImageCommand) : list Q :=
  match cmds with
  | [] => []
  | command :: rest =>
      command_data tm batch textureId command
      ++ packed_data tm batch (next_textureId tm batch textureId command) rest
  end.

(** Reading the buffer back: vertex [v] (0 to 5) of the quad at position
    [i]; a vertex is [x, y, z, u, v, textureSlot, opacity]. *)
Definition written_xy (verts : list Q) (i v : nat) : option (Q * Q) :=
  x ← verts !! (42 * i + 7 * v);
  y ← verts !! (42 * i + 7 * v + 1);
  Some (x, y).

Definition written_uv (verts : list Q) (i v : nat) : option (Q * Q) :=
  s ← verts !! (42 * i + 7 * v + 3);
  t ← verts !! (42 * i + 7 * v + 4);
  Some (s, t).

Definition written_slot (verts : list Q) (i v : nat) : option Q :=
  verts !! (42 * i + 7 * v + 5).

(* ===================================================================== *)
(** ** Concrete frames *)
(* ===================================================================== *)

Module Examples.

(** A drawable on the backing image [i] of [w] by [h] pixels. *)
Definition sprite (i : nat) (w h : Z) : Graphic := mkGraphic (mkImageSource i w h).

(** [drawImage(g, x, y)]. *)
Definition draw (g : Graphic) (x y : Q) : DrawCall :=
  mkDrawCall (Some g) x y None None None None None None.

(** [drawImage(null, 0, 0)]. *)
Definition draw_null : DrawCall :=
  mkDrawCall None 0 0 None None None None None None.

Definition black : Color := mkColor 0 0 0 1.

(** The context of the source: 2000 drawings per batch, on a device with
    8 texture units. *)
Definition default_context : Context := new_context 2000 8 800 600 black.

(** "[maxDrawingsPerBatch=2], one shared texture". *)
Definition two_per_batch : Context := new_context 2 8 800 600 black.

(** "[maxDrawingsPerBatch=2000], [maxGPUTextures=2]". *)
Definition two_textures : Context := new_context 2000 2 800 600 black.

Definition T1 : Graphic := sprite 1 100 37.
Definition T2 : Graphic := sprite 2 64 64.
Definition T3 : Graphic := sprite 3 32 16.

(** Ten draws on nine images: the first image is drawn again at the end. *)
Definition nine_images : list DrawCall :=
  (fun i => draw (sprite i 16 16) 0 0) <$> [1; 2; 3; 4; 5; 6; 7; 8; 9; 1].

(** The number of distinct texture handles in the batch list. *)
Definition distinct_textures (c : Context) : nat :=
  length (remove_dups (mjoin (textures <$> _batches c))).

(** A quarter turn, with exact sine and cosine. *)
Definition quarter_turn : Trig := {| sin := fun _ => 1%Q; cos := fun _ => 0%Q |}.

(** A batch whose second command has an image unknown to the texture
    manager: the manager knows image 7 only, as texture 5, which sits in
    slot 1 of the batch. *)
Definition knows_image_7 : TextureManager :=
  mkTextureManager {[ 7 := mkTextureEntry 5 16 16 ]} 6.

Definition command_on (id : nat) (g : Graphic) : DrawImageCommand :=
  DrawImageCommand.applyTransform Matrix.identity 1 0
    (DrawImageCommand.init (DrawImageCommand.new id) g (draw g 0 0)).

Definition half_textured : Batch :=
  mkBatch 0 2 8 [3; 5] [command_on 0 (sprite 7 16 16); command_on 1 (sprite 9 16 16)].

(** A command whose quad starts at (1/2, 1/2), and a batch holding it. *)
Definition half_pixel_command : DrawImageCommand :=
  mkCommand 0 T1 (0, 0, 100, 37)%Q (1 # 2, 1 # 2)%Q 100 37
            (DrawImageCommand.corners (1 # 2, 1 # 2)%Q 100 37) 0 1.

Definition half_pixel_batch : Batch := mkBatch 0 2000 8 [0] [half_pixel_command].

(** Two batches on the same texture, as a batch list. *)
Definition one_texture_twice : list Batch :=
  [mkBatch 0 2000 8 [7] [command_on 0 T1]; mkBatch 1 2000 8 [7] [command_on 1 T1]].

(** The last batch of the batch list, and the first command of a
    batch. *)
Definition last_batch (c : Context) : Batch :=
  default (Batch.new 0 0 0) (last (_batches c)).

Definition first_command (b : Batch) : DrawImageCommand :=
  default (DrawImageCommand.new 0) (head (commands b)).

End Examples.

(* ===================================================================== *)
(** ** Reading the vertex buffer and the device calls back *)
(* ===================================================================== *)




(** The vertex counts of the draw calls among the calls received by the
    device, in call order. *)
Definition draw_counts (calls : list GLCall) : list nat :=
  omap (fun call => match call with gl_drawArrays _ count => Some count | _ => None end)
       calls.

(** The buffers uploaded by [bufferSubData], in call order. *)
Definition uploads (calls : list GLCall) : list (list Q) :=
  omap (fun call => match call with gl_bufferSubData _ data => Some data | _ => None end)
       calls.

(** The buffers [flush] leaves one after the other when it packs the
    batches [bs] in turn, starting from the buffer [verts]. *)
Fixpoint packed_buffers (tm : TextureManager) (snap : bool) (verts : list Q)
         (bs : list Batch) : list (list Q) :=
  match bs with
  | [] => []
  | b :: rest =>
      let verts' := (foldl (pack_command tm snap b) (verts, 0, 0%Z) (commands b)).1.1 in
      verts' :: packed_buffers tm snap verts' rest
  end.

(** A batch within the limits of its context: at least one command and one
    texture, at most [maxDrawingsPerBatch] commands and [maxGPUTextures]
    textures. *)
Definition within_limits (c : Context) (b : Batch) : Prop :=
  1 ≤ length (commands b) ≤ _maxDrawingsPerBatch c
  ∧ 1 ≤ length (textures b) ≤ _maxGPUTextures c.

(* ===================================================================== *)
(** ** The GIF resource: bits, stream, colour tables, sub-blocks *)
(* ===================================================================== *)

Module Gif.

(** What a call completes with: a value, or a thrown error. *)
Inductive Error :=
| PastEndOfStream      (* 'Attempted to read past end of stream.' *)
| NotAGifFile          (* 'Not a GIF file.' *)
| UnknownBlock (sentinel : Z)  (* 'Unknown block: 0x..' *)
| InvalidLZWCode       (* 'Invalid LZW code.' *)
| TypeError.           (* a property read on [undefined] *)

Inductive Completion (A : Type) :=
| Return (value : A)
| Throw (error : Error).
Arguments Return {A} _.
Arguments Throw {A} _.

(** A method of an object with state [S]: the state survives a throw. *)
Definition M (S A : Type) : Type := S -> Completion A * S.

Definition ret {S A} (a : A) : M S A := fun s => (Return a, s).

Definition throw {S A} (e : Error) : M S A := fun s => (Throw e, s).

Definition bind {S A B} (m : M S A) (k : A -> M S B) : M S B :=
  fun s =>
    match m s with
    | (Return a, s') => k a s'
    | (Throw e, s') => (Throw e, s')
    end.

#[global] Instance M_ret {S} : MRet (M S) := fun A => @ret S A.
#[global] Instance M_bind {S} : MBind (M S) := fun A B k m => @bind S A B m k.

(** [x << n] on 32-bit integers: the shift count is taken modulo 32. *)
Definition shl (x n : Z) : Z := JS.to_int32 (JS.to_int32 x * 2 ^ (n mod 32)).

(** [x & y] on 32-bit integers. *)
Definition band (x y : Z) : Z := Z.land (JS.to_int32 x) (JS.to_int32 y).

(** [x | y] on 32-bit integers. *)
Definition bor (x y : Z) : Z := Z.lor (JS.to_int32 x) (JS.to_int32 y).

(** [bitsToNum(ba)]: [ba.reduce((s, n) => s * 2 + n, 0)]; a boolean counts
    as 0 or 1. *)
Definition bitsToNum (ba : list bool) : Z :=
  foldl (fun s n => (s * 2 + Z.b2z n)%Z) 0%Z ba.

(** [byteToBitArr(bite)]: [for (i = 7; i >= 0; i--) a.push(!!(bite & (1 << i)))]. *)
Definition byteToBitArr (bite : Z) : list bool :=
  (fun i => negb (band bite (shl 1 i) =? 0)%Z) <$> [7; 6; 5; 4; 3; 2; 1; 0]%Z.

(** [bits.shift()] and [bits.splice(0, n)]: what is removed, and what is
    left.  [shift] on an empty array gives [undefined], which is falsy. *)
Definition shift (bits : list bool) : bool * list bool :=
  match bits with
  | [] => (false, [])
  | b :: rest => (b, rest)
  end.

Definition splice0 (n : nat) (bits : list bool) : list bool * list bool :=
  (take n bits, drop n bits).

(** The number held by an element of the [Uint8Array]. *)
Definition byte_value (b : Byte.byte) : Z := Z.of_N (Byte.to_N b).

(** [Stream]: [data] is the [Uint8Array] over the buffer, [len] its
    [byteLength], [position] the read cursor. *)
Record Stream := mkStream {
  data : list Byte.byte;
  len : nat;
  position : nat
}.

Module Stream.

(** [new Stream(dataArray)]. *)
Definition new (dataArray : list Byte.byte) : Stream :=
  mkStream dataArray (length dataArray) 0.

(** [readByte()]. *)
Definition readByte : M Stream Z :=
  fun st =>
    if length (data st) <=? position st then (Throw PastEndOfStream, st)
    else
      match data st !! position st with
      | Some b => (Return (byte_value b), mkStream (data st) (len st) (S (position st)))
      | None => (Throw TypeError, st) (* not reached: the index is in range *)
      end.

(** [readBytes(n)]: [for (i = 0; i < n; i++) bytes.push(this.readByte())]. *)
Fixpoint readBytes_from (n : nat) (bytes : list Z) : M Stream (list Z) :=
  match n with
  | 0 => ret bytes
  | S n' => b ← readByte; readBytes_from n' (bytes ++ [b])
  end.

Definition readBytes (n : nat) : M Stream (list Z) := readBytes_from n [].

(** [String.fromCharCode(b)] for a byte. *)
Definition fromCharCode (b : Z) : string :=
  String (Ascii.ascii_of_N (Z.to_N b)) EmptyString.

(** [read(n)]: [for (i = 0; i < n; i++) s += String.fromCharCode(this.readByte())]. *)
Fixpoint read_from (n : nat) (s : string) : M Stream string :=
  match n with
  | 0 => ret s
  | S n' => b ← readByte; read_from n' (s +:+ fromCharCode b)
  end.

Definition read (n : nat) : M Stream string := read_from n EmptyString.

(** [readUnsigned()]: [a = this.readBytes(2); return (a[1] << 8) + a[0]]. *)
Definition readUnsigned : M Stream Z :=
  a ← readBytes 2;
  match a with
  | [a0; a1] => ret (shl a1 8 + a0)%Z
  | _ => throw TypeError (* not reached: [readBytes(2)] returns two bytes *)
  end.

(** The bytes not yet read, and the stream after [n] more bytes were
    read. *)
Definition remaining (st : Stream) : list Byte.byte :=
  drop (position st) (data st).

Definition advance (n : nat) (st : Stream) : Stream :=
  mkStream (data st) (len st) (position st + n).

(** The characters of the bytes [bs], as [String.fromCharCode] maps them. *)
Definition chars (bs : list Byte.byte) : string :=
  foldr (fun b s => String (Ascii.ascii_of_byte b) s) EmptyString bs.

End Stream.

(** The local object [hdr] of [parseHeader]. *)
Record Header := mkHeader {
  sig : string;
  ver : string;
  hdr_width : Z;
  hdr_height : Z;
  gctFlag : bool;
  colorRes : Z;
  hdr_sorted : bool;
  globalColorTableSize : Z;
  bgColor : Z;
  pixelAspectRatio : Z;
  hdr_globalColorTable : list (list Z)
}.

(** [ParseGif]: the stream it reads and the global colour table.  The
    private [_handler] is the empty object throughout, so every
    [this._handler.x && this._handler.x(..)] is [undefined] and calls
    nothing. *)
Record ParseGif := mkParseGif {
  _st : Stream;
  globalColorTable : list (list Z)
}.

Module ParseGif.

(** A method of the stream called through [this._st]. *)
Definition on_stream {A} (m : M Stream A) : M ParseGif A :=
  fun p =>
    let '(r, st) := m (_st p) in (r, mkParseGif st (globalColorTable p)).

Definition set_globalColorTable (ct : list (list Z)) : M ParseGif unit :=
  fun p => (Return tt, mkParseGif (_st p) ct).

(** [parseColorTable(entries)]:
    [for (i = 0; i < entries; i++) ct.push(this._st.readBytes(3))]. *)
Fixpoint parseColorTable_from (n : nat) (ct : list (list Z)) : M ParseGif (list (list Z)) :=
  match n with
  | 0 => mret ct
  | S n' => rgb ← on_stream (Stream.readBytes 3); parseColorTable_from n' (ct ++ [rgb])
  end.

Definition parseColorTable (entries : Z) : M ParseGif (list (list Z)) :=
  parseColorTable_from (Z.to_nat entries) [].

(** [readSubBlocks()]:
    [do { size = readByte(); data += read(size) } while (size !== 0)].
    Every turn of the loop reads at least one byte, so the loop runs at
    most once more than there are bytes left; [fuel] counts the turns. *)
Fixpoint readSubBlocks_loop (fuel : nat) (data : string) : M ParseGif string :=
  match fuel with
  | 0 => throw PastEndOfStream (* not reached, see [readSubBlocks] *)
  | S fuel' =>
      size ← on_stream Stream.readByte;
      block ← on_stream (Stream.read (Z.to_nat size));
      if (size =? 0)%Z then mret (data +:+ block)
      else readSubBlocks_loop fuel' (data +:+ block)
  end.

Definition readSubBlocks : M ParseGif string :=
  fun p =>
    readSubBlocks_loop (S (length (Gif.data (_st p)) - position (_st p))) EmptyString p.

(** The body of [parseHeader], with the local [hdr] as its value. *)
Definition parseHeader_hdr : M ParseGif Header :=
  sig ← on_stream (Stream.read 3);
  ver ← on_stream (Stream.read 3);
  if negb (String.eqb sig "GIF") then throw NotAGifFile
  else
    width ← on_stream Stream.readUnsigned;
    height ← on_stream Stream.readUnsigned;
    byte ← on_stream Stream.readByte;
    let bits := byteToBitArr byte in
    let '(gctFlag, bits) := shift bits in
    let '(colorRes_bits, bits) := splice0 3 bits in
    let '(sorted, bits) := shift bits in
    let '(size_bits, bits) := splice0 3 bits in
    let globalColorTableSize := bitsToNum size_bits in
    bgColor ← on_stream Stream.readByte;
    pixelAspectRatio ← on_stream Stream.readByte;
    let hdr :=
      mkHeader sig ver width height gctFlag (bitsToNum colorRes_bits) sorted
               globalColorTableSize bgColor pixelAspectRatio [] in
    if gctFlag then
      ct ← parseColorTable (shl 1 (globalColorTableSize + 1));
      _ ← set_globalColorTable ct;
      mret (mkHeader sig ver width height gctFlag (bitsToNum colorRes_bits) sorted
                     globalColorTableSize bgColor pixelAspectRatio ct)
    else mret hdr.

(** [parseHeader()]: the local [hdr] is dropped on return. *)
Definition parseHeader : M ParseGif unit :=
  _ ← parseHeader_hdr; mret tt.

(** The parser after its stream read [n] more bytes. *)
Definition advance (n : nat) (p : ParseGif) : ParseGif :=
  mkParseGif (Stream.advance n (_st p)) (globalColorTable p).

(** The first [n] groups of three of a list of numbers. *)
Fixpoint triples (n : nat) (l : list Z) : list (list Z) :=
  match n with
  | 0 => []
  | S n' => take 3 l :: triples n' (drop 3 l)
  end.

(** Data sub-blocks as the GIF format lays them out: each chunk after a
    byte holding its size, and a zero byte at the end. *)
Definition size_byte (n : nat) : Byte.byte :=
  default Byte.x00 (Byte.of_N (N.of_nat n)).

Definition sub_blocks (chunks : list (list Byte.byte)) : list Byte.byte :=
  mjoin ((fun chunk => size_byte (length chunk) :: chunk) <$> chunks) ++ [Byte.x00].

End ParseGif.

(** *** [deinterlace], the local function of [parseImg] *)

Section Deinterlace.
Context {P : Type}.

(** [pixels.slice(from, to)] for [0 <= from <= to]. *)
Definition slice (from to : nat) (pixels : list P) : list P :=
  take (to - from) (drop from pixels).

(** [arr.splice(start, deleteCount, ...items)] for non-negative [start] and
    [deleteCount]: both are clamped to the array. *)
Definition splice {A} (start deleteCount : nat) (items : list A) (arr : list A)
  : list A :=
  take start arr ++ items ++ drop (start + deleteCount) arr.

(** [toRow < rows], where [rows = pixels.length / width]: the quotient is
    [Infinity] when [width] is 0, and [NaN] (below which nothing is) when
    [pixels.length] is 0 too. *)
Definition before_rows (toRow len width : nat) : bool :=
  match width with
  | 0 => negb (len =? 0)
  | S _ => toRow * width <? len
  end.

(** [cpRow(toRow, fromRow)]; a hole of [new Array(n)] is [None]. *)
Definition cpRow (pixels : list P) (width toRow fromRow : nat)
           (newPixels : list (option P)) : list (option P) :=
  let fromPixels := slice (fromRow * width) ((fromRow + 1) * width) pixels in
  splice (toRow * width) width (Some <$> fromPixels) newPixels.

(** [for (toRow = ..; toRow < rows; toRow += step) { cpRow(toRow, fromRow);
    fromRow++ }]; [None] when [fuel] turns do not end the loop. *)
Fixpoint pass_loop (fuel : nat) (pixels : list P) (width step toRow fromRow : nat)
         (newPixels : list (option P)) : option (list (option P) * nat) :=
  match fuel with
  | 0 => None
  | S fuel' =>
      if before_rows toRow (length pixels) width then
        pass_loop fuel' pixels width step (toRow + step) (S fromRow)
                  (cpRow pixels width toRow fromRow newPixels)
      else Some (newPixels, fromRow)
  end.

(** [deinterlace(pixels, width)]: the four passes, with offsets
    [[0, 4, 2, 1]] and steps [[8, 8, 4, 2]]. *)
Definition deinterlace (fuel : nat) (pixels : list P) (width : nat)
  : option (list (option P)) :=
  let newPixels := replicate (length pixels) None in
  let offsets := [0; 4; 2; 1] in
  let steps := [8; 8; 4; 2] in
  fst <$>
    foldl (fun state '(offset, step) =>
             '(newPixels, fromRow) ← state;
             pass_loop fuel pixels width step offset fromRow newPixels)
          (Some (newPixels, 0)) (zip offsets steps).

End Deinterlace.

(** The rows a pass visits, in order: [offset], [offset + step], ... below
    [rows]. *)
Definition pass_rows (rows offset step : nat) : list nat :=
  (fun k => offset + k * step) <$> seq 0 ((rows + step - 1 - offset) / step).

(** The order in which the rows of an interlaced image are stored. *)
Definition interlace_order (rows : nat) : list nat :=
  pass_rows rows 0 8 ++ pass_rows rows 4 8 ++ pass_rows rows 2 4 ++ pass_rows rows 1 2.

(** The rows of an image after the stored rows [k] were copied to the rows
    [r], for the pairs [(k, r)] in turn. *)
Definition copy_rows {A} (f : nat -> A) (pairs : list (nat * nat)) (rows : list A)
  : list A :=
  foldl (fun rows '(k, r) => <[r := f k]> rows) rows pairs.

End Gif.


(* ===================================================================== *)
(** ** The GIF resource: LZW decoding *)
(* ===================================================================== *)

Module Lzw.
Import Gif.

(** [x >> n] on 32-bit integers. *)
Definition shr (x n : Z) : Z := Z.shiftr (JS.to_int32 x) (n mod 32).

(** [data.charCodeAt(i)]; [None] is [NaN], the answer for an index outside
    the string. *)
Definition charCodeAt (data : string) (i : Z) : option Z :=
  if (i <? 0)%Z then None
  else (fun a => Z.of_N (Ascii.N_of_ascii a)) <$> String.get (Z.to_nat i) data.

(** The condition [data.charCodeAt(pos >> 3) & (1 << (pos & 7))]: [NaN]
    counts as 0 under [&]. *)
Definition bit_at (data : string) (pos : Z) : bool :=
  match charCodeAt data (shr pos 3) with
  | Some c => negb (band c (shl 1 (band pos 7)) =? 0)%Z
  | None => false
  end.

(** [readCode(size)]: the loop from [i], with [code] and [pos] so far; the
    result is the code and the new [pos]. *)
Fixpoint readCode_from (data : string) (n : nat) (i code pos : Z) : Z * Z :=
  match n with
  | 0 => (code, pos)
  | S n' =>
      let code := if bit_at data pos then bor code (shl 1 i) else code in
      readCode_from data n' (i + 1) code (pos + 1)
  end.

Definition readCode (data : string) (size pos : Z) : Z * Z :=
  readCode_from data (Z.to_nat size) 0 0 pos.

(** An element of [dict]: an array of numbers, where [undefined] can get in
    ([None]), or [null]. *)
Inductive Entry :=
| Arr (items : list (option Z))
| Null.

(** [dict[i]]; [None] is [undefined]: [i] is [undefined], or not an index
    of the array. *)
Definition dict_get (dict : list Entry) (i : option Z) : option Entry :=
  i ← i; if (i <? 0)%Z then None else dict !! Z.to_nat i.

(** [arr[0]]. *)
Definition first (arr : list (option Z)) : option Z := mjoin (head arr).

(** The dictionary [clear()] builds, for a [clearCode] that is not
    negative: [[0], [1], ..., [clearCode - 1], [], null]. *)
Definition clear_dict (clearCode : Z) : list Entry :=
  ((fun i => Arr [Some i]) <$> seqZ 0 clearCode) ++ [Arr []; Null].

(** The variables of [lzwDecode] that outlive an iteration. *)
Record Decoder := mkDecoder {
  pos : Z;
  output : list (option Z);
  dict : list Entry;
  codeSize : Z;
  code : option Z
}.

(** How an iteration of [while (true)] ends. *)
Inductive Iteration :=
| Continue (s : Decoder)
| Break (s : Decoder)
| Raise (error : Error).

(** [dict.push(dict[last].concat(item))], where [item] depends on the
    array found at [dict[last]]; reading a property of [undefined] or
    [null] is a [TypeError]. *)
Definition push_extended (dict : list Entry) (last : option Z)
           (item : list (option Z) -> Completion (option Z))
  : Completion (list Entry) :=
  match dict_get dict last with
  | Some (Arr l) =>
      match item l with
      | Return x => Return (dict ++ [Arr (l ++ [x])])
      | Throw e => Throw e
      end
  | _ => Throw TypeError
  end.

(** One iteration of the loop of [lzwDecode]; [minCodeSize] is taken below
    31, so that [1 << minCodeSize] is positive. *)
Definition iteration (minCodeSize : Z) (data : string) (s : Decoder) : Iteration :=
  let clearCode := shl 1 minCodeSize in
  let eoiCode := (clearCode + 1)%Z in
  let last := code s in
  let '(code, pos) := readCode data (codeSize s) (pos s) in
  if (code =? clearCode)%Z then
    Continue (mkDecoder pos (output s) (clear_dict clearCode) (minCodeSize + 1)
                        (Some code))
  else if (code =? eoiCode)%Z then
    Break (mkDecoder pos (output s) (dict s) (codeSize s) (Some code))
  else
    let pushed :=
      if (code <? Z.of_nat (length (dict s)))%Z then
        if negb (bool_decide (last = Some clearCode)) then
          push_extended (dict s) last
            (fun _ =>
               match dict_get (dict s) (Some code) with
               | Some (Arr m) => Return (first m)
               | _ => Throw TypeError
               end)
        else Return (dict s)
      else
        if negb (code =? Z.of_nat (length (dict s)))%Z then Throw InvalidLZWCode
        else push_extended (dict s) last (fun l => Return (first l)) in
    match pushed with
    | Throw e => Raise e
    | Return dict =>
        let output :=
          output s ++ match dict_get dict (Some code) with
                      | Some (Arr l) => l
                      | _ => []
                      end in
        let codeSize :=
          if (Z.of_nat (length dict) =? shl 1 (codeSize s))%Z && (codeSize s <? 12)%Z
          then (codeSize s + 1)%Z else codeSize s in
        Continue (mkDecoder pos output dict codeSize (Some code))
    end.

(** The loop; [None] when [fuel] iterations do not end it. *)
Fixpoint decode_loop (fuel : nat) (minCodeSize : Z) (data : string) (s : Decoder)
  : option (Completion (list (option Z))) :=
  match fuel with
  | 0 => None
  | S fuel' =>
      match iteration minCodeSize data s with
      | Continue s' => decode_loop fuel' minCodeSize data s'
      | Break s' => Some (Return (output s'))
      | Raise e => Some (Throw e)
      end
  end.

(** [lzwDecode(minCodeSize, data)]. *)
Definition lzwDecode (fuel : nat) (minCodeSize : Z) (data : string)
  : option (Completion (list (option Z))) :=
  decode_loop fuel minCodeSize data (mkDecoder 0 [] [] (minCodeSize + 1) None).

(** The number whose binary digits, lowest first, are [bits]. *)
Definition bits_value (bits : list bool) : Z :=
  foldr (fun b v => (Z.b2z b + 2 * v)%Z) 0%Z bits.

(** The codes of an image stored without compression: a clear code before
    every pixel, and the end code. *)
Definition uncompressed (minCodeSize : Z) (pixels : list Z) : list Z :=
  mjoin ((fun c => [2 ^ minCodeSize; c]%Z) <$> pixels) ++ [2 ^ minCodeSize + 1]%Z.

(** A decoder after a clear code: the dictionary has its entry for 0, the
    last code is the clear code or a code with an array in the
    dictionary, and codes have from 1 to 12 bits. *)
Definition primed (clearCode : Z) (s : Decoder) : Prop :=
  (∃ m0, dict s !! 0%nat = Some (Arr m0))
  ∧ (code s = Some clearCode ∨ ∃ l, dict_get (dict s) (code s) = Some (Arr l))
  ∧ (1 ≤ codeSize s ≤ 12)%Z.

End Lzw.

(* ===================================================================== *)
(** ** The RotateTo action *)
(* ===================================================================== *)

Module RotateTo.

(** A number field that may not have been assigned yet: [None] is
    [undefined], which arithmetic turns into [NaN]; no comparison with
    [NaN] holds. *)
Definition Num := option Q.

Definition nadd (a b : Num) : Num := x ← a; y ← b; Some (x + y)%Q.
Definition nsub (a b : Num) : Num := x ← a; y ← b; Some (x - y)%Q.
Definition nmul (a b : Num) : Num := x ← a; y ← b; Some (x * y)%Q.
Definition nabs (a : Num) : Num := Qabs <$> a.

(** [a >= b] and [a > b]. *)
Definition nge (a b : Num) : bool :=
  match a, b with
  | Some x, Some y => Qle_bool y x
  | _, _ => false
  end.

Definition ngt (a b : Num) : bool :=
  match a, b with
  | Some x, Some y => negb (Qle_bool x y)
  | _, _ => false
  end.

(** [a % b]: the remainder has the sign of [a]; it is [NaN] for [b = 0]. *)
Definition nrem (a b : Num) : Num :=
  x ← a; y ← b;
  if Qeq_bool y 0 then None
  else Some (x - y * inject_Z (JS.trunc (x / y)))%Q.

(** The four cases of the [switch] of [update]. *)
Inductive RotationType := ShortestPath | LongestPath | Clockwise | CounterClockwise.

(** The action with the two fields of the entity it reads and writes:
    [rotation] is [this._tx.rotation], [angularVelocity] is
    [this._motion.angularVelocity]. *)
Record RotateTo := mkRotateTo {
  rotation : Q;
  angularVelocity : Num;
  _start : Num;
  _end : Q;
  _speed : Q;
  _rotationType : RotationType;
  _direction : Num;
  _distance : Num;
  _shortDistance : Num;
  _longDistance : Num;
  _shortestPathIsPositive : option bool;
  _currentNonCannonAngle : Num;
  _started : bool;
  _stopped : bool
}.

(** [new RotateTo(entity, angleRadians, speed, rotationType?)], for an
    entity with the given rotation and angular velocity; [None] is a
    rotation type left out.  In [rotationType || RotationType.ShortestPath]
    a rotation type that is given is kept: of the members of the enum only
    the first, [ShortestPath] itself, can be falsy. *)
Definition new (entity_rotation entity_angularVelocity : Q)
           (angleRadians speed : Q) (rotationType : option RotationType) : RotateTo :=
  mkRotateTo entity_rotation (Some entity_angularVelocity)
             None angleRadians speed (default ShortestPath rotationType)
             None None None None None None false false.

(** [isComplete()]. *)
Definition isComplete (a : RotateTo) : bool :=
  let distanceTravelled := nabs (nsub (_currentNonCannonAngle a) (_start a)) in
  _stopped a || nge distanceTravelled (nabs (_distance a)).

(** The body of [if (!this._started) { ... }] in [update].  [TwoPI] and
    [PI] stand for [Util.TwoPI] and [Math.PI]; numbers are exact
    rationals, so the two constants are parameters. *)
Definition start (TwoPI PI : Q) (a : RotateTo) : RotateTo :=
  let _start := Some (rotation a) in
  let _currentNonCannonAngle := Some (rotation a) in
  let distance1 := nabs (nsub (Some (_end a)) _start) in
  let distance2 := nsub (Some TwoPI) distance1 in
  let '(_shortDistance, _longDistance) :=
    if ngt distance1 distance2 then (distance2, distance1)
    else (distance1, distance2) in
  let _shortestPathIsPositive :=
    nge (nrem (nadd (nsub _start (Some (_end a))) (Some TwoPI)) (Some TwoPI))
        (Some PI) in
  let '(_direction, _distance) :=
    match _rotationType a with
    | ShortestPath =>
        (if _shortestPathIsPositive then Some 1%Q else Some (-1)%Q, _shortDistance)
    | LongestPath =>
        (if _shortestPathIsPositive then Some (-1)%Q else Some 1%Q, _longDistance)
    | Clockwise =>
        (Some 1%Q, if _shortestPathIsPositive then _shortDistance else _longDistance)
    | CounterClockwise =>
        (Some (-1)%Q,
         if negb _shortestPathIsPositive then _shortDistance else _longDistance)
    end in
  mkRotateTo (rotation a) (angularVelocity a) _start (_end a) (_speed a)
             (_rotationType a) _direction _distance _shortDistance _longDistance
             (Some _shortestPathIsPositive) _currentNonCannonAngle true (_stopped a).

(** The two assignments of [update] that follow the start:
    [this._motion.angularVelocity = this._direction * this._speed] and
    [this._currentNonCannonAngle += this._direction * this._speed *
    (_delta / 1000)]. *)
Definition advance (_delta : Q) (a : RotateTo) : RotateTo :=
  mkRotateTo (rotation a) (nmul (_direction a) (Some (_speed a)))
             (_start a) (_end a) (_speed a) (_rotationType a) (_direction a)
             (_distance a) (_shortDistance a) (_longDistance a)
             (_shortestPathIsPositive a)
             (nadd (_currentNonCannonAngle a)
                   (nmul (nmul (_direction a) (Some (_speed a)))
                         (Some (_delta / 1000)%Q)))
             (_started a) (_stopped a).

(** The body of [if (this.isComplete()) { ... }] in [update]. *)
Definition finish (a : RotateTo) : RotateTo :=
  mkRotateTo (_end a) (Some 0%Q)
             (_start a) (_end a) (_speed a) (_rotationType a) (_direction a)
             (_distance a) (_shortDistance a) (_longDistance a)
             (_shortestPathIsPositive a) (_currentNonCannonAngle a)
             (_started a) true.

(** [update(_delta)]. *)
Definition update (TwoPI PI : Q) (_delta : Q) (a : RotateTo) : RotateTo :=
  let a := if negb (_started a) then start TwoPI PI a else a in
  let a := advance _delta a in
  if isComplete a then finish a else a.

(** [stop()]. *)
Definition stop (a : RotateTo) : RotateTo :=
  mkRotateTo (rotation a) (Some 0%Q)
             (_start a) (_end a) (_speed a) (_rotationType a) (_direction a)
             (_distance a) (_shortDistance a) (_longDistance a)
             (_shortestPathIsPositive a) (_currentNonCannonAngle a)
             (_started a) true.

(** [reset()]. *)
Definition reset (a : RotateTo) : RotateTo :=
  mkRotateTo (rotation a) (angularVelocity a)
             (_start a) (_end a) (_speed a) (_rotationType a) (_direction a)
             (_distance a) (_shortDistance a) (_longDistance a)
             (_shortestPathIsPositive a) (_currentNonCannonAngle a)
             false (_stopped a).

(** The scene moving the entity between two updates: what the action does
    not control. *)
Definition moved (rotation' : Q) (a : RotateTo) : RotateTo :=
  mkRotateTo rotation' (angularVelocity a)
             (_start a) (_end a) (_speed a) (_rotationType a) (_direction a)
             (_distance a) (_shortDistance a) (_longDistance a)
             (_shortestPathIsPositive a) (_currentNonCannonAngle a)
             (_started a) (_stopped a).

(** Updates in a row, one per frame, with the time each frame took. *)
Definition updates (TwoPI PI : Q) (deltas : list Q) (a : RotateTo) : RotateTo :=
  foldl (fun a _delta => update TwoPI PI _delta a) a deltas.

(** The seconds a run of updates accounts for: each [_delta] is in
    milliseconds. *)
Definition elapsed (deltas : list Q) : Q :=
  foldl (fun t _delta => (t + _delta / 1000)%Q) 0%Q deltas.

(** A started action with its plan: where it started from, the direction
    (1 or -1) and the distance it settled on. *)
Definition planned (a : RotateTo) (r0 d D : Q) : Prop :=
  _started a = true ∧ _start a = Some r0 ∧ _direction a = Some d
  ∧ (d = 1%Q ∨ d = (-1)%Q) ∧ _distance a = Some D.

End RotateTo.
(* ===================================================================== *)
(** ** save / restore *)
(* ===================================================================== *)

Section SaveRestore.
Context `{Trig}.

Lemma mutate_saved (c : Context) (op : Mutation) :
  saved_transforms (_stack (mutate c op)) = saved_transforms (_stack c)
  ∧ saved_states (_state (mutate c op)) = saved_states (_state c).
Proof. destruct op; done. Qed.

Lemma mutations_saved (ops : list Mutation) (c : Context) :
  saved_transforms (_stack (foldl mutate c ops)) = saved_transforms (_stack c)
  ∧ saved_states (_state (foldl mutate c ops)) = saved_states (_state c).
Proof.
  revert c. induction ops as [|op ops IH]; intros c; [done|].
  simpl. destruct (IH (mutate c op)) as [-> ->]. apply mutate_saved.
Qed.

(** C5. Whatever [translate], [rotate], [scale], opacity and z
    assignments are made, in any order, between a [save()] and its
    matching [restore()], the [restore()] succeeds and the current
    transform, opacity and z are again what they were immediately before
    the [save()]. *)
Theorem save_restore_roundtrip (ops : list Mutation) (c : Context) :
  ∃ c', restore (foldl mutate (save c) ops) = Some c'
        ∧ transform (_stack c') = transform (_stack c)
        ∧ get_opacity c' = get_opacity c
        ∧ get_z c' = get_z c.
Proof.
  destruct (mutations_saved ops (save c)) as [Hm Hs].
  unfold restore, MatrixStack.restore, StateStack.restore.
  rewrite Hm, Hs. simpl. eexists. split; [reflexivity|]. done.
Qed.

(** The stacks themselves are back to what they were. *)
Lemma save_restore_stacks (ops : list Mutation) (c : Context) :
  ∃ c', restore (foldl mutate (save c) ops) = Some c'
        ∧ _stack c' = _stack c ∧ _state c' = _state c.
Proof.
  destruct (mutations_saved ops (save c)) as [Hm Hs].
  unfold restore, MatrixStack.restore, StateStack.restore.
  rewrite Hm, Hs. simpl. eexists. split; [reflexivity|].
  split; [by destruct (_stack c) | by destruct (_state c)].
Qed.

End SaveRestore.

(* ===================================================================== *)
(** ** flush *)
(* ===================================================================== *)

Lemma context_eta (c : Context) :
  mkContext (__gl c) (_textureManager c) (_stack c) (_state c) (_verts c)
            (_maxDrawingsPerBatch c) (_maxGPUTextures c) (_batches c)
            (_commandPool c) (_batchPool c) (snapToPixel c) (backgroundColor c)
            (_diag c) (_log c) = c.
Proof. by destruct c. Qed.

Lemma bindTextures_eq (b : Batch) (c : Context) :
  bindTextures b c = add_gl_calls (bindTextures_calls b) c.
Proof.
  unfold bindTextures, bindTextures_calls.
  generalize (bindTextures_units b). intros us. revert c.
  induction us as [|[unit t] us IH]; intros c; simpl.
  - unfold add_gl_calls. rewrite app_nil_r. by rewrite context_eta.
  - rewrite IH. unfold add_gl_calls, gl_call. simpl.
    by rewrite <- !app_assoc.
Qed.

Lemma free_commands_eq (cmds : list DrawImageCommand) (c : Context) :
  foldl (fun c command => set_commandPool (Pool.free command (_commandPool c)) c) c cmds
  = set_commandPool (mkPool (rev cmds ++ free_list (_commandPool c))
                            (built (_commandPool c))) c.
Proof.
  revert c. induction cmds as [|cmd cmds IH]; intros c; simpl.
  - unfold set_commandPool. destruct c as [? ? ? ? ? ? ? ? [? ?] ? ? ? ? ?]. done.
  - rewrite IH. unfold set_commandPool, Pool.free. simpl.
    by rewrite <- app_assoc.
Qed.

Lemma updateVertexBufferData_eq (b : Batch) (c : Context) :
  _updateVertexBufferData b c
  = set_verts (foldl (pack_command (_textureManager c) (snapToPixel c) b)
                     (_verts c, 0, 0%Z) (commands b)).1.1 c.
Proof.
  unfold _updateVertexBufferData.
  by destruct (foldl _ _ _) as [[verts vi] tid].
Qed.

Lemma count_drawArrays_app (xs ys : list GLCall) :
  count_drawArrays (xs ++ ys) = count_drawArrays xs + count_drawArrays ys.
Proof. unfold count_drawArrays. by rewrite List.filter_app, length_app. Qed.

Lemma count_drawArrays_bindTextures (b : Batch) :
  count_drawArrays (bindTextures_calls b) = 0.
Proof.
  unfold bindTextures_calls. generalize (bindTextures_units b). intros us.
  induction us as [|[unit t] us IH]; simpl; [done|]. apply IH.
Qed.

Lemma foldl_flush_batch (bs : list Batch) (c : Context) (acc : list WebGLTexture) :
  (foldl flush_batch (c, acc) bs).2 = acc ++ mjoin (textures <$> bs)
  ∧ flushed bs c (foldl flush_batch (c, acc) bs).1.
Proof.
  revert c acc. induction bs as [|b bs IH]; intros c acc.
  - simpl. rewrite app_nil_r. split; [done|].
    split; simpl; rewrite ?Nat.add_0_r; try done.
    + by destruct (_commandPool c).
    + by destruct (_batchPool c).
  - change (foldl flush_batch (c, acc) (b :: bs))
      with (foldl flush_batch (flush_batch (c, acc) b) bs).
    unfold flush_batch at 2 4.
    rewrite updateVertexBufferData_eq, bindTextures_eq, free_commands_eq.
    match goal with |- context [foldl flush_batch (?c1, ?a1) bs] =>
      destruct (IH c1 a1) as [Hacc [H1 H2 H3 H4 H5 H6 H7 H8 H9 H10 H11]] end.
    split.
    + rewrite Hacc. simpl. by rewrite <- app_assoc.
    + split.
      * rewrite H1. simpl. rewrite length_app. symmetry. apply Nat.add_assoc.
      * by rewrite H2.
      * by rewrite H3.
      * by rewrite H4.
      * by rewrite H5.
      * rewrite H6. simpl. rewrite rev_app_distr, <- app_assoc. done.
      * rewrite H7. simpl. by rewrite <- app_assoc.
      * rewrite H8. simpl. rewrite !count_drawArrays_app, count_drawArrays_bindTextures.
        unfold count_drawArrays. simpl. lia.
      * by rewrite H9.
      * destruct H10 as [-> ->]. done.
      * destruct H11 as (-> & -> & ->). done.
Qed.

(** No texture handle is strictly equal to a boolean: [indexOf] of the
    comparison [v === i] is always [-1]. *)
Lemma indexOf_boolean (ts : list WebGLTexture) (flag : bool) (i : Z) :
  JS.indexOf_from (JS.VObject <$> ts) (JS.VBoolean flag) i = (-1)%Z.
Proof.
  revert i. induction ts as [|t ts IH]; intros i; [done|]. simpl. apply IH.
Qed.

Lemma filter_from_keeps (ts rest : list WebGLTexture) (i : Z) :
  JS.filter_from uniqueTextures_callback (JS.VObject <$> ts) (JS.VObject <$> rest) i
  = JS.VObject <$> rest.
Proof.
  revert i. induction rest as [|t rest IH]; intros i; [done|].
  simpl. unfold uniqueTextures_callback at 1. unfold JS.indexOf.
  rewrite indexOf_boolean. simpl. f_equal. apply IH.
Qed.

(** The filter of line 389 drops nothing. *)
Lemma uniqueTextures_filter_length (ts : list WebGLTexture) :
  length (JS.filter uniqueTextures_callback (JS.VObject <$> ts)) = length ts.
Proof. unfold JS.filter. by rewrite filter_from_keeps, length_fmap. Qed.

(** The context after [flush()], field by field. *)
Lemma flush_spec (c : Context) :
  quads (_diag (flush c)) = length (queued c)
  ∧ batches (_diag (flush c)) = length (_batches c)
  ∧ uniqueTextures (_diag (flush c)) = length (mjoin (textures <$> _batches c))
  ∧ maxTexturePerDraw (_diag (flush c)) = _maxGPUTextures c
  ∧ _batches (flush c) = []
  ∧ _commandPool (flush c)
    = mkPool (rev (queued c) ++ free_list (_commandPool c)) (built (_commandPool c))
  ∧ _batchPool (flush c)
    = mkPool (rev (_batches c) ++ free_list (_batchPool c)) (built (_batchPool c))
  ∧ count_drawArrays (__gl (flush c)) = count_drawArrays (__gl c) + length (_batches c).
Proof.
  unfold flush, queued.
  pose proof (foldl_flush_batch (_batches c)
                (clear (set_diag (mkDiag 0 0 0 (_maxGPUTextures c)) c)) []) as [Hacc Hf].
  change (_batches (clear (set_diag (mkDiag 0 0 0 (_maxGPUTextures c)) c)))
    with (_batches c).
  destruct (foldl flush_batch _ _) as [c1 acc]. simpl in Hacc, Hf.
  destruct Hf as [H1 H2 H3 H4 H5 H6 H7 H8 H9 H10 H11]. simpl in *.
  rewrite H1, H4, H5, H6, H7, H8, Hacc, uniqueTextures_filter_length.
  unfold count_drawArrays. rewrite !List.filter_app, !length_app. simpl.
  repeat split; try done; lia.
Qed.

(* ===================================================================== *)
(** ** drawImage *)
(* ===================================================================== *)

Lemma drawImage_null (call : DrawCall) (c : Context) :
  graphic call = None →
  drawImage call c = log Trace (log (Warn "Cannot draw a null or undefined image") c).
Proof. intros Hg. unfold drawImage. by rewrite Hg. Qed.

(** A call with a drawable changes the command pool, the batch list, the
    texture manager and the batch pool, and nothing else. *)
Lemma drawImage_valid (call : DrawCall) (g : Graphic) (c : Context) :
  graphic call = Some g →
  drawImage call c
  = let r := admission (batch_factory c) (make_command g call c).1
                   (_batches c, _textureManager c, _batchPool c) in
    set_textureManager r.1.2
      (set_batchPool r.2
         (set_batches r.1.1 (set_commandPool (make_command g call c).2 c))).
Proof.
  intros Hg. unfold drawImage, admission. rewrite Hg.
  destruct (make_command g call c) as [command pool']. simpl.
  destruct (length (_batches c) =? 0).
  - unfold batch_factory. simpl.
    destruct (Pool.get _ _ (_batchPool c)) as [b bp]. simpl.
    destruct (_ !! _) as [lastBatch|]; simpl.
    2:{ unfold set_commandPool, set_batches, set_batchPool, set_textureManager.
        simpl. by destruct c. }
    destruct (Batch.maybeAdd _ _ _) as [[added lastBatch'] tm']. simpl.
    destruct added; simpl; [done|].
    destruct (Pool.get _ _ _) as [nb bp'].
    destruct (Batch.add _ _ _) as [nb' tm'']. done.
  - simpl.
    destruct (_ !! _) as [lastBatch|]; simpl.
    2:{ unfold set_commandPool, set_batches, set_batchPool, set_textureManager.
        simpl. by destruct c. }
    destruct (Batch.maybeAdd _ _ _) as [[added lastBatch'] tm']. simpl.
    destruct added; simpl.
    + unfold set_commandPool, set_batches, set_batchPool, set_textureManager.
      simpl. done.
    + unfold batch_factory. simpl.
      destruct (Pool.get _ _ _) as [nb bp'].
      destruct (Batch.add _ _ _) as [nb' tm'']. done.
Qed.

Lemma lookup_last_snoc {A} (l : list A) (x : A) :
  (l ++ [x]) !! (length (l ++ [x]) - 1) = Some x.
Proof.
  rewrite length_app. simpl.
  replace (length l + 1 - 1) with (length l) by lia.
  apply list_lookup_middle. done.
Qed.

Lemma insert_last_snoc {A} (l : list A) (x y : A) :
  <[length (l ++ [x]) - 1 := y]> (l ++ [x]) = l ++ [y].
Proof.
  rewrite length_app. simpl.
  replace (length l + 1 - 1) with (length l + 0) by lia.
  by rewrite insert_app_r.
Qed.

(** Admission into a non-empty batch list: the last batch takes the command
    or a new batch is opened for it. *)
Lemma admission_snoc (factory : nat -> Batch) (command : DrawImageCommand)
      (bs : list Batch) (lastBatch : Batch) (tm : TextureManager) (bp : Pool Batch) :
  admission factory command (bs ++ [lastBatch], tm, bp)
  = let r := Batch.maybeAdd tm command lastBatch in
    if r.1.1 then (bs ++ [r.1.2], r.2, bp)
    else
      let o := Pool.get factory Batch.reset bp in
      let a := Batch.add r.2 command o.1 in
      (bs ++ [r.1.2; a.1], a.2, o.2).
Proof.
  unfold admission.
  replace (length (bs ++ [lastBatch]) =? 0) with false
    by (symmetry; apply Nat.eqb_neq; rewrite length_app; simpl; lia).
  rewrite lookup_last_snoc.
  destruct (Batch.maybeAdd tm command lastBatch) as [[added lastBatch'] tm'].
  rewrite insert_last_snoc. simpl.
  destruct added; simpl; [done|].
  destruct (Pool.get _ _ _) as [nb bp'].
  destruct (Batch.add _ _ _) as [nb' tm'']. simpl.
  by rewrite <- app_assoc.
Qed.

(** Admission into an empty batch list first opens a batch. *)
Lemma admission_nil (factory : nat -> Batch) (command : DrawImageCommand)
      (tm : TextureManager) (bp : Pool Batch) :
  admission factory command ([], tm, bp)
  = let o := Pool.get factory Batch.reset bp in
    admission factory command ([] ++ [o.1], tm, o.2).
Proof.
  unfold admission. simpl.
  destruct (Pool.get factory Batch.reset bp) as [b bp']. simpl. done.
Qed.

(** *** Pools *)

Lemma pool_get_in_use {T} (factory : nat -> T) (reset : T -> T) (p : Pool T) :
  Pool.in_use (Pool.get factory reset p).2 = (Pool.in_use p + 1)%Z.
Proof.
  unfold Pool.get, Pool.in_use. destruct (free_list p); simpl; lia.
Qed.

Lemma pool_free_in_use {T} (x : T) (p : Pool T) :
  Pool.in_use (Pool.free x p) = (Pool.in_use p - 1)%Z.
Proof. unfold Pool.free, Pool.in_use. simpl. lia. Qed.

(** A batch taken from the pool is empty. *)
Lemma open_batch_empty (M T : nat) (bp : Pool Batch) :
  commands (Pool.get (Batch.new M T) Batch.reset bp).1 = []
  ∧ textures (Pool.get (Batch.new M T) Batch.reset bp).1 = [].
Proof. unfold Pool.get. by destruct (free_list bp). Qed.

(** It has the limits of the factory when the free batches have them. *)
Lemma open_batch_limits (M T : nat) (bp : Pool Batch) :
  Forall (fun b => maxDraws b = M ∧ maxTextures b = T) (free_list bp) →
  (maxDraws (Pool.get (Batch.new M T) Batch.reset bp).1 = M
   ∧ maxTextures (Pool.get (Batch.new M T) Batch.reset bp).1 = T)
  ∧ Forall (fun b => maxDraws b = M ∧ maxTextures b = T)
           (free_list (Pool.get (Batch.new M T) Batch.reset bp).2).
Proof.
  intros Hf. unfold Pool.get. destruct (free_list bp) as [|b rest]; simpl.
  - done.
  - by inversion Hf.
Qed.

(** *** Batches *)

Lemma maybeAdd_commands (tm : TextureManager) (command : DrawImageCommand) (b : Batch) :
  let r := Batch.maybeAdd tm command b in
  if r.1.1 then commands r.1.2 = commands b ++ [command] else r.1.2 = b.
Proof.
  unfold Batch.maybeAdd.
  destruct (TextureManager.updateFromGraphic _ _) as [t tm'].
  by destruct (_ || _).
Qed.

Lemma add_commands (tm : TextureManager) (command : DrawImageCommand) (b : Batch) :
  commands (Batch.add tm command b).1 = commands b ++ [command].
Proof.
  unfold Batch.add. by destruct (TextureManager.updateFromGraphic _ _).
Qed.

Lemma join_commands_snoc (bs : list Batch) (b : Batch) :
  mjoin (commands <$> (bs ++ [b])) = mjoin (commands <$> bs) ++ commands b.
Proof. by rewrite fmap_app, join_app; simpl; rewrite app_nil_r. Qed.

(** Admission appends the command to the queue, never leaves the batch list
    empty, and takes from the batch pool exactly the batches it opens. *)
Lemma admission_queued (M T : nat) (command : DrawImageCommand)
      (bs : list Batch) (tm : TextureManager) (bp : Pool Batch) :
  let r := admission (Batch.new M T) command (bs, tm, bp) in
  mjoin (commands <$> r.1.1) = mjoin (commands <$> bs) ++ [command]
  ∧ r.1.1 ≠ []
  ∧ (Pool.in_use r.2 - Z.of_nat (length r.1.1)
     = Pool.in_use bp - Z.of_nat (length bs))%Z.
Proof.
  assert (Hsnoc : ∀ bs0 b0 bp0,
    let r := admission (Batch.new M T) command (bs0 ++ [b0], tm, bp0) in
    mjoin (commands <$> r.1.1) = mjoin (commands <$> (bs0 ++ [b0])) ++ [command]
    ∧ r.1.1 ≠ []
    ∧ (Pool.in_use r.2 - Z.of_nat (length r.1.1)
       = Pool.in_use bp0 - Z.of_nat (length (bs0 ++ [b0])))%Z).
  { intros bs0 b0 bp0. rewrite admission_snoc.
    pose proof (maybeAdd_commands tm command b0) as Hm. simpl in Hm.
    destruct (Batch.maybeAdd tm command b0) as [[added b0'] tm']. simpl in *.
    destruct added; simpl.
    - rewrite !join_commands_snoc, Hm, app_assoc, !length_app. simpl.
      split; [done|]. split; [by destruct bs0|done].
    - subst b0'.
      replace (bs0 ++ [b0; (Batch.add tm' command
                 (Pool.get (Batch.new M T) Batch.reset bp0).1).1])
        with ((bs0 ++ [b0]) ++ [(Batch.add tm' command
                 (Pool.get (Batch.new M T) Batch.reset bp0).1).1])
        by (by rewrite <- app_assoc).
      rewrite (join_commands_snoc (bs0 ++ [b0])), add_commands.
      destruct (open_batch_empty M T bp0) as [-> _]. simpl.
      split; [done|]. split; [by destruct bs0|].
      rewrite pool_get_in_use, !length_app. simpl. lia. }
  destruct bs as [|b0 bs0 _] using rev_ind.
  - rewrite admission_nil. simpl.
    destruct (Hsnoc [] (Pool.get (Batch.new M T) Batch.reset bp).1
                    (Pool.get (Batch.new M T) Batch.reset bp).2) as (H1 & H2 & H3).
    simpl in *. rewrite H1, H3.
    destruct (open_batch_empty M T bp) as [-> _].
    rewrite pool_get_in_use. split; [done|]. split; [done|]. lia.
  - apply Hsnoc.
Qed.

(** *** One call *)

(** What a call leaves alone. *)
Lemma drawImage_frame (call : DrawCall) (c : Context) :
  _maxDrawingsPerBatch (drawImage call c) = _maxDrawingsPerBatch c
  ∧ _maxGPUTextures (drawImage call c) = _maxGPUTextures c
  ∧ __gl (drawImage call c) = __gl c
  ∧ _diag (drawImage call c) = _diag c
  ∧ _stack (drawImage call c) = _stack c
  ∧ _state (drawImage call c) = _state c
  ∧ _verts (drawImage call c) = _verts c.
Proof.
  destruct (graphic call) as [g|] eqn:Hg.
  - by rewrite (drawImage_valid call g c Hg).
  - by rewrite (drawImage_null call c Hg).
Qed.

Lemma make_command_in_use (g : Graphic) (call : DrawCall) (c : Context) :
  Pool.in_use (make_command g call c).2 = (Pool.in_use (_commandPool c) + 1)%Z.
Proof.
  unfold make_command.
  pose proof (pool_get_in_use command_factory id (_commandPool c)) as Hp.
  by destruct (Pool.get _ _ _).
Qed.

Lemma drawImage_queued (call : DrawCall) (g : Graphic) (c : Context) :
  graphic call = Some g →
  queued (drawImage call c) = queued c ++ [(make_command g call c).1]
  ∧ _batches (drawImage call c) ≠ []
  ∧ (Pool.in_use (_batchPool (drawImage call c))
     - Z.of_nat (length (_batches (drawImage call c)))
     = Pool.in_use (_batchPool c) - Z.of_nat (length (_batches c)))%Z
  ∧ Pool.in_use (_commandPool (drawImage call c))
    = (Pool.in_use (_commandPool c) + 1)%Z.
Proof.
  intros Hg. rewrite (drawImage_valid call g c Hg). unfold queued. simpl.
  pose proof (admission_queued (_maxDrawingsPerBatch c) (_maxGPUTextures c)
                (make_command g call c).1 (_batches c) (_textureManager c)
                (_batchPool c)) as (H1 & H2 & H3).
  unfold batch_factory. simpl in *. rewrite make_command_in_use. done.
Qed.

(** *** A sequence of calls *)

Lemma run_cons (call : DrawCall) (calls : list DrawCall) (c : Context) :
  run (call :: calls) c = run calls (drawImage call c).
Proof. done. Qed.

Lemma run_app (calls1 calls2 : list DrawCall) (c : Context) :
  run (calls1 ++ calls2) c = run calls2 (run calls1 c).
Proof. unfold run. apply foldl_app. Qed.

Lemma run_frame (calls : list DrawCall) (c : Context) :
  _maxDrawingsPerBatch (run calls c) = _maxDrawingsPerBatch c
  ∧ _maxGPUTextures (run calls c) = _maxGPUTextures c
  ∧ __gl (run calls c) = __gl c
  ∧ _diag (run calls c) = _diag c
  ∧ _stack (run calls c) = _stack c
  ∧ _state (run calls c) = _state c
  ∧ _verts (run calls c) = _verts c.
Proof.
  revert c. induction calls as [|call calls IH]; intros c; [done|].
  rewrite run_cons.
  destruct (IH (drawImage call c)) as (-> & -> & -> & -> & -> & -> & ->).
  apply drawImage_frame.
Qed.

Lemma submitted_length (calls : list DrawCall) (c : Context) :
  length (submitted calls c) = length (omap graphic calls).
Proof.
  revert c. induction calls as [|call calls IH]; intros c; [done|].
  simpl. destruct (graphic call); simpl; by rewrite IH.
Qed.

(** No command is lost or reordered on its way into the batches, and the
    pools hand out one command per call and one batch per batch opened. *)
Lemma run_queued (calls : list DrawCall) (c : Context) :
  queued (run calls c) = queued c ++ submitted calls c
  ∧ (Pool.in_use (_batchPool (run calls c)) - Z.of_nat (length (_batches (run calls c)))
     = Pool.in_use (_batchPool c) - Z.of_nat (length (_batches c)))%Z
  ∧ Pool.in_use (_commandPool (run calls c))
    = (Pool.in_use (_commandPool c) + Z.of_nat (length (submitted calls c)))%Z.
Proof.
  revert c. induction calls as [|call calls IH]; intros c.
  - simpl. rewrite app_nil_r. split; [done|]. split; [done|]. lia.
  - rewrite run_cons. destruct (IH (drawImage call c)) as (H1 & H2 & H3).
    rewrite H1, H2, H3. simpl.
    destruct (graphic call) as [g|] eqn:Hg.
    + destruct (drawImage_queued call g c Hg) as (Q1 & _ & Q3 & Q4).
      rewrite Q1, Q3, Q4, <- app_assoc. simpl length.
      split; [done|]. split; [done|]. lia.
    + rewrite (drawImage_null call c Hg). simpl. done.
Qed.

(** [diag.uniqueTextures] is the sum of the batches' texture counts. *)
Lemma flush_uniqueTextures_is_a_sum (c : Context) :
  uniqueTextures (_diag (flush c)) = sum_list ((length ∘ textures) <$> _batches c).
Proof.
  destruct (flush_spec c) as (_ & _ & -> & _).
  induction (_batches c) as [|b bs IH]; [done|].
  csimpl. by rewrite length_app, IH.
Qed.

(** The counters of [flush()] in closed form. *)
Lemma flush_diag (c : Context) :
  _diag (flush c)
  = mkDiag (length (queued c)) (length (_batches c))
           (length (mjoin (textures <$> _batches c))) (_maxGPUTextures c).
Proof.
  destruct (flush_spec c) as (H1 & H2 & H3 & H4 & _).
  destruct (_diag (flush c)). simpl in *. congruence.
Qed.

(** *** The log is write-only *)

Lemma drawImage_forget_log (call : DrawCall) (c : Context) :
  forget_log (drawImage call c) = forget_log (drawImage call (forget_log c)).
Proof.
  destruct (graphic call) as [g|] eqn:Hg.
  - by rewrite !(drawImage_valid call g _ Hg).
  - by rewrite !(drawImage_null call _ Hg).
Qed.

Lemma run_forget_log (calls : list DrawCall) (c1 c2 : Context) :
  forget_log c1 = forget_log c2 →
  forget_log (run calls c1) = forget_log (run calls c2).
Proof.
  revert c1 c2. induction calls as [|call calls IH]; intros c1 c2 Heq; [done|].
  rewrite !run_cons. apply IH.
  rewrite (drawImage_forget_log call c1), (drawImage_forget_log call c2).
  by rewrite Heq.
Qed.

Lemma flush_diag_forget_log (c1 c2 : Context) :
  forget_log c1 = forget_log c2 → _diag (flush c1) = _diag (flush c2).
Proof.
  intros Heq. rewrite !flush_diag. unfold queued.
  change (_batches c1) with (_batches (forget_log c1)).
  change (_maxGPUTextures c1) with (_maxGPUTextures (forget_log c1)).
  by rewrite Heq.
Qed.

(* ===================================================================== *)
(** ** The frame: [drawImage]s followed by [flush] *)
(* ===================================================================== *)

(** C4. A frame starts with an empty batch list.  After the calls of the
    frame and [flush()]: [diag.quads] is the number of commands submitted
    by [drawImage] in the frame (one per call with a drawable),
    [diag.batches] is the number of batches of the frame, and as many draw
    calls were issued; the batch list is empty; every command and every
    batch of the frame is in the free list of its pool, and both pools
    have as many instances in use as before the frame. *)
Theorem flush_accounts_for_the_frame (calls : list DrawCall) (c : Context) :
  _batches c = [] →
  let frame := run calls c in
  quads (_diag (flush frame)) = length (submitted calls c)
  ∧ length (submitted calls c) = length (omap graphic calls)
  ∧ batches (_diag (flush frame)) = length (_batches frame)
  ∧ count_drawArrays (__gl (flush frame))
    = count_drawArrays (__gl c) + length (_batches frame)
  ∧ _batches (flush frame) = []
  ∧ (∀ command, command ∈ submitted calls c →
                command ∈ free_list (_commandPool (flush frame)))
  ∧ (∀ b, b ∈ _batches frame → b ∈ free_list (_batchPool (flush frame)))
  ∧ Pool.in_use (_commandPool (flush frame)) = Pool.in_use (_commandPool c)
  ∧ Pool.in_use (_batchPool (flush frame)) = Pool.in_use (_batchPool c).
Proof.
  intros Hnil frame.
  destruct (flush_spec frame) as (H1 & H2 & _ & _ & H5 & H6 & H7 & H8).
  destruct (run_queued calls c) as (Q1 & Q2 & Q3).
  destruct (run_frame calls c) as (_ & _ & Hgl & _).
  fold frame in Q1, Q2, Q3, Hgl.
  assert (Hq : queued frame = submitted calls c).
  { rewrite Q1. unfold queued. by rewrite Hnil. }
  rewrite H1, H2, H5, H6, H7, H8, Hq, Hgl.
  repeat split.
  - apply submitted_length.
  - intros command Hin. simpl. apply elem_of_app. left.
    apply list_elem_of_In, in_rev. rewrite rev_involutive.
    by apply list_elem_of_In.
  - intros b Hin. simpl. apply elem_of_app. left.
    apply list_elem_of_In, in_rev. rewrite rev_involutive.
    by apply list_elem_of_In.
  - unfold Pool.in_use in *. simpl. rewrite length_app, length_rev. lia.
  - unfold Pool.in_use in *. simpl. rewrite length_app, length_rev.
    rewrite Hnil in Q2. simpl in Q2. lia.
Qed.

(** C8. A [drawImage] call without a drawable logs a warning and returns:
    it changes nothing but the log, so it enqueues no command, opens no
    batch and takes nothing from the pools; and whatever calls follow, the
    counters of the next [flush()] are those of the same frame without the
    call. *)
Theorem drawImage_without_drawable (call : DrawCall) (c : Context) :
  graphic call = None →
  _log (drawImage call c)
  = _log c ++ [Warn "Cannot draw a null or undefined image"; Trace]
  ∧ forget_log (drawImage call c) = forget_log c
  ∧ queued (drawImage call c) = queued c
  ∧ _batches (drawImage call c) = _batches c
  ∧ _commandPool (drawImage call c) = _commandPool c
  ∧ _batchPool (drawImage call c) = _batchPool c
  ∧ ∀ rest, _diag (flush (run rest (drawImage call c))) = _diag (flush (run rest c)).
Proof.
  intros Hg. rewrite (drawImage_null call c Hg). simpl.
  rewrite <- app_assoc. repeat split.
  intros rest. apply flush_diag_forget_log, run_forget_log. done.
Qed.

(* ===================================================================== *)
(** ** Textures of a batch *)
(* ===================================================================== *)

Lemma make_command_image (g : Graphic) (call : DrawCall) (c : Context) :
  image (make_command g call c).1 = g.
Proof.
  unfold make_command. destruct (Pool.get _ _ _) as [fresh pool']. simpl.
  unfold DrawImageCommand.init.
  by destruct (dx call), (dy call), (dwidth call), (dheight call).
Qed.

(** The texture manager only ever adds entries, and answers with the handle
    it has cached for the image. *)
Lemma updateFromGraphic_spec (tm : TextureManager) (g : Graphic) :
  let r := TextureManager.updateFromGraphic tm g in
  (∀ i e, cache tm !! i = Some e → cache r.2 !! i = Some e)
  ∧ handle <$> cache r.2 !! image_id (getSource g) = Some r.1.
Proof.
  unfold TextureManager.updateFromGraphic.
  destruct (cache tm !! image_id (getSource g)) as [e|] eqn:He; simpl.
  - split; [done|]. by rewrite He.
  - split.
    + intros i e' Hi. rewrite lookup_insert_ne; [done|]. congruence.
    + by rewrite lookup_insert_eq.
Qed.

Lemma updateFromGraphic_cached (tm : TextureManager) (g : Graphic) (e : TextureEntry) :
  cache tm !! image_id (getSource g) = Some e →
  TextureManager.updateFromGraphic tm g = (handle e, tm).
Proof. intros He. unfold TextureManager.updateFromGraphic. by rewrite He. Qed.

Lemma elem_of_handles_of (tm : TextureManager) (ids : list nat) (t : WebGLTexture) :
  t ∈ handles_of tm ids ↔ ∃ i, i ∈ ids ∧ handle <$> cache tm !! i = Some t.
Proof. unfold handles_of. apply list_elem_of_omap. Qed.

Lemma handles_of_length (tm : TextureManager) (ids : list nat) :
  length (handles_of tm ids) ≤ length ids.
Proof.
  unfold handles_of. induction ids as [|i ids IH]; csimpl; [done|].
  destruct (handle <$> cache tm !! i); simpl; lia.
Qed.

(** Distinct handles that all come from the images [ids] are no more than
    the images. *)
Lemma distinct_textures_bound (tm : TextureManager) (ids : list nat)
      (ts : list WebGLTexture) :
  NoDup ts → (∀ t, t ∈ ts → t ∈ handles_of tm ids) → length ts ≤ length ids.
Proof.
  intros Hnd Hsub.
  etrans; [|apply (handles_of_length tm ids)].
  apply submseteq_length, NoDup_submseteq; done.
Qed.

Lemma register_NoDup (t : WebGLTexture) (ts : list WebGLTexture) :
  NoDup ts → NoDup (Batch.register t ts).
Proof.
  intros Hnd. unfold Batch.register. case_bool_decide as Hin; [done|].
  apply NoDup_app. split; [done|]. split.
  - intros x Hx Hx'. apply list_elem_of_singleton in Hx'. by subst.
  - apply NoDup_singleton.
Qed.

Lemma elem_of_register (t x : WebGLTexture) (ts : list WebGLTexture) :
  x ∈ Batch.register t ts ↔ x ∈ ts ∨ x = t.
Proof.
  unfold Batch.register. case_bool_decide as Hin.
  - split; [by left|]. intros [?| ->]; done.
  - rewrite elem_of_app, list_elem_of_singleton. done.
Qed.

Lemma register_new (t : WebGLTexture) (ts : list WebGLTexture) :
  t ∉ ts → Batch.register t ts = ts ++ [t].
Proof. intros Hin. unfold Batch.register. by rewrite bool_decide_eq_false_2. Qed.

Lemma register_old (t : WebGLTexture) (ts : list WebGLTexture) :
  t ∈ ts → Batch.register t ts = ts.
Proof. intros Hin. unfold Batch.register. by rewrite bool_decide_eq_true_2. Qed.

(** *** Admission decisions *)

Lemma add_spec (tm : TextureManager) (command : DrawImageCommand) (b : Batch) :
  Batch.add tm command b
  = let u := TextureManager.updateFromGraphic tm (image command) in
    (mkBatch (bid b) (maxDraws b) (maxTextures b)
             (Batch.register u.1 (textures b)) (commands b ++ [command]), u.2).
Proof. unfold Batch.add. by destruct (TextureManager.updateFromGraphic _ _). Qed.

Lemma maybeAdd_accepts (tm : TextureManager) (command : DrawImageCommand) (b : Batch) :
  let u := TextureManager.updateFromGraphic tm (image command) in
  length (Batch.register u.1 (textures b)) ≤ maxTextures b →
  length (commands b) ≠ maxDraws b →
  Batch.maybeAdd tm command b
  = (true,
     mkBatch (bid b) (maxDraws b) (maxTextures b)
             (Batch.register u.1 (textures b)) (commands b ++ [command]),
     u.2).
Proof.
  unfold Batch.maybeAdd.
  destruct (TextureManager.updateFromGraphic _ _) as [t tm']. simpl.
  intros Ht Hc.
  replace (maxTextures b <? length (Batch.register t (textures b))) with false
    by (symmetry; apply Nat.ltb_ge; lia).
  replace (length (commands b) =? maxDraws b) with false
    by (symmetry; by apply Nat.eqb_neq).
  done.
Qed.

Lemma maybeAdd_rejects_texture (tm : TextureManager) (command : DrawImageCommand)
      (b : Batch) :
  let u := TextureManager.updateFromGraphic tm (image command) in
  maxTextures b < length (Batch.register u.1 (textures b)) →
  Batch.maybeAdd tm command b = (false, b, u.2).
Proof.
  unfold Batch.maybeAdd.
  destruct (TextureManager.updateFromGraphic _ _) as [t tm']. simpl.
  intros Ht.
  replace (maxTextures b <? length (Batch.register t (textures b))) with true
    by (symmetry; apply Nat.ltb_lt; lia).
  done.
Qed.

Lemma maybeAdd_rejects_full (tm : TextureManager) (command : DrawImageCommand)
      (b : Batch) :
  let u := TextureManager.updateFromGraphic tm (image command) in
  length (commands b) = maxDraws b →
  Batch.maybeAdd tm command b = (false, b, u.2).
Proof.
  unfold Batch.maybeAdd.
  destruct (TextureManager.updateFromGraphic _ _) as [t tm']. simpl.
  intros Hc.
  replace (length (commands b) =? maxDraws b) with true
    by (symmetry; by apply Nat.eqb_eq).
  by rewrite orb_true_r.
Qed.

Lemma maybeAdd_limits (tm : TextureManager) (command : DrawImageCommand) (b : Batch) :
  maxDraws (Batch.maybeAdd tm command b).1.2 = maxDraws b
  ∧ maxTextures (Batch.maybeAdd tm command b).1.2 = maxTextures b.
Proof.
  unfold Batch.maybeAdd.
  destruct (TextureManager.updateFromGraphic _ _) as [t tm'].
  by destruct (_ || _).
Qed.

(** *** Well-formed contexts *)

Lemma admission_limits (M T : nat) (command : DrawImageCommand)
      (bs : list Batch) (tm : TextureManager) (bp : Pool Batch) :
  let ok := fun b => maxDraws b = M ∧ maxTextures b = T in
  Forall ok bs → Forall ok (free_list bp) →
  Forall ok (admission (Batch.new M T) command (bs, tm, bp)).1.1
  ∧ Forall ok (free_list (admission (Batch.new M T) command (bs, tm, bp)).2).
Proof.
  intros ok.
  assert (Hsnoc : ∀ bs0 b0 bp0,
    Forall ok (bs0 ++ [b0]) → Forall ok (free_list bp0) →
    Forall ok (admission (Batch.new M T) command (bs0 ++ [b0], tm, bp0)).1.1
    ∧ Forall ok (free_list (admission (Batch.new M T) command (bs0 ++ [b0], tm, bp0)).2)).
  { intros bs0 b0 bp0 Hbs Hbp. rewrite admission_snoc.
    apply Forall_app in Hbs as [Hbs0 Hb0]. rewrite Forall_singleton in Hb0.
    destruct (maybeAdd_limits tm command b0) as [Hl1 Hl2].
    destruct (open_batch_limits M T bp0 Hbp) as [[Ho1 Ho2] Ho3].
    destruct (Batch.maybeAdd tm command b0) as [[added b0'] tm']. simpl in *.
    assert (ok b0') by (unfold ok in *; destruct Hb0; split; congruence).
    destruct added; simpl.
    - split; [|done]. apply Forall_app. split; [done|]. by apply Forall_singleton.
    - split; [|done]. apply Forall_app. split; [done|].
      apply Forall_cons. split; [done|]. apply Forall_singleton.
      rewrite add_spec. simpl. done. }
  intros Hbs Hbp. destruct bs as [|b0 bs0 _] using rev_ind.
  - rewrite admission_nil. simpl.
    destruct (open_batch_limits M T bp Hbp) as [Ho1 Ho3].
    apply (Hsnoc []); [|done]. by apply Forall_singleton.
  - by apply Hsnoc.
Qed.

Lemma drawImage_well_formed (call : DrawCall) (c : Context) :
  well_formed c → well_formed (drawImage call c).
Proof.
  intros [H1 H2 H3 H4].
  destruct (graphic call) as [g|] eqn:Hg.
  - rewrite (drawImage_valid call g c Hg).
    destruct (admission_limits (_maxDrawingsPerBatch c) (_maxGPUTextures c)
                (make_command g call c).1 (_batches c) (_textureManager c)
                (_batchPool c) H3 H4) as [A1 A2].
    split; simpl; done.
  - rewrite (drawImage_null call c Hg). split; done.
Qed.

Lemma run_well_formed (calls : list DrawCall) (c : Context) :
  well_formed c → well_formed (run calls c).
Proof.
  revert c. induction calls as [|call calls IH]; intros c Hwf; [done|].
  rewrite run_cons. by apply IH, drawImage_well_formed.
Qed.

Lemma flush_well_formed (c : Context) :
  well_formed c → well_formed (flush c).
Proof.
  intros [H1 H2 H3 H4].
  destruct (flush_spec c) as (_ & _ & _ & _ & F5 & _ & F7 & _).
  assert (Hl : _maxDrawingsPerBatch (flush c) = _maxDrawingsPerBatch c
               ∧ _maxGPUTextures (flush c) = _maxGPUTextures c).
  { unfold flush.
    pose proof (foldl_flush_batch (_batches c)
                  (clear (set_diag (mkDiag 0 0 0 (_maxGPUTextures c)) c)) []) as [_ Hf].
    change (_batches (clear (set_diag (mkDiag 0 0 0 (_maxGPUTextures c)) c)))
      with (_batches c).
    destruct (foldl flush_batch _ _) as [c1 acc]. simpl in *.
    destruct Hf. simpl in *. tauto. }
  destruct Hl as [Hl1 Hl2].
  assert (Hok : ∀ b, batch_ok c b → batch_ok (flush c) b).
  { intros b [? ?]. unfold batch_ok. by rewrite Hl1, Hl2. }
  split.
  - by rewrite Hl1.
  - by rewrite Hl2.
  - rewrite F5. constructor.
  - rewrite F7. simpl. apply Forall_app. split.
    + apply Forall_forall. intros b Hb. apply Hok.
      apply list_elem_of_In, in_rev in Hb.
      rewrite Forall_forall in H3. apply H3. by apply list_elem_of_In.
    + eapply Forall_impl; [exact H4|]. done.
Qed.

Lemma new_context_well_formed (M T : nat) (w h : Z) (bg : Color) :
  1 ≤ M → 1 ≤ T → well_formed (new_context M T w h bg).
Proof. intros HM HT. split; simpl; done || constructor. Qed.

Lemma save_well_formed (c : Context) : well_formed c → well_formed (save c).
Proof. intros [? ? ? ?]. by split. Qed.

Lemma restore_well_formed (c c' : Context) :
  well_formed c → restore c = Some c' → well_formed c'.
Proof.
  intros [? ? ? ?] Hr. unfold restore in Hr.
  destruct (MatrixStack.restore (_stack c)); [|done].
  destruct (StateStack.restore (_state c)); [|done].
  simpl in Hr. injection Hr as <-. by split.
Qed.

Lemma mutate_well_formed `{Trig} (c : Context) (op : Mutation) :
  well_formed c → well_formed (mutate c op).
Proof. intros [? ? ? ?]. destruct op; by split. Qed.

Lemma updateFromGraphic_twice (tm : TextureManager) (g : Graphic) :
  TextureManager.updateFromGraphic (TextureManager.updateFromGraphic tm g).2 g
  = TextureManager.updateFromGraphic tm g.
Proof.
  destruct (updateFromGraphic_spec tm g) as [_ Hc]. simpl in Hc.
  destruct (TextureManager.updateFromGraphic tm g) as [t tm'] eqn:Hu. simpl in *.
  destruct (cache tm' !! image_id (getSource g)) as [e|] eqn:He; [|done].
  rewrite (updateFromGraphic_cached tm' g e He). simpl in Hc. congruence.
Qed.

(* ===================================================================== *)
(** ** Batching *)
(* ===================================================================== *)

(** C3. The last batch has room for more commands but already holds
    [maxGPUTextures] distinct textures; a [drawImage] call whose texture is
    not among them is rejected by that batch, which stays as it is, and the
    command becomes the first and only command of a newly opened batch at
    the end of the batch list. *)
Theorem texture_budget_forces_new_batch
        (call : DrawCall) (g : Graphic) (c : Context) (bs : list Batch) (b : Batch) :
  well_formed c →
  graphic call = Some g →
  _batches c = bs ++ [b] →
  length (commands b) < _maxDrawingsPerBatch c →
  length (textures b) = _maxGPUTextures c →
  (TextureManager.updateFromGraphic (_textureManager c) g).1 ∉ textures b →
  let command := (make_command g call c).1 in
  (Batch.maybeAdd (_textureManager c) command b).1 = (false, b)
  ∧ ∃ newBatch,
      _batches (drawImage call c) = bs ++ [b; newBatch]
      ∧ commands newBatch = [command]
      ∧ textures newBatch
        = [(TextureManager.updateFromGraphic (_textureManager c) g).1].
Proof.
  intros [_ _ Hbs _] Hg Hc Hlen Htex Hnew command.
  rewrite Hc in Hbs. apply Forall_app in Hbs as [_ Hb].
  rewrite Forall_singleton in Hb. destruct Hb as [_ HT].
  assert (Hrej : Batch.maybeAdd (_textureManager c) command b
                 = (false, b,
                    (TextureManager.updateFromGraphic (_textureManager c) g).2)).
  { pose proof (maybeAdd_rejects_texture (_textureManager c) command b) as Hr.
    simpl in Hr. unfold command in *. rewrite make_command_image in Hr.
    apply Hr. rewrite (register_new _ _ Hnew), length_app. simpl. lia. }
  split; [by rewrite Hrej|].
  rewrite (drawImage_valid call g c Hg). cbv zeta. rewrite Hc, admission_snoc.
  fold command. cbv zeta. rewrite Hrej. simpl.
  eexists. split; [reflexivity|].
  rewrite add_spec. simpl. unfold batch_factory.
  destruct (open_batch_empty (_maxDrawingsPerBatch c) (_maxGPUTextures c)
              (_batchPool c)) as [-> ->].
  unfold command at 2 3. rewrite make_command_image, updateFromGraphic_twice.
  split; done.
Qed.

(** *** The three outcomes of one call *)

(** The last batch accepts the command. *)
Lemma drawImage_accepted (call : DrawCall) (g : Graphic) (c : Context)
      (bs : list Batch) (b : Batch) :
  graphic call = Some g →
  _batches c = bs ++ [b] →
  let u := TextureManager.updateFromGraphic (_textureManager c) g in
  length (Batch.register u.1 (textures b)) ≤ maxTextures b →
  length (commands b) ≠ maxDraws b →
  _batches (drawImage call c)
  = bs ++ [mkBatch (bid b) (maxDraws b) (maxTextures b)
                   (Batch.register u.1 (textures b))
                   (commands b ++ [(make_command g call c).1])]
  ∧ _textureManager (drawImage call c) = u.2
  ∧ _batchPool (drawImage call c) = _batchPool c.
Proof.
  intros Hg Hc u Ht Hn.
  rewrite (drawImage_valid call g c Hg). cbv zeta. rewrite Hc, admission_snoc.
  pose proof (maybeAdd_accepts (_textureManager c) (make_command g call c).1 b) as Ha.
  cbv zeta in Ha. rewrite make_command_image in Ha. cbv zeta.
  rewrite (Ha Ht Hn). done.
Qed.

(** The last batch rejects the command: a batch is taken from the pool. *)
Lemma drawImage_rejected (call : DrawCall) (g : Graphic) (c : Context)
      (bs : list Batch) (b : Batch) :
  graphic call = Some g →
  _batches c = bs ++ [b] →
  let u := TextureManager.updateFromGraphic (_textureManager c) g in
  let o := Pool.get (batch_factory c) Batch.reset (_batchPool c) in
  maxTextures b < length (Batch.register u.1 (textures b))
  ∨ length (commands b) = maxDraws b →
  _batches (drawImage call c)
  = bs ++ [b; mkBatch (bid o.1) (maxDraws o.1) (maxTextures o.1)
                      [u.1] [(make_command g call c).1]]
  ∧ _textureManager (drawImage call c) = u.2
  ∧ _batchPool (drawImage call c) = o.2.
Proof.
  intros Hg Hc u o Hr.
  rewrite (drawImage_valid call g c Hg). cbv zeta. rewrite Hc, admission_snoc.
  assert (Hrej : Batch.maybeAdd (_textureManager c) (make_command g call c).1 b
                 = (false, b, u.2)).
  { destruct Hr as [Hr|Hr].
    - pose proof (maybeAdd_rejects_texture (_textureManager c)
                    (make_command g call c).1 b) as Ha.
      cbv zeta in Ha. rewrite make_command_image in Ha. by apply Ha.
    - pose proof (maybeAdd_rejects_full (_textureManager c)
                    (make_command g call c).1 b) as Ha.
      cbv zeta in Ha. rewrite make_command_image in Ha. by apply Ha. }
  cbv zeta. rewrite Hrej. simpl. rewrite add_spec. simpl.
  rewrite make_command_image. unfold u. rewrite updateFromGraphic_twice.
  fold u. fold o.
  destruct (open_batch_empty (_maxDrawingsPerBatch c) (_maxGPUTextures c)
              (_batchPool c)) as [Hoc Hot].
  unfold batch_factory in o. fold o in Hoc, Hot. rewrite Hoc, Hot. done.
Qed.

(** The first call of a frame opens a batch, which takes the command. *)
Lemma drawImage_first (call : DrawCall) (g : Graphic) (c : Context) :
  well_formed c →
  graphic call = Some g →
  _batches c = [] →
  let u := TextureManager.updateFromGraphic (_textureManager c) g in
  let o := Pool.get (batch_factory c) Batch.reset (_batchPool c) in
  _batches (drawImage call c)
  = [mkBatch (bid o.1) (_maxDrawingsPerBatch c) (_maxGPUTextures c)
             [u.1] [(make_command g call c).1]]
  ∧ _textureManager (drawImage call c) = u.2
  ∧ _batchPool (drawImage call c) = o.2.
Proof.
  intros [HM HT _ Hpool] Hg Hc u o.
  rewrite (drawImage_valid call g c Hg). cbv zeta. rewrite Hc, admission_nil.
  cbv zeta. rewrite admission_snoc. fold o.
  destruct (open_batch_empty (_maxDrawingsPerBatch c) (_maxGPUTextures c)
              (_batchPool c)) as [Hoc Hot].
  destruct (open_batch_limits (_maxDrawingsPerBatch c) (_maxGPUTextures c)
              (_batchPool c) Hpool) as [[Hl1 Hl2] _].
  unfold batch_factory in o. fold o in Hoc, Hot, Hl1, Hl2.
  pose proof (maybeAdd_accepts (_textureManager c) (make_command g call c).1 o.1) as Ha.
  cbv zeta in Ha. rewrite make_command_image in Ha. cbv zeta.
  rewrite Ha.
  - simpl. rewrite Hoc, Hot, Hl1, Hl2. done.
  - rewrite Hot, Hl2. simpl. done.
  - rewrite Hoc, Hl1. simpl. lia.
Qed.

(** *** One batch is enough *)

Lemma call_images_cons (call : DrawCall) (g : Graphic) (calls : list DrawCall) :
  graphic call = Some g →
  call_images (call :: calls) = image_id (getSource g) :: call_images calls.
Proof. intros Hg. unfold call_images. csimpl. by rewrite Hg. Qed.

Lemma handles_of_mono (tm tm' : TextureManager) (ids : list nat) (t : WebGLTexture) :
  (∀ i e, cache tm !! i = Some e → cache tm' !! i = Some e) →
  t ∈ handles_of tm ids → t ∈ handles_of tm' ids.
Proof.
  intros Hmono. rewrite !elem_of_handles_of. intros (i & Hi & Ht).
  exists i. split; [done|].
  destruct (cache tm !! i) as [e|] eqn:He; [|done].
  by rewrite (Hmono i e He).
Qed.

(** While the single open batch has room for the remaining calls and the
    images of the calls are among [ids], no more numerous than the texture
    units, every call is accepted by that batch. *)
Lemma run_single_batch (ids : list nat) (calls : list DrawCall) :
  ∀ (c : Context) (b : Batch),
    _batches c = [b] → batch_ok c b →
    NoDup (textures b) →
    (∀ t, t ∈ textures b → t ∈ handles_of (_textureManager c) ids) →
    (∀ i, i ∈ call_images calls → i ∈ ids) →
    Forall valid calls →
    length (commands b) + length calls ≤ _maxDrawingsPerBatch c →
    length ids ≤ _maxGPUTextures c →
    ∃ b', _batches (run calls c) = [b'].
Proof.
  induction calls as [|call calls IH]; intros c b Hc Hok Hnd Hsub Hids Hval Hlen Htex.
  - by exists b.
  - apply Forall_cons in Hval as [[g Hg] Hval]. rewrite run_cons.
    rewrite (call_images_cons call g calls Hg) in Hids.
    destruct Hok as [HM HT]. simpl in Hlen.
    destruct (updateFromGraphic_spec (_textureManager c) g) as [Hmono Hcached].
    cbv zeta in Hmono, Hcached.
    set (u := TextureManager.updateFromGraphic (_textureManager c) g) in *.
    assert (Hsub' : ∀ t, t ∈ Batch.register u.1 (textures b) →
                         t ∈ handles_of u.2 ids).
    { intros t Ht. apply elem_of_register in Ht as [Ht| ->].
      - eapply handles_of_mono; [exact Hmono|]. by apply Hsub.
      - apply elem_of_handles_of. exists (image_id (getSource g)).
        split; [|done]. apply Hids. by left. }
    pose proof (register_NoDup u.1 (textures b) Hnd) as Hnd'.
    pose proof (distinct_textures_bound u.2 ids _ Hnd' Hsub') as Hbound.
    destruct (drawImage_accepted call g c [] b Hg Hc) as (Hb & Htm & _).
    { fold u. lia. }
    { lia. }
    destruct (drawImage_frame call c) as (HM' & HT' & _).
    eapply IH.
    + exact Hb.
    + split; simpl; congruence.
    + exact Hnd'.
    + rewrite Htm. exact Hsub'.
    + intros i Hi. apply Hids. by right.
    + exact Hval.
    + simpl. rewrite length_app, HM'. simpl. lia.
    + by rewrite HT'.
Qed.

(** C1, as amended. At least one and at most [maxDrawingsPerBatch] calls
    with drawables, on at most [maxGPUTextures] distinct textures, made on
    an empty batch list leave exactly one batch, which holds the commands of
    all the calls in submission order. *)
Theorem one_batch_for_a_small_frame (calls : list DrawCall) (c : Context) :
  well_formed c →
  _batches c = [] →
  calls ≠ [] →
  Forall valid calls →
  length calls ≤ _maxDrawingsPerBatch c →
  length (remove_dups (call_images calls)) ≤ _maxGPUTextures c →
  ∃ b, _batches (run calls c) = [b]
       ∧ commands b = submitted calls c
       ∧ length (commands b) = length calls.
Proof.
  intros Hwf Hnil Hne Hval Hlen Htex.
  assert (∃ b, _batches (run calls c) = [b]) as [b Hb].
  { destruct calls as [|call calls]; [done|]. clear Hne.
    pose proof Hval as Hval'.
    apply Forall_cons in Hval' as [[g Hg] Hrest]. rewrite run_cons.
    destruct (drawImage_first call g c Hwf Hg Hnil) as (Hb & Htm & _).
    destruct (drawImage_frame call c) as (HM' & HT' & _).
    destruct (updateFromGraphic_spec (_textureManager c) g) as [_ Hcached].
    cbv zeta in Hcached.
    eapply (run_single_batch (remove_dups (call_images (call :: calls)))).
    - exact Hb.
    - split; simpl; congruence.
    - simpl. apply NoDup_singleton.
    - intros t Ht. cbn [textures] in Ht. apply list_elem_of_singleton in Ht as ->.
      rewrite Htm. apply elem_of_handles_of.
      exists (image_id (getSource g)). split; [|done].
      rewrite elem_of_remove_dups, (call_images_cons call g calls Hg).
      by left.
    - intros i Hi.
      rewrite elem_of_remove_dups, (call_images_cons call g calls Hg). by right.
    - exact Hrest.
    - simpl in *. rewrite HM'. lia.
    - by rewrite HT'. }
  exists b. destruct (run_queued calls c) as (Hq & _).
  unfold queued in Hq. rewrite Hb, Hnil in Hq. simpl in Hq.
  rewrite app_nil_r in Hq. split; [done|]. split; [done|].
  rewrite Hq, submitted_length.
  clear -Hval. induction Hval as [|call calls [g Hg] _ IH]; [done|].
  csimpl. rewrite Hg. simpl. by rewrite IH.
Qed.

(** *** Full batches on one texture *)

Lemma ceil_div_unique (n m q : nat) :
  m * q < n → n ≤ m * (q + 1) → ceil_div n m = (Z.of_nat q + 1)%Z.
Proof.
  intros Hlo Hhi. assert (0 < m) as Hm by nia.
  unfold ceil_div, Qceiling, Qfloor. simpl.
  replace (Z.pos (Pos.of_nat m)) with (Z.of_nat m)
    by (rewrite <- positive_nat_Z, Nat2Pos.id; lia).
  assert (((- Z.of_nat n) `div` Z.of_nat m = - (Z.of_nat q + 1))%Z) as ->; [|lia].
  symmetry. apply (Z.div_unique_pos _ _ _ (Z.of_nat m * (Z.of_nat q + 1) - Z.of_nat n)%Z);
    nia.
Qed.

Lemma queued_chunks (M : nat) (full : list Batch) (lastBatch : Batch) :
  Forall (fun b => length (commands b) = M) full →
  length (mjoin (commands <$> (full ++ [lastBatch])))
  = M * length full + length (commands lastBatch).
Proof.
  intros Hfull. rewrite join_commands_snoc, length_app. f_equal.
  induction Hfull as [|b full Hb _ IH]; [simpl; lia|].
  csimpl. rewrite length_app, IH, Hb. simpl. lia.
Qed.

Lemma chunked_first (i : nat) (call : DrawCall) (c : Context) :
  well_formed c → _batches c = [] → uses_image i call →
  chunked i (drawImage call c).
Proof.
  intros Hwf Hnil (g & Hg & Hi).
  destruct (drawImage_first call g c Hwf Hg Hnil) as (Hb & Htm & _).
  destruct (drawImage_frame call c) as (HM & _).
  destruct (updateFromGraphic_spec (_textureManager c) g) as [_ Hcached].
  cbv zeta in Hcached. rewrite Hi in Hcached.
  destruct (cache _ !! i) as [e|] eqn:He; [|done]. simpl in Hcached.
  eexists [], _, e. split; [exact Hb|]. rewrite HM, Htm. simpl.
  destruct Hwf as [? _ _ _].
  split; [constructor|]. split; [lia|]. split; [congruence|done].
Qed.

Lemma chunked_step (i : nat) (call : DrawCall) (c : Context) :
  well_formed c → chunked i c → uses_image i call →
  chunked i (drawImage call c).
Proof.
  intros Hwf (full & lastBatch & e & Hc & Hfull & Hlen & Htex & He) (g & Hg & Hi).
  destruct (drawImage_frame call c) as (HM & _).
  pose proof Hwf as [_ HT Hbs Hpool].
  rewrite Hc in Hbs. apply Forall_app in Hbs as [_ Hok].
  rewrite Forall_singleton in Hok. destruct Hok as [Hok1 Hok2].
  rewrite <- Hi in He.
  pose proof (updateFromGraphic_cached (_textureManager c) g e He) as Hu.
  destruct (decide (length (commands lastBatch) = _maxDrawingsPerBatch c)) as [Hfullb|Hroom].
  - destruct (drawImage_rejected call g c full lastBatch Hg Hc) as (Hb & Htm & _).
    { right. congruence. }
    rewrite Hu in Hb, Htm. simpl in Hb, Htm.
    eexists (full ++ [lastBatch]), _, e. rewrite HM, Htm, Hi in *.
    split; [by rewrite Hb, <- app_assoc|].
    split; [apply Forall_app; split; [done|by apply Forall_singleton]|].
    simpl. split; [lia|]. done.
  - destruct (drawImage_accepted call g c full lastBatch Hg Hc) as (Hb & Htm & _).
    { rewrite Hu, Htex. simpl. rewrite register_old by (by left). simpl. lia. }
    { congruence. }
    rewrite Hu in Hb, Htm. simpl in Hb, Htm.
    eexists full, _, e. rewrite HM, Htm, Hi in *.
    split; [exact Hb|]. split; [done|]. simpl.
    rewrite Htex, register_old by (by left). rewrite length_app. simpl.
    split; [lia|]. done.
Qed.

Lemma chunked_run (i : nat) (calls : list DrawCall) (c : Context) :
  well_formed c → chunked i c → Forall (uses_image i) calls →
  chunked i (run calls c).
Proof.
  revert c. induction calls as [|call calls IH]; intros c Hwf Hch Hcalls; [done|].
  apply Forall_cons in Hcalls as [Hcall Hcalls]. rewrite run_cons.
  apply IH; [by apply drawImage_well_formed|by apply chunked_step|done].
Qed.

(** C2. More than [maxDrawingsPerBatch] calls, all on one texture, made on
    an empty batch list: the batch list then has exactly
    [ceil(N / maxDrawingsPerBatch)] batches, no batch holds more than
    [maxDrawingsPerBatch] commands, and the command lists of the batches,
    concatenated in batch order, are the commands in submission order. *)
Theorem batches_of_a_long_frame (i : nat) (calls : list DrawCall) (c : Context) :
  well_formed c →
  _batches c = [] →
  Forall (uses_image i) calls →
  _maxDrawingsPerBatch c < length calls →
  let frame := run calls c in
  Z.of_nat (length (_batches frame))
  = ceil_div (length calls) (_maxDrawingsPerBatch c)
  ∧ Forall (fun b => length (commands b) ≤ _maxDrawingsPerBatch c) (_batches frame)
  ∧ mjoin (commands <$> _batches frame) = submitted calls c
  ∧ length (submitted calls c) = length calls.
Proof.
  intros Hwf Hnil Hcalls HN frame.
  assert (Hq : queued frame = submitted calls c).
  { destruct (run_queued calls c) as (Hq & _). unfold frame. rewrite Hq.
    unfold queued. by rewrite Hnil. }
  assert (Hn : length (submitted calls c) = length calls).
  { rewrite submitted_length. clear -Hcalls.
    induction Hcalls as [|call calls (g & Hg & _) _ IH]; [done|].
    csimpl. rewrite Hg. simpl. by rewrite IH. }
  assert (Hch : chunked i frame).
  { destruct calls as [|call calls]; [simpl in HN; lia|].
    apply Forall_cons in Hcalls as [Hcall Hcalls].
    unfold frame. rewrite run_cons.
    apply chunked_run; [by apply drawImage_well_formed| |done].
    by apply chunked_first. }
  destruct Hch as (full & lastBatch & e & Hc & Hfull & Hlen & _).
  destruct (run_frame calls c) as (HM & _). fold frame in HM. rewrite HM in *.
  pose proof (queued_chunks _ full lastBatch Hfull) as Hsum.
  unfold queued in Hq. rewrite Hc in Hq. rewrite Hq, Hn in Hsum.
  rewrite Hc. split.
  - rewrite length_app. simpl length.
    rewrite (ceil_div_unique _ _ (length full)); lia.
  - split; [|by rewrite Hq].
    apply Forall_app. split.
    + eapply Forall_impl; [exact Hfull|]. simpl. lia.
    + apply Forall_singleton. lia.
Qed.

(* ===================================================================== *)
(** ** The vertex buffer *)
(* ===================================================================== *)

Lemma foldl_store_index (vals : list Q) (verts : list Q) (idx : nat) :
  (foldl store (verts, idx) vals).2 = idx + length vals.
Proof.
  revert verts idx. induction vals as [|v vals IH]; intros verts idx; simpl.
  - lia.
  - unfold store at 2. simpl. rewrite IH. lia.
Qed.

Lemma foldl_store_length (vals : list Q) (verts : list Q) (idx : nat) :
  length (foldl store (verts, idx) vals).1 = length verts.
Proof.
  revert verts idx. induction vals as [|v vals IH]; intros verts idx; simpl.
  - done.
  - unfold store at 2. simpl. by rewrite IH, length_insert.
Qed.

(** Stores past the end of the buffer are dropped; the others land at
    consecutive indices. *)
Lemma foldl_store_lookup (vals : list Q) (verts : list Q) (idx j : nat) :
  (foldl store (verts, idx) vals).1 !! j
  = if decide (idx ≤ j < idx + length vals ∧ j < length verts)
    then vals !! (j - idx) else verts !! j.
Proof.
  revert verts idx. induction vals as [|v vals IH]; intros verts idx.
  - simpl. case_decide; [lia|done].
  - simpl. unfold store at 2. simpl. rewrite IH, length_insert.
    destruct (decide (j = idx)) as [->|Hne].
    + rewrite Nat.sub_diag. simpl.
      case_decide; [lia|]. case_decide.
      * apply list_lookup_insert_eq. lia.
      * rewrite list_insert_ge; [done|lia].
    + rewrite list_lookup_insert_ne by done.
      case_decide; case_decide; try lia; try done.
      replace (j - idx) with (S (j - S idx)) by lia. done.
Qed.

Lemma command_data_length (tm : TextureManager) (batch : Batch) (tid : Z)
      (command : DrawImageCommand) :
  length (command_data tm batch tid command) = 42.
Proof. unfold command_data. by destruct (view command) as [[[? ?] ?] ?]. Qed.

Lemma packed_data_cons (tm : TextureManager) (batch : Batch) (tid : Z)
      (command : DrawImageCommand) (cmds : list DrawImageCommand) :
  packed_data tm batch tid (command :: cmds)
  = command_data tm batch tid command
    ++ packed_data tm batch (next_textureId tm batch tid command) cmds.
Proof. done. Qed.

Lemma packed_data_length (tm : TextureManager) (batch : Batch) (tid : Z)
      (cmds : list DrawImageCommand) :
  length (packed_data tm batch tid cmds) = 42 * length cmds.
Proof.
  revert tid. induction cmds as [|command cmds IH]; intros tid; [done|].
  rewrite packed_data_cons, length_app, command_data_length, IH.
  cbn [length]. lia.
Qed.

(** One iteration stores the numbers of the command; [snapToPixel] has no
    part in them. *)
Lemma pack_command_eq (tm : TextureManager) (snap : bool) (batch : Batch)
      (verts : list Q) (idx : nat) (tid : Z) (command : DrawImageCommand) :
  pack_command tm snap batch (verts, idx, tid) command
  = ((foldl store (verts, idx) (command_data tm batch tid command)).1,
     idx + 42,
     next_textureId tm batch tid command).
Proof.
  unfold pack_command, command_data, texture_width, texture_height.
  destruct (view command) as [[[sx sy] sw] sh].
  match goal with |- context [foldl store ?s ?l] =>
    pose proof (foldl_store_index l verts idx) as Hi;
    destruct (foldl store s l) as [verts' idx'] end.
  simpl in Hi. by rewrite Hi.
Qed.

Lemma foldl_pack_command (tm : TextureManager) (snap : bool) (batch : Batch)
      (cmds : list DrawImageCommand) (verts : list Q) (idx : nat) (tid : Z) :
  foldl (pack_command tm snap batch) (verts, idx, tid) cmds
  = ((foldl store (verts, idx) (packed_data tm batch tid cmds)).1,
     idx + 42 * length cmds,
     foldl (next_textureId tm batch) tid cmds).
Proof.
  revert verts idx tid. induction cmds as [|command cmds IH]; intros verts idx tid.
  - cbn [foldl packed_data length fst]. by rewrite Nat.mul_0_r, Nat.add_0_r.
  - change (foldl (pack_command tm snap batch) (verts, idx, tid) (command :: cmds))
      with (foldl (pack_command tm snap batch)
                  (pack_command tm snap batch (verts, idx, tid) command) cmds).
    rewrite pack_command_eq, IH, packed_data_cons, foldl_app.
    pose proof (foldl_store_index (command_data tm batch tid command) verts idx) as Hi.
    rewrite command_data_length in Hi.
    destruct (foldl store (verts, idx) (command_data tm batch tid command))
      as [verts' idx']. cbn [fst snd] in *. subst idx'.
    cbn [foldl length]. f_equal. f_equal. lia.
Qed.

Lemma packed_data_lookup (tm : TextureManager) (batch : Batch)
      (cmds : list DrawImageCommand) (tid : Z) (i k : nat) (command : DrawImageCommand) :
  cmds !! i = Some command → k < 42 →
  packed_data tm batch tid cmds !! (42 * i + k)
  = command_data tm batch (foldl (next_textureId tm batch) tid (take i cmds)) command !! k.
Proof.
  revert tid i. induction cmds as [|c0 cmds IH]; intros tid i Hi Hk; [done|].
  rewrite packed_data_cons. destruct i as [|i].
  - injection Hi as ->. rewrite Nat.mul_0_r, Nat.add_0_l.
    cbn [take foldl]. apply lookup_app_l. by rewrite command_data_length.
  - change ((c0 :: cmds) !! S i) with (cmds !! i) in Hi.
    rewrite lookup_app_r; rewrite command_data_length; [|lia].
    replace (42 * S i + k - 42) with (42 * i + k) by lia.
    rewrite (IH _ i Hi Hk). done.
Qed.

(** The buffer after [_updateVertexBufferData(batch)], at the [k]-th number
    of the [i]-th command. *)
Lemma updateVertexBufferData_lookup (c : Context) (batch : Batch) (i k : nat)
      (command : DrawImageCommand) :
  commands batch !! i = Some command → k < 42 →
  42 * (i + 1) ≤ length (_verts c) →
  _verts (_updateVertexBufferData batch c) !! (42 * i + k)
  = command_data (_textureManager c) batch
      (foldl (next_textureId (_textureManager c) batch) 0%Z (take i (commands batch)))
      command !! k.
Proof.
  intros Hi Hk Hlen.
  rewrite updateVertexBufferData_eq, foldl_pack_command.
  cbn [fst snd set_verts _verts].
  rewrite foldl_store_lookup, packed_data_length.
  pose proof (lookup_lt_Some _ _ _ Hi) as Hlt.
  rewrite decide_True by lia.
  rewrite Nat.sub_0_r. by apply packed_data_lookup.
Qed.

(** [snapToPixel] does not reach the buffer. *)
Lemma updateVertexBufferData_ignores_snapToPixel (c : Context) (batch : Batch) :
  _verts (_updateVertexBufferData batch (set_snapToPixel true c))
  = _verts (_updateVertexBufferData batch (set_snapToPixel false c)).
Proof. rewrite !updateVertexBufferData_eq, !foldl_pack_command. done. Qed.

(** The [off]-th number of vertex [v] of the [i]-th command. *)
Lemma written_at (c : Context) (batch : Batch) (i v off : nat)
      (command : DrawImageCommand) :
  commands batch !! i = Some command → v < 6 → off < 7 →
  42 * (i + 1) ≤ length (_verts c) →
  _verts (_updateVertexBufferData batch c) !! (42 * i + 7 * v + off)
  = command_data (_textureManager c) batch
      (foldl (next_textureId (_textureManager c) batch) 0%Z (take i (commands batch)))
      command !! (7 * v + off).
Proof.
  intros Hi Hv Hoff Hlen. rewrite <- Nat.add_assoc.
  apply updateVertexBufferData_lookup; [done|lia|done].
Qed.

(** *** Padding to a power of two *)

Lemma ensurePowerOfTwo_spec (x : Q) :
  ∃ k : Z, (0 ≤ k)%Z
    ∧ ensurePowerOfTwo x = inject_Z (2 ^ k)
    ∧ (x <= ensurePowerOfTwo x)%Q
    ∧ ∀ j : Z, (0 ≤ j)%Z → (x <= inject_Z (2 ^ j))%Q → (2 ^ k ≤ 2 ^ j)%Z.
Proof.
  exists (Z.log2_up (Qceiling x)). unfold ensurePowerOfTwo.
  split; [apply Z.log2_up_nonneg|]. split; [done|]. split.
  - apply Qle_trans with (inject_Z (Qceiling x)); [apply Qle_ceiling|].
    rewrite <- Zle_Qle.
    destruct (Z_lt_le_dec 1 (Qceiling x)) as [Hgt|Hle].
    + apply Z.log2_up_spec. done.
    + rewrite Z.log2_up_eqn0 by done. simpl. lia.
  - intros j Hj Hx. apply Z.pow_le_mono_r; [lia|].
    destruct (Z_lt_le_dec 0 (Qceiling x)) as [Hpos|Hnpos].
    + apply Z.log2_up_le_pow2; [done|].
      assert (Hc : (inject_Z (Qceiling x) <= inject_Z (2 ^ j))%Q).
      { rewrite <- (Qceiling_Z (2 ^ j)). rewrite <- Zle_Qle.
        apply Qceiling_resp_le. done. }
      by rewrite <- Zle_Qle in Hc.
    + rewrite Z.log2_up_nonpos by done. done.
Qed.

(** C9. For every command packed by [_updateVertexBufferData], the texture
    coordinates stored for its six vertices are the corners of the source
    rectangle divided by the dimensions of the texture padded to the next
    power of two (for a backing image of non-zero size, the padded size of
    that image), not by the raw dimensions. *)
Theorem uv_divided_by_padded_dimensions
        (c : Context) (batch : Batch) (i : nat) (command : DrawImageCommand) :
  commands batch !! i = Some command →
  42 * (i + 1) ≤ length (_verts c) →
  let verts := _verts (_updateVertexBufferData batch c) in
  let w := ensurePowerOfTwo (texture_width command) in
  let h := ensurePowerOfTwo (texture_height command) in
  let u0 := ((view command).1.1.1 / w)%Q in
  let v0 := ((view command).1.1.2 / h)%Q in
  let u1 := (((view command).1.1.1 + (view command).1.2) / w)%Q in
  let v1 := (((view command).1.1.2 + (view command).2) / h)%Q in
  written_uv verts i <$> [0; 1; 2; 3; 4; 5]
  = Some <$> [(u0, v0); (u0, v1); (u1, v0); (u1, v0); (u0, v1); (u1, v1)]
  ∧ (width (getSource (image command)) ≠ 0%Z →
     w = ensurePowerOfTwo (inject_Z (width (getSource (image command)))))
  ∧ (height (getSource (image command)) ≠ 0%Z →
     h = ensurePowerOfTwo (inject_Z (height (getSource (image command))))).
Proof.
  intros Hi Hlen verts w h u0 v0 u1 v1. split; [|split].
  - unfold written_uv, verts. cbn [fmap list_fmap].
    rewrite !(written_at c batch i _ _ command Hi) by (done || lia).
    unfold u0, v0, u1, v1, w, h, command_data.
    destruct (view command) as [[[sx sy] sw] sh]. done.
  - intros Hw. unfold w, texture_width, JS.or_else.
    destruct (Qeq_bool _ 0) eqn:Hz; [|done].
    apply Qeq_bool_eq in Hz. unfold Qeq in Hz. simpl in Hz. lia.
  - intros Hh. unfold h, texture_height, JS.or_else.
    destruct (Qeq_bool _ 0) eqn:Hz; [|done].
    apply Qeq_bool_eq in Hz. unfold Qeq in Hz. simpl in Hz. lia.
Qed.

(** C10. For every command packed by [_updateVertexBufferData] whose image
    has no cached texture, the slot stored for its six vertices is the one
    stored for the command packed just before it in the batch, and 0 when
    it is the first command of the batch. *)
Theorem slot_left_over_without_texture
        (c : Context) (batch : Batch) (i : nat) (command : DrawImageCommand) :
  commands batch !! i = Some command →
  TextureManager.hasWebGLTexture (_textureManager c) (image command) = false →
  42 * (i + 1) ≤ length (_verts c) →
  let verts := _verts (_updateVertexBufferData batch c) in
  ∀ v, v < 6 →
       written_slot verts i v
       = match i with
         | 0 => Some 0%Q
         | S previous => written_slot verts previous v
         end.
Proof.
  intros Hi Hno Hlen verts v Hv. unfold written_slot, verts.
  rewrite (written_at c batch i v 5 command Hi) by (done || lia).
  assert (Hslot : ∀ tid cmd, cmd = cmd →
            command_data (_textureManager c) batch tid cmd !! (7 * v + 5)
            = Some (inject_Z (next_textureId (_textureManager c) batch tid cmd))).
  { intros tid cmd _. unfold command_data.
    destruct (view cmd) as [[[sx sy] sw] sh].
    do 6 (destruct v as [|v]; [done|]). lia. }
  rewrite Hslot by done. unfold next_textureId at 1. rewrite Hno.
  destruct i as [|previous]; [done|].
  destruct (lookup_lt_is_Some_2 (commands batch) previous) as [before Hbefore].
  { apply lookup_lt_Some in Hi. lia. }
  rewrite (written_at c batch previous v 5 before Hbefore) by (done || lia).
  rewrite Hslot by done.
  rewrite (take_S_r _ _ _ Hbefore), foldl_app. done.
Qed.

(* ===================================================================== *)
(** ** The properties on concrete frames *)
(* ===================================================================== *)

Section Concrete.
Import Examples.

Lemma default_context_well_formed : well_formed default_context.
Proof. apply new_context_well_formed; lia. Qed.

Lemma two_per_batch_well_formed : well_formed two_per_batch.
Proof. apply new_context_well_formed; lia. Qed.

Lemma two_textures_well_formed : well_formed two_textures.
Proof. apply new_context_well_formed; lia. Qed.

(** "[maxDrawingsPerBatch=2], one shared texture, 3 draws → batches
    [{cmd1,cmd2}, {cmd3}]". *)
Example scenario_two_per_batch :
  let calls := [draw T1 0 0; draw T1 1 1; draw T1 2 2] in
  ∃ cmd1 cmd2 cmd3,
    submitted calls two_per_batch = [cmd1; cmd2; cmd3]
    ∧ commands <$> _batches (run calls two_per_batch) = [[cmd1; cmd2]; [cmd3]].
Proof. vm_compute. eexists _, _, _. split; reflexivity. Qed.

(** "[maxDrawingsPerBatch=2000], [maxGPUTextures=2], 3 draws each on a
    distinct texture T1,T2,T3 → batches [{cmd1(T1),cmd2(T2)}, {cmd3(T3)}]". *)
Example scenario_two_textures :
  let calls := [draw T1 0 0; draw T2 0 0; draw T3 0 0] in
  ∃ cmd1 cmd2 cmd3,
    submitted calls two_textures = [cmd1; cmd2; cmd3]
    ∧ image <$> [cmd1; cmd2; cmd3] = [T1; T2; T3]
    ∧ commands <$> _batches (run calls two_textures) = [[cmd1; cmd2]; [cmd3]].
Proof. vm_compute. eexists _, _, _. repeat split; reflexivity. Qed.

(** Between [save()] and [restore()], on a frame with a quarter turn. *)
Example scenario_save_restore :
  let ops := [Translate 1 2; Rotate 1; SetOpacity (1 # 2); Scale 2 2; SetZ 3] in
  let c := foldl (@mutate quarter_turn) (save default_context) ops in
  transform (_stack c) = mkMatrix 0 2 (-2) 0 1 2
  ∧ get_opacity c = (1 # 2)%Q ∧ get_z c = 3%Q
  ∧ (transform ∘ _stack) <$> restore c = Some Matrix.identity
  ∧ get_opacity <$> restore c = Some 1%Q
  ∧ get_z <$> restore c = Some 0%Q.
Proof. vm_compute. repeat split; reflexivity. Qed.

(** The claim C1 as stated, at a frame without calls: no call, hence at
    most [maxDrawingsPerBatch] calls on at most [maxGPUTextures]
    textures, and the batch list is empty, not a list of one batch. *)
Lemma no_call_no_batch :
  let c := default_context in
  let calls : list DrawCall := [] in
  well_formed c
  ∧ _batches c = []
  ∧ Forall valid calls
  ∧ length calls ≤ _maxDrawingsPerBatch c
  ∧ length (remove_dups (call_images calls)) ≤ _maxGPUTextures c
  ∧ _batches (run calls c) = []
  ∧ ¬ ∃ b, _batches (run calls c) = [b] ∧ commands b = submitted calls c.
Proof.
  split; [exact default_context_well_formed|].
  split; [reflexivity|]. split; [constructor|].
  split; [simpl; lia|]. split; [simpl; lia|].
  split; [reflexivity|]. intros (b & Hb & _). discriminate Hb.
Qed.

Lemma one_batch_for_a_small_frame_witness :
  let calls := [draw T1 0 0; draw T2 0 0] in
  ∃ b, _batches (run calls two_per_batch) = [b]
       ∧ commands b = submitted calls two_per_batch
       ∧ length (commands b) = length calls.
Proof.
  apply one_batch_for_a_small_frame.
  - exact two_per_batch_well_formed.
  - reflexivity.
  - discriminate.
  - repeat constructor; eexists; reflexivity.
  - simpl. lia.
  - vm_compute. lia.
Defined.

Lemma batches_of_a_long_frame_witness :
  let calls := [draw T1 0 0; draw T1 1 1; draw T1 2 2] in
  let frame := run calls two_per_batch in
  Z.of_nat (length (_batches frame)) = ceil_div 3 2
  ∧ Forall (fun b => length (commands b) ≤ 2) (_batches frame)
  ∧ mjoin (commands <$> _batches frame) = submitted calls two_per_batch
  ∧ length (submitted calls two_per_batch) = 3.
Proof.
  apply (batches_of_a_long_frame 1).
  - exact two_per_batch_well_formed.
  - reflexivity.
  - repeat constructor; eexists; split; reflexivity.
  - simpl. lia.
Defined.

Lemma texture_budget_forces_new_batch_witness :
  let c := run [draw T1 0 0; draw T2 0 0] two_textures in
  let call := draw T3 0 0 in
  let command := (make_command T3 call c).1 in
  (Batch.maybeAdd (_textureManager c) command (last_batch c)).1
  = (false, last_batch c)
  ∧ ∃ newBatch,
      _batches (drawImage call c) = [] ++ [last_batch c; newBatch]
      ∧ commands newBatch = [command]
      ∧ textures newBatch
        = [(TextureManager.updateFromGraphic (_textureManager c) T3).1].
Proof.
  apply texture_budget_forces_new_batch.
  - apply run_well_formed. exact two_textures_well_formed.
  - reflexivity.
  - vm_compute. reflexivity.
  - vm_compute. lia.
  - vm_compute. reflexivity.
  - apply (bool_decide_unpack _). vm_compute. exact I.
Defined.

Lemma flush_accounts_for_the_frame_witness :
  let calls := [draw T1 0 0; draw_null; draw T2 0 0; draw T1 1 1] in
  let frame := run calls two_per_batch in
  quads (_diag (flush frame)) = length (submitted calls two_per_batch)
  ∧ length (submitted calls two_per_batch) = length (omap graphic calls)
  ∧ batches (_diag (flush frame)) = length (_batches frame)
  ∧ count_drawArrays (__gl (flush frame))
    = count_drawArrays (__gl two_per_batch) + length (_batches frame)
  ∧ _batches (flush frame) = []
  ∧ (∀ command, command ∈ submitted calls two_per_batch →
                command ∈ free_list (_commandPool (flush frame)))
  ∧ (∀ b, b ∈ _batches frame → b ∈ free_list (_batchPool (flush frame)))
  ∧ Pool.in_use (_commandPool (flush frame)) = Pool.in_use (_commandPool two_per_batch)
  ∧ Pool.in_use (_batchPool (flush frame)) = Pool.in_use (_batchPool two_per_batch).
Proof. apply flush_accounts_for_the_frame. reflexivity. Defined.

Lemma drawImage_without_drawable_witness :
  let c := run [draw T1 0 0] default_context in
  _log (drawImage draw_null c)
  = _log c ++ [Warn "Cannot draw a null or undefined image"; Trace]
  ∧ forget_log (drawImage draw_null c) = forget_log c
  ∧ queued (drawImage draw_null c) = queued c
  ∧ _batches (drawImage draw_null c) = _batches c
  ∧ _commandPool (drawImage draw_null c) = _commandPool c
  ∧ _batchPool (drawImage draw_null c) = _batchPool c
  ∧ ∀ rest, _diag (flush (run rest (drawImage draw_null c)))
            = _diag (flush (run rest c)).
Proof. apply drawImage_without_drawable. reflexivity. Defined.

(** "A 100×37-pixel drawable's UV coordinates are computed against padded
    dimensions 128×64, not 100×37." *)
Lemma uv_of_a_100_by_37_drawable :
  let c := run [draw T1 0 0] two_per_batch in
  let batch := last_batch c in
  let verts := _verts (_updateVertexBufferData batch c) in
  written_uv verts 0 <$> [0; 1; 2; 3; 4; 5]
  = Some <$> [(0 / 128, 0 / 64); (0 / 128, (0 + 37) / 64);
              ((0 + 100) / 128, 0 / 64); ((0 + 100) / 128, 0 / 64);
              (0 / 128, (0 + 37) / 64); ((0 + 100) / 128, (0 + 37) / 64)]%Q
  ∧ ensurePowerOfTwo 100 = 128%Q ∧ ensurePowerOfTwo 37 = 64%Q.
Proof.
  intros c batch verts.
  destruct (uv_divided_by_padded_dimensions c batch 0 (first_command batch))
    as (Huv & Hw & Hh).
  - reflexivity.
  - vm_compute. lia.
  - split; [exact Huv|]. split; reflexivity.
Defined.

Lemma slot_left_over_without_texture_witness :
  let c := set_textureManager knows_image_7 two_per_batch in
  let verts := _verts (_updateVertexBufferData half_textured c) in
  commands half_textured !! 1 = Some (command_on 1 (sprite 9 16 16))
  ∧ TextureManager.hasWebGLTexture knows_image_7 (sprite 9 16 16) = false
  ∧ written_slot verts 1 <$> [0; 1; 2; 3; 4; 5]
    = written_slot verts 0 <$> [0; 1; 2; 3; 4; 5].
Proof.
  intros c verts. split; [reflexivity|]. split; [reflexivity|].
  assert (Hlen : 42 * (1 + 1) ≤ length (_verts c)) by (vm_compute; lia).
  pose proof (slot_left_over_without_texture c half_textured 1
                (command_on 1 (sprite 9 16 16)) eq_refl eq_refl Hlen) as Hslot.
  cbn [fmap list_fmap]. fold verts in Hslot.
  rewrite !Hslot by lia. reflexivity.
Defined.

(** The slot left over is that of the first command: slot 1. *)
Example slot_left_over_is_slot_1 :
  let c := set_textureManager knows_image_7 two_per_batch in
  let verts := _verts (_updateVertexBufferData half_textured c) in
  written_slot verts 0 <$> [0; 1; 2; 3; 4; 5] = Some <$> replicate 6 1%Q
  ∧ written_slot verts 1 <$> [0; 1; 2; 3; 4; 5] = Some <$> replicate 6 1%Q.
Proof. vm_compute. split; reflexivity. Qed.

(** C6. [diag.uniqueTextures] as the code computes it.  Ten draws on nine
    images, the first image drawn again after the texture units ran out:
    the two batches hold 8 and 2 textures, and the counter is 10, the sum,
    where the frame has 9 distinct textures.  Likewise a batch list of two
    batches on one and the same texture counts 2 for 1 distinct texture. *)
Lemma uniqueTextures_counts_repeats :
  let frame := run nine_images default_context in
  let twice := set_batches one_texture_twice default_context in
  (uniqueTextures (_diag (flush frame)) = 10
   ∧ distinct_textures frame = 9
   ∧ (length ∘ textures) <$> _batches frame = [8; 2])
  ∧ (uniqueTextures (_diag (flush twice)) = 2
     ∧ distinct_textures twice = 1).
Proof. vm_compute. repeat split; reflexivity. Qed.

(** C7. [snapToPixel] as the code applies it.  With [snapToPixel] enabled
    (the default), a draw at (1/2, 1/2) stores the coordinates 1/2 and 1/2
    for the first vertex, and so does packing a batch whose command has its
    quad at (1/2, 1/2); they are not integers, and their truncation would
    be 0. *)
Lemma snapToPixel_leaves_fractions :
  let c := flush (run [draw T1 (1 # 2) (1 # 2)] default_context) in
  let packed := _updateVertexBufferData half_pixel_batch default_context in
  snapToPixel default_context = true
  ∧ written_xy (_verts c) 0 0 = Some (1 # 2, 1 # 2)%Q
  ∧ written_xy (_verts packed) 0 0 = Some (1 # 2, 1 # 2)%Q
  ∧ JS.is_integer (1 # 2) = false
  ∧ JS.bitwise_truncate (1 # 2) = 0%Q.
Proof. vm_compute. repeat split; reflexivity. Qed.

End Concrete.

(* ===================================================================== *)
(** ** The GIF resource: bits and stream *)
(* ===================================================================== *)

Section GifStream.
Import Gif.

Lemma bind_unfold {S A B} (m : M S A) (k : A -> M S B) (s : S) :
  (m ≫= k) s = match m s with
               | (Return a, s') => k a s'
               | (Throw e, s') => (Throw e, s')
               end.
Proof. done. Qed.

Lemma bind_return {S A B} (m : M S A) (k : A -> M S B) (s s' : S) (a : A) :
  m s = (Return a, s') → (m ≫= k) s = k a s'.
Proof. intros Hm. by rewrite bind_unfold, Hm. Qed.

Lemma bind_throw {S A B} (m : M S A) (k : A -> M S B) (s s' : S) (e : Error) :
  m s = (Throw e, s') → (m ≫= k) s = (Throw e, s').
Proof. intros Hm. by rewrite bind_unfold, Hm. Qed.

(** *** Bits *)

Lemma to_int32_small (x : Z) : (- 2 ^ 31 ≤ x < 2 ^ 31)%Z → JS.to_int32 x = x.
Proof.
  intros Hx. unfold JS.to_int32.
  destruct (Z_lt_le_dec x 0) as [Hneg|Hpos].
  - replace (x mod 2 ^ 32)%Z with (x + 2 ^ 32)%Z.
    + replace (x + 2 ^ 32 <? 2 ^ 31)%Z with false by (symmetry; apply Z.ltb_ge; lia).
      lia.
    + apply Z.mod_unique with (-1)%Z; lia.
  - rewrite Z.mod_small by lia.
    replace (x <? 2 ^ 31)%Z with true by (symmetry; apply Z.ltb_lt; lia). done.
Qed.

(** Every byte goes through [byteToBitArr] and back through [bitsToNum]
    unchanged, and its bits split as the header and image descriptors
    do. *)
Lemma byte_bits_check :
  forallb (fun n =>
             let b := Z.of_nat n in
             let bits := byteToBitArr b in
             (bitsToNum bits =? b)%Z
             && (length bits =? 8)
             && Bool.eqb (shift bits).1 (128 <=? b)%Z
             && (bitsToNum (splice0 3 (shift bits).2).1 =? (b / 16) mod 8)%Z
             && (bitsToNum (splice0 3 (shift (splice0 3 (shift bits).2).2).2).1
                 =? b mod 8)%Z
             && Bool.eqb (shift (splice0 3 (shift bits).2).2).1 (Z.testbit b 3))
          (seq 0 256) = true.
Proof. vm_compute. reflexivity. Qed.

Lemma byte_bits (b : Z) :
  (0 ≤ b < 256)%Z →
  bitsToNum (byteToBitArr b) = b
  ∧ (shift (byteToBitArr b)).1 = (128 <=? b)%Z
  ∧ bitsToNum (splice0 3 (shift (byteToBitArr b)).2).1 = ((b / 16) mod 8)%Z
  ∧ bitsToNum (splice0 3 (shift (splice0 3 (shift (byteToBitArr b)).2).2).2).1
    = (b mod 8)%Z
  ∧ (shift (splice0 3 (shift (byteToBitArr b)).2).2).1 = Z.testbit b 3.
Proof.
  intros Hb. pose proof byte_bits_check as Hall.
  rewrite forallb_forall in Hall.
  specialize (Hall (Z.to_nat b)). rewrite Z2Nat.id in Hall by lia.
  cbv zeta in Hall.
  assert (Hin : In (Z.to_nat b) (seq 0 256)) by (apply in_seq; lia).
  apply Hall in Hin. rewrite !andb_true_iff in Hin.
  destruct Hin as (((((H1 & _) & H3) & H4) & H5) & H6).
  apply Z.eqb_eq in H1, H4, H5. apply eqb_prop in H3, H6. done.
Qed.


Lemma to_int32_testbit (x i : Z) :
  (0 ≤ i < 32)%Z → Z.testbit (JS.to_int32 x) i = Z.testbit x i.
Proof.
  intros Hi. unfold JS.to_int32.
  assert (Hlow : ∀ y, Z.testbit (y mod 2 ^ 32) i = Z.testbit y i)
    by (intros y; apply Z.mod_pow2_bits_low; lia).
  destruct (_ <? _)%Z.
  - apply Hlow.
  - rewrite <- (Hlow (x mod 2 ^ 32 - 2 ^ 32)%Z), <- (Hlow x).
    f_equal. rewrite Zminus_mod, Z.mod_same, Z.sub_0_r, !Z.mod_mod; lia.
Qed.

Lemma shl_1_small (i : Z) : (0 ≤ i < 31)%Z → shl 1 i = (2 ^ i)%Z.
Proof.
  intros Hi. unfold shl. rewrite (to_int32_small 1) by lia.
  rewrite Z.mod_small by lia. rewrite Z.mul_1_l.
  apply to_int32_small. split.
  - pose proof (Z.pow_pos_nonneg 2 i). lia.
  - apply Z.pow_lt_mono_r; lia.
Qed.

Lemma band_bit (b i : Z) :
  (0 ≤ i < 31)%Z → negb (band b (shl 1 i) =? 0)%Z = Z.testbit b i.
Proof.
  intros Hi. unfold band. rewrite (shl_1_small i Hi).
  rewrite (to_int32_small (2 ^ i)).
  2:{ split; [pose proof (Z.pow_pos_nonneg 2 i); lia|apply Z.pow_lt_mono_r; lia]. }
  rewrite <- (to_int32_testbit b i) by lia.
  set (x := JS.to_int32 b).
  assert (Hland : Z.land x (2 ^ i) = (if Z.testbit x i then 2 ^ i else 0)%Z).
  { apply Z.bits_inj'. intros n Hn. rewrite Z.land_spec, Z.pow2_bits_eqb by lia.
    destruct (Z.eqb_spec i n) as [->|Hne].
    - destruct (Z.testbit x n); [by rewrite Z.pow2_bits_true by lia|].
      by rewrite Z.bits_0.
    - rewrite andb_false_r. destruct (Z.testbit x i); [|by rewrite Z.bits_0].
      rewrite Z.pow2_bits_false by lia. done. }
  rewrite Hland. destruct (Z.testbit x i); [|done].
  pose proof (Z.pow_pos_nonneg 2 i). destruct (Z.eqb_spec (2 ^ i) 0); [lia|done].
Qed.

(** [byteToBitArr] lists the eight low bits, the most significant first. *)
Lemma byteToBitArr_testbit (b : Z) :
  byteToBitArr b = Z.testbit b <$> [7; 6; 5; 4; 3; 2; 1; 0]%Z.
Proof.
  unfold byteToBitArr. cbn [fmap list_fmap].
  rewrite !band_bit by lia. done.
Qed.

(** X1. [bitsToNum(byteToBitArr(b))] gives back the low eight bits of [b]:
    the byte itself when [b] is a byte. *)
Theorem bitsToNum_byteToBitArr (b : Z) :
  bitsToNum (byteToBitArr b) = (b mod 256)%Z.
Proof.
  assert (Hlow : byteToBitArr b = byteToBitArr (b mod 256)).
  { rewrite !byteToBitArr_testbit. cbn [fmap list_fmap].
    change 256%Z with (2 ^ 8)%Z. rewrite !Z.mod_pow2_bits_low by lia. done. }
  rewrite Hlow. apply byte_bits. apply Z.mod_pos_bound. lia.
Qed.

(** *** Stream *)

Lemma byte_value_range (b : Byte.byte) : (0 ≤ byte_value b < 256)%Z.
Proof. unfold byte_value. pose proof (Byte.to_N_bounded b). lia. Qed.

Lemma advance_0 (st : Stream) : Stream.advance 0 st = st.
Proof. destruct st. unfold Stream.advance. simpl. by rewrite Nat.add_0_r. Qed.

Lemma advance_advance (n m : nat) (st : Stream) :
  Stream.advance m (Stream.advance n st) = Stream.advance (n + m) st.
Proof. unfold Stream.advance. simpl. by rewrite Nat.add_assoc. Qed.

Lemma remaining_advance (n : nat) (st : Stream) :
  Stream.remaining (Stream.advance n st) = drop n (Stream.remaining st).
Proof. unfold Stream.remaining, Stream.advance. simpl. by rewrite drop_drop. Qed.

Lemma readByte_next (st : Stream) (b : Byte.byte) (rest : list Byte.byte) :
  Stream.remaining st = b :: rest →
  Stream.readByte st = (Return (byte_value b), Stream.advance 1 st).
Proof.
  unfold Stream.remaining, Stream.readByte, Stream.advance. intros Hr.
  assert (Hb : data st !! position st = Some b).
  { rewrite <- (Nat.add_0_r (position st)), <- lookup_drop, Hr. done. }
  pose proof (lookup_lt_Some _ _ _ Hb) as Hlt.
  replace (length (data st) <=? position st) with false
    by (symmetry; apply Nat.leb_gt; lia).
  rewrite Hb. by rewrite Nat.add_1_r.
Qed.

Lemma readByte_end (st : Stream) :
  Stream.remaining st = [] → Stream.readByte st = (Throw PastEndOfStream, st).
Proof.
  unfold Stream.remaining, Stream.readByte. intros Hr.
  apply (f_equal length) in Hr. rewrite length_drop in Hr. simpl in Hr.
  replace (length (data st) <=? position st) with true
    by (symmetry; apply Nat.leb_le; lia).
  done.
Qed.

Lemma readBytes_from_spec (n : nat) (st : Stream) (acc : list Z) :
  (n ≤ length (Stream.remaining st) →
   Stream.readBytes_from n acc st
   = (Return (acc ++ (byte_value <$> take n (Stream.remaining st))),
      Stream.advance n st))
  ∧ (length (Stream.remaining st) < n →
     Stream.readBytes_from n acc st
     = (Throw PastEndOfStream, Stream.advance (length (Stream.remaining st)) st)).
Proof.
  revert st acc. induction n as [|n IH]; intros st acc.
  - split; [|lia]. intros _. simpl. by rewrite app_nil_r, advance_0.
  - cbn [Stream.readBytes_from].
    destruct (Stream.remaining st) as [|b rest] eqn:Hr.
    + split; [simpl; lia|]. intros _.
      rewrite (bind_throw _ _ _ _ _ (readByte_end st Hr)). simpl.
      by rewrite advance_0.
    + rewrite (bind_return _ _ _ _ _ (readByte_next st b rest Hr)).
      destruct (IH (Stream.advance 1 st) (acc ++ [byte_value b])) as [IH1 IH2].
      rewrite remaining_advance, Hr in IH1, IH2.
      rewrite advance_advance in IH1, IH2. simpl in *. rewrite drop_0 in IH1, IH2.
      split; intros Hn.
      * rewrite IH1 by lia. by rewrite <- app_assoc.
      * rewrite IH2 by lia. done.
Qed.

(** X2. [readBytes(n)] returns the next [n] bytes and moves the cursor past
    them when [n] bytes are left; with fewer left it throws "read past
    end" after consuming what was left. *)
Theorem readBytes_spec (n : nat) (st : Stream) :
  (n ≤ length (Stream.remaining st) →
   Stream.readBytes n st
   = (Return (byte_value <$> take n (Stream.remaining st)), Stream.advance n st))
  ∧ (length (Stream.remaining st) < n →
     Stream.readBytes n st
     = (Throw PastEndOfStream, Stream.advance (length (Stream.remaining st)) st)).
Proof. apply (readBytes_from_spec n st []). Qed.

Lemma fromCharCode_byte (b : Byte.byte) :
  Stream.fromCharCode (byte_value b) = String (Ascii.ascii_of_byte b) EmptyString.
Proof.
  unfold Stream.fromCharCode, byte_value. rewrite N2Z.id.
  by rewrite <- Ascii.ascii_of_byte_via_N.
Qed.

Lemma string_app_cons (x : Ascii.ascii) (a b : string) :
  String x a +:+ b = String x (a +:+ b).
Proof. done. Qed.

Lemma string_app_assoc (a b c : string) : (a +:+ b) +:+ c = a +:+ (b +:+ c).
Proof.
  induction a as [|x a IH]; [done|]. rewrite !string_app_cons. by rewrite IH.
Qed.

Lemma string_app_nil_r (a : string) : a +:+ EmptyString = a.
Proof.
  induction a as [|x a IH]; [done|]. rewrite string_app_cons. by rewrite IH.
Qed.

Lemma read_from_spec (n : nat) (st : Stream) (acc : string) :
  (n ≤ length (Stream.remaining st) →
   Stream.read_from n acc st
   = (Return (acc +:+ Stream.chars (take n (Stream.remaining st))),
      Stream.advance n st))
  ∧ (length (Stream.remaining st) < n →
     Stream.read_from n acc st
     = (Throw PastEndOfStream, Stream.advance (length (Stream.remaining st)) st)).
Proof.
  revert st acc. induction n as [|n IH]; intros st acc.
  - split; [|lia]. intros _. simpl. by rewrite string_app_nil_r, advance_0.
  - cbn [Stream.read_from].
    destruct (Stream.remaining st) as [|b rest] eqn:Hr.
    + split; [simpl; lia|]. intros _.
      rewrite (bind_throw _ _ _ _ _ (readByte_end st Hr)). simpl.
      by rewrite advance_0.
    + rewrite (bind_return _ _ _ _ _ (readByte_next st b rest Hr)).
      destruct (IH (Stream.advance 1 st) (acc +:+ Stream.fromCharCode (byte_value b)))
        as [IH1 IH2].
      rewrite remaining_advance, Hr in IH1, IH2.
      rewrite advance_advance in IH1, IH2. simpl in *. rewrite drop_0 in IH1, IH2.
      split; intros Hn.
      * rewrite IH1 by lia. by rewrite fromCharCode_byte, string_app_assoc.
      * rewrite IH2 by lia. done.
Qed.

Lemma read_spec (n : nat) (st : Stream) :
  (n ≤ length (Stream.remaining st) →
   Stream.read n st
   = (Return (Stream.chars (take n (Stream.remaining st))), Stream.advance n st))
  ∧ (length (Stream.remaining st) < n →
     Stream.read n st
     = (Throw PastEndOfStream, Stream.advance (length (Stream.remaining st)) st)).
Proof. apply (read_from_spec n st EmptyString). Qed.

Lemma shl_8_byte (a : Z) : (0 ≤ a < 256)%Z → shl a 8 = (256 * a)%Z.
Proof.
  intros Ha. unfold shl. rewrite (to_int32_small a) by lia.
  rewrite Z.mod_small by lia. rewrite to_int32_small; lia.
Qed.

Lemma readUnsigned_next (st : Stream) (b0 b1 : Byte.byte) (rest : list Byte.byte) :
  Stream.remaining st = b0 :: b1 :: rest →
  Stream.readUnsigned st
  = (Return (byte_value b0 + 256 * byte_value b1)%Z, Stream.advance 2 st).
Proof.
  intros Hr. pose proof (byte_value_range b0). pose proof (byte_value_range b1).
  unfold Stream.readUnsigned.
  destruct (readBytes_from_spec 2 st []) as [Hok _]. rewrite Hr in Hok.
  fold (Stream.readBytes 2) in Hok.
  rewrite (bind_return _ _ _ _ _ (Hok ltac:(simpl; lia))). simpl.
  rewrite shl_8_byte by done. unfold mret, M_ret, ret. f_equal. f_equal. lia.
Qed.

Lemma readUnsigned_end (st : Stream) :
  length (Stream.remaining st) < 2 →
  Stream.readUnsigned st
  = (Throw PastEndOfStream, Stream.advance (length (Stream.remaining st)) st).
Proof.
  intros Hr. unfold Stream.readUnsigned.
  destruct (readBytes_from_spec 2 st []) as [_ Hend].
  fold (Stream.readBytes 2) in Hend.
  by rewrite (bind_throw _ _ _ _ _ (Hend Hr)).
Qed.

(** X3. [readUnsigned()] reads two bytes as a little-endian number, below
    65536, and moves the cursor past them; with fewer than two bytes left
    it throws "read past end" after consuming what was left. *)
Theorem readUnsigned_little_endian (st : Stream) :
  (∀ b0 b1 rest,
     Stream.remaining st = b0 :: b1 :: rest →
     Stream.readUnsigned st
     = (Return (byte_value b0 + 256 * byte_value b1)%Z, Stream.advance 2 st)
     ∧ (0 ≤ byte_value b0 + 256 * byte_value b1 < 65536)%Z)
  ∧ (length (Stream.remaining st) < 2 →
     Stream.readUnsigned st
     = (Throw PastEndOfStream, Stream.advance (length (Stream.remaining st)) st)).
Proof.
  split; [|apply readUnsigned_end].
  intros b0 b1 rest Hr. split; [by eapply readUnsigned_next|].
  pose proof (byte_value_range b0). pose proof (byte_value_range b1). lia.
Qed.

(** *** Colour tables and sub-blocks *)

Lemma on_stream_return {A} (m : M Stream A) (p : ParseGif) (a : A) (st' : Stream) :
  m (_st p) = (Return a, st') →
  ParseGif.on_stream m p = (Return a, mkParseGif st' (globalColorTable p)).
Proof. intros Hm. unfold ParseGif.on_stream. by rewrite Hm. Qed.

Lemma on_stream_throw {A} (m : M Stream A) (p : ParseGif) (e : Error) (st' : Stream) :
  m (_st p) = (Throw e, st') →
  ParseGif.on_stream m p = (Throw e, mkParseGif st' (globalColorTable p)).
Proof. intros Hm. unfold ParseGif.on_stream. by rewrite Hm. Qed.

Lemma parser_advance_0 (p : ParseGif) : ParseGif.advance 0 p = p.
Proof. destruct p. unfold ParseGif.advance. simpl. by rewrite advance_0. Qed.

Lemma parser_advance_advance (n m : nat) (p : ParseGif) :
  ParseGif.advance m (ParseGif.advance n p) = ParseGif.advance (n + m) p.
Proof. unfold ParseGif.advance. simpl. by rewrite advance_advance. Qed.

Lemma parser_remaining_advance (n : nat) (p : ParseGif) :
  Stream.remaining (_st (ParseGif.advance n p)) = drop n (Stream.remaining (_st p)).
Proof. apply remaining_advance. Qed.

Lemma parser_readByte (p : ParseGif) (b : Byte.byte) (rest : list Byte.byte) :
  Stream.remaining (_st p) = b :: rest →
  ParseGif.on_stream Stream.readByte p = (Return (byte_value b), ParseGif.advance 1 p).
Proof. intros Hr. apply on_stream_return. by eapply readByte_next. Qed.

Lemma parser_readByte_end (p : ParseGif) :
  Stream.remaining (_st p) = [] →
  ParseGif.on_stream Stream.readByte p = (Throw PastEndOfStream, p).
Proof.
  intros Hr. rewrite (on_stream_throw _ _ _ _ (readByte_end _ Hr)). by destruct p.
Qed.

Lemma parser_readBytes (n : nat) (p : ParseGif) :
  n ≤ length (Stream.remaining (_st p)) →
  ParseGif.on_stream (Stream.readBytes n) p
  = (Return (byte_value <$> take n (Stream.remaining (_st p))), ParseGif.advance n p).
Proof.
  intros Hn. apply on_stream_return. by apply (readBytes_from_spec n (_st p) []).
Qed.

Lemma parser_readBytes_end (n : nat) (p : ParseGif) :
  length (Stream.remaining (_st p)) < n →
  ParseGif.on_stream (Stream.readBytes n) p
  = (Throw PastEndOfStream,
     ParseGif.advance (length (Stream.remaining (_st p))) p).
Proof.
  intros Hn. apply on_stream_throw. by apply (readBytes_from_spec n (_st p) []).
Qed.

Lemma parser_read (n : nat) (p : ParseGif) :
  n ≤ length (Stream.remaining (_st p)) →
  ParseGif.on_stream (Stream.read n) p
  = (Return (Stream.chars (take n (Stream.remaining (_st p)))), ParseGif.advance n p).
Proof.
  intros Hn. apply on_stream_return. by apply read_spec.
Qed.

Lemma parser_read_end (n : nat) (p : ParseGif) :
  length (Stream.remaining (_st p)) < n →
  ParseGif.on_stream (Stream.read n) p
  = (Throw PastEndOfStream,
     ParseGif.advance (length (Stream.remaining (_st p))) p).
Proof.
  intros Hn. apply on_stream_throw. by apply read_spec.
Qed.

Lemma parseColorTable_from_spec (n : nat) (p : ParseGif) (acc : list (list Z)) :
  (3 * n ≤ length (Stream.remaining (_st p)) →
   ParseGif.parseColorTable_from n acc p
   = (Return (acc ++ ParseGif.triples n (byte_value <$> Stream.remaining (_st p))),
      ParseGif.advance (3 * n) p))
  ∧ (length (Stream.remaining (_st p)) < 3 * n →
     ParseGif.parseColorTable_from n acc p
     = (Throw PastEndOfStream,
        ParseGif.advance (length (Stream.remaining (_st p))) p)).
Proof.
  revert p acc. induction n as [|n IH]; intros p acc.
  - split; [|lia]. intros _. simpl. by rewrite app_nil_r, parser_advance_0.
  - cbn [ParseGif.parseColorTable_from ParseGif.triples].
    destruct (decide (3 ≤ length (Stream.remaining (_st p)))) as [H3|H3].
    + rewrite (bind_return _ _ _ _ _ (parser_readBytes 3 p H3)).
      destruct (IH (ParseGif.advance 3 p)
                   (acc ++ [byte_value <$> take 3 (Stream.remaining (_st p))]))
        as [IH1 IH2].
      rewrite parser_remaining_advance, length_drop, parser_advance_advance in IH1, IH2.
      split; intros Hn.
      * rewrite IH1 by lia. rewrite <- app_assoc, fmap_take, fmap_drop.
        f_equal. f_equal. lia.
      * rewrite IH2 by lia. f_equal. f_equal. lia.
    + split; intros Hn; [lia|].
      rewrite (bind_throw _ _ _ _ _ (parser_readBytes_end 3 p ltac:(lia))). done.
Qed.

(** X4. [parseColorTable(entries)] reads [entries] colours of three bytes
    each, in order, and moves the cursor past them; when fewer than
    [3 * entries] bytes are left it throws "read past end" after consuming
    what was left.  The global colour table is not touched. *)
Theorem parseColorTable_spec (entries : Z) (p : ParseGif) :
  let n := Z.to_nat entries in
  (3 * n ≤ length (Stream.remaining (_st p)) →
   ParseGif.parseColorTable entries p
   = (Return (ParseGif.triples n (byte_value <$> Stream.remaining (_st p))),
      ParseGif.advance (3 * n) p))
  ∧ (length (Stream.remaining (_st p)) < 3 * n →
     ParseGif.parseColorTable entries p
     = (Throw PastEndOfStream,
        ParseGif.advance (length (Stream.remaining (_st p))) p)).
Proof. apply (parseColorTable_from_spec (Z.to_nat entries) p []). Qed.

Lemma triples_length (n : nat) (l : list Z) : length (ParseGif.triples n l) = n.
Proof. revert l. induction n as [|n IH]; intros l; simpl; [done|]. by rewrite IH. Qed.

Lemma triples_colours (n : nat) (bs : list Byte.byte) (rgb : list Z) :
  3 * n ≤ length bs →
  rgb ∈ ParseGif.triples n (byte_value <$> bs) →
  length rgb = 3 ∧ Forall (fun x => 0 ≤ x < 256)%Z rgb.
Proof.
  revert bs. induction n as [|n IH]; intros bs Hn Hin; simpl in Hin.
  - by apply elem_of_nil in Hin.
  - apply elem_of_cons in Hin as [->|Hin].
    + split.
      * rewrite length_take, length_fmap. lia.
      * rewrite <- fmap_take. apply Forall_fmap, Forall_forall.
        intros b _. apply byte_value_range.
    + rewrite <- fmap_drop in Hin. apply (IH (drop 3 bs)); [|done].
      rewrite length_drop. lia.
Qed.

Lemma chars_app (a b : list Byte.byte) :
  Stream.chars (a ++ b) = Stream.chars a +:+ Stream.chars b.
Proof.
  induction a as [|x a IH]; [done|]. simpl. rewrite string_app_cons. by rewrite IH.
Qed.

Lemma size_byte_value (n : nat) : n < 256 → byte_value (ParseGif.size_byte n) = Z.of_nat n.
Proof.
  intros Hn. unfold ParseGif.size_byte, byte_value.
  destruct (Byte.of_N (N.of_nat n)) as [b|] eqn:Hb.
  - simpl. apply Byte.to_of_N in Hb. lia.
  - apply Byte.of_N_None_iff in Hb. lia.
Qed.

(** The bound on the turns of the loop of [readSubBlocks] is never hit:
    with more turns allowed than bytes are left, one turn more changes
    nothing. *)
Lemma readSubBlocks_loop_fuel (fuel : nat) (p : ParseGif) (acc : string) :
  length (Stream.remaining (_st p)) < fuel →
  ParseGif.readSubBlocks_loop (S fuel) acc p = ParseGif.readSubBlocks_loop fuel acc p.
Proof.
  revert p acc. induction fuel as [|fuel IH]; intros p acc Hlen; [lia|].
  cbn [ParseGif.readSubBlocks_loop].
  destruct (Stream.remaining (_st p)) as [|b rest] eqn:Hr.
  - by rewrite !(bind_throw _ _ _ _ _ (parser_readByte_end p Hr)).
  - rewrite !(bind_return _ _ _ _ _ (parser_readByte p b rest Hr)).
    set (size := Z.to_nat (byte_value b)).
    assert (Hrem : Stream.remaining (_st (ParseGif.advance 1 p)) = rest).
    { rewrite parser_remaining_advance, Hr. done. }
    destruct (decide (size ≤ length rest)) as [Hsize|Hsize].
    + pose proof (parser_read size (ParseGif.advance 1 p)) as Hread.
      rewrite Hrem in Hread. rewrite !(bind_return _ _ _ _ _ (Hread Hsize)).
      destruct (byte_value b =? 0)%Z; [done|].
      apply IH. rewrite parser_remaining_advance, Hrem, length_drop.
      simpl in Hlen. lia.
    + pose proof (parser_read_end size (ParseGif.advance 1 p)) as Hread.
      rewrite Hrem in Hread.
      by rewrite !(bind_throw _ _ _ _ _ (Hread ltac:(lia))).
Qed.

Lemma readSubBlocks_loop_blocks (chunks : list (list Byte.byte)) :
  ∀ (fuel : nat) (p : ParseGif) (acc : string) (rest : list Byte.byte),
    Forall (fun chunk => 0 < length chunk < 256) chunks →
    Stream.remaining (_st p) = ParseGif.sub_blocks chunks ++ rest →
    length chunks < fuel →
    ParseGif.readSubBlocks_loop fuel acc p
    = (Return (acc +:+ Stream.chars (mjoin chunks)),
       ParseGif.advance (length (ParseGif.sub_blocks chunks)) p).
Proof.
  induction chunks as [|chunk chunks IH]; intros fuel p acc rest Hok Hr Hfuel.
  - destruct fuel as [|fuel]; [lia|]. cbn [ParseGif.readSubBlocks_loop].
    unfold ParseGif.sub_blocks in *. simpl in Hr.
    rewrite (bind_return _ _ _ _ _ (parser_readByte p _ _ Hr)).
    change (byte_value Byte.x00) with 0%Z. simpl Z.to_nat.
    rewrite (bind_return _ _ _ _ _ (parser_read 0 _ ltac:(lia))).
    simpl. rewrite parser_advance_advance. simpl.
    by rewrite !string_app_nil_r.
  - destruct fuel as [|fuel]; [lia|]. cbn [ParseGif.readSubBlocks_loop].
    apply Forall_cons in Hok as [Hchunk Hok].
    unfold ParseGif.sub_blocks in Hr. rewrite fmap_cons in Hr. simpl in Hr.
    rewrite (bind_return _ _ _ _ _ (parser_readByte p _ _ Hr)).
    rewrite size_byte_value by lia. rewrite Nat2Z.id.
    assert (Hrem : Stream.remaining (_st (ParseGif.advance 1 p))
                   = chunk ++ ParseGif.sub_blocks chunks ++ rest).
    { rewrite parser_remaining_advance, Hr. simpl.
      unfold ParseGif.sub_blocks. by rewrite <- !app_assoc. }
    pose proof (parser_read (length chunk) (ParseGif.advance 1 p)) as Hread.
    rewrite Hrem in Hread.
    rewrite (bind_return _ _ _ _ _ (Hread ltac:(rewrite length_app; lia))).
    rewrite take_app_length.
    replace (Z.of_nat (length chunk) =? 0)%Z with false
      by (symmetry; apply Z.eqb_neq; lia).
    rewrite parser_advance_advance.
    rewrite (IH fuel _ _ rest Hok).
    + rewrite parser_advance_advance. simpl mjoin. rewrite chars_app, string_app_assoc.
      f_equal. f_equal. unfold ParseGif.sub_blocks. rewrite fmap_cons. simpl.
      rewrite !length_app. simpl. lia.
    + rewrite parser_remaining_advance, Hr.
      replace (1 + length chunk) with (S (length chunk)) by lia.
      simpl. rewrite <- !app_assoc. rewrite drop_app_length.
      unfold ParseGif.sub_blocks. by rewrite <- !app_assoc.
    + simpl in Hfuel. lia.
Qed.

(** X5. On data laid out as sub-blocks (each chunk of 1 to 255 bytes after
    its size byte, then a zero byte) [readSubBlocks()] returns the chunks
    joined together and leaves the cursor just after the zero byte. *)
Theorem readSubBlocks_joins_the_chunks
        (p : ParseGif) (chunks : list (list Byte.byte)) (rest : list Byte.byte) :
  Forall (fun chunk => 0 < length chunk < 256) chunks →
  Stream.remaining (_st p) = ParseGif.sub_blocks chunks ++ rest →
  ParseGif.readSubBlocks p
  = (Return (Stream.chars (mjoin chunks)),
     ParseGif.advance (length (ParseGif.sub_blocks chunks)) p).
Proof.
  intros Hok Hr. unfold ParseGif.readSubBlocks.
  rewrite (readSubBlocks_loop_blocks chunks _ p EmptyString rest Hok Hr); [done|].
  fold (Stream.remaining (_st p)).
  assert (Hlen : length chunks < length (ParseGif.sub_blocks chunks)).
  { unfold ParseGif.sub_blocks. rewrite length_app. simpl.
    assert (length chunks
            ≤ length (mjoin ((fun chunk => ParseGif.size_byte (length chunk) :: chunk)
                               <$> chunks))); [|lia].
    clear. induction chunks as [|c cs IH]; [done|].
    rewrite fmap_cons. change (mjoin (?x :: ?l)) with (x ++ mjoin l).
    rewrite length_app. simpl. lia. }
  assert (length (Stream.remaining (_st p)) = length (data (_st p)) - position (_st p))
    as <- by apply length_drop.
  rewrite Hr, length_app. lia.
Qed.

(** *** The header *)

Lemma parser_readUnsigned (p : ParseGif) (b0 b1 : Byte.byte) (rest : list Byte.byte) :
  Stream.remaining (_st p) = b0 :: b1 :: rest →
  ParseGif.on_stream Stream.readUnsigned p
  = (Return (byte_value b0 + 256 * byte_value b1)%Z, ParseGif.advance 2 p).
Proof. intros Hr. apply on_stream_return. by eapply readUnsigned_next. Qed.

(** X6. [parseHeader()] reads the signature and the version before it
    looks at either: with fewer than six bytes left it throws "read past
    end", whatever they are; with six bytes of which the first three are
    not "GIF" it throws "Not a GIF file." with the cursor six bytes on.
    The version is never checked. *)
Theorem parseHeader_rejects (p : ParseGif) :
  (length (Stream.remaining (_st p)) < 6 →
   ParseGif.parseHeader p
   = (Throw PastEndOfStream,
      ParseGif.advance (length (Stream.remaining (_st p))) p))
  ∧ (6 ≤ length (Stream.remaining (_st p)) →
     Stream.chars (take 3 (Stream.remaining (_st p))) ≠ "GIF" →
     ParseGif.parseHeader p = (Throw NotAGifFile, ParseGif.advance 6 p)).
Proof.
  unfold ParseGif.parseHeader, ParseGif.parseHeader_hdr. split.
  - intros Hlen. rewrite bind_unfold.
    destruct (decide (3 ≤ length (Stream.remaining (_st p)))) as [H3|H3].
    + rewrite (bind_return _ _ _ _ _ (parser_read 3 p H3)).
      pose proof (parser_read_end 3 (ParseGif.advance 3 p)) as Hver.
      rewrite parser_remaining_advance, length_drop in Hver.
      rewrite (bind_throw _ _ _ _ _ (Hver ltac:(lia))).
      rewrite parser_advance_advance. f_equal. f_equal. lia.
    + by rewrite (bind_throw _ _ _ _ _ (parser_read_end 3 p ltac:(lia))).
  - intros Hlen Hsig. rewrite bind_unfold.
    rewrite (bind_return _ _ _ _ _ (parser_read 3 p ltac:(lia))).
    pose proof (parser_read 3 (ParseGif.advance 3 p)) as Hver.
    rewrite parser_remaining_advance, length_drop in Hver.
    rewrite (bind_return _ _ _ _ _ (Hver ltac:(lia))).
    apply String.eqb_neq in Hsig. rewrite Hsig. simpl.
    by rewrite parser_advance_advance.
Qed.

(** X7. On a header that starts with "GIF", [parseHeader()] reads the
    version unchecked, the width and the height as little-endian 16-bit
    numbers, and the packed byte as flag (bit 7), colour resolution (bits
    6-4), sort flag (bit 3) and table size (bits 2-0).  Without the flag
    it stops 13 bytes on and leaves the global colour table alone; with
    the flag it reads [2 ^ (size + 1)] colours into the global colour
    table, or throws "read past end" when they are not all there. *)
Theorem parseHeader_layout
        (p : ParseGif) (v0 v1 v2 w0 w1 h0 h1 packed bg aspect : Byte.byte)
        (rest : list Byte.byte) :
  Stream.remaining (_st p)
  = [Byte.x47; Byte.x49; Byte.x46; v0; v1; v2; w0; w1; h0; h1; packed; bg; aspect]
    ++ rest →
  let size := (byte_value packed mod 8)%Z in
  let n := Z.to_nat (2 ^ (size + 1)) in
  let table := ParseGif.triples n (byte_value <$> rest) in
  let hdr := mkHeader "GIF" (Stream.chars [v0; v1; v2])
                      (byte_value w0 + 256 * byte_value w1)
                      (byte_value h0 + 256 * byte_value h1)
                      (128 <=? byte_value packed)%Z
                      ((byte_value packed / 16) mod 8)
                      (Z.testbit (byte_value packed) 3)
                      size (byte_value bg) (byte_value aspect) in
  ((byte_value packed < 128)%Z →
   ParseGif.parseHeader_hdr p = (Return (hdr []), ParseGif.advance 13 p))
  ∧ ((128 ≤ byte_value packed)%Z → 3 * n ≤ length rest →
     ParseGif.parseHeader_hdr p
     = (Return (hdr table),
        mkParseGif (Stream.advance (13 + 3 * n) (_st p)) table))
  ∧ ((128 ≤ byte_value packed)%Z → length rest < 3 * n →
     ParseGif.parseHeader_hdr p
     = (Throw PastEndOfStream, ParseGif.advance (13 + length rest) p)).
Proof.
  intros Hr size n table hdr.
  pose proof (byte_value_range packed) as Hpacked.
  destruct (byte_bits (byte_value packed) Hpacked) as (_ & Hflag & Hres & Hsize & Hsort).
  assert (Hn : shl 1 (size + 1) = (2 ^ (size + 1))%Z).
  { apply shl_1_small. unfold size.
    pose proof (Z.mod_pos_bound (byte_value packed) 8). lia. }
  assert (Hrest : Stream.remaining (_st (ParseGif.advance 13 p)) = rest).
  { by rewrite parser_remaining_advance, Hr. }
  assert (Hbody : ParseGif.parseHeader_hdr p
    = (if (128 <=? byte_value packed)%Z then
         ct ← ParseGif.parseColorTable (2 ^ (size + 1));
         _ ← ParseGif.set_globalColorTable ct;
         mret (hdr ct)
       else mret (hdr [])) (ParseGif.advance 13 p)).
  { unfold ParseGif.parseHeader_hdr.
    rewrite (bind_return _ _ _ _ _ (parser_read 3 p ltac:(rewrite Hr; simpl; lia))).
    rewrite Hr. cbn [take app].
    pose proof (parser_read 3 (ParseGif.advance 3 p)) as Hver.
    rewrite parser_remaining_advance, Hr in Hver. cbn [drop take app] in Hver.
    rewrite (bind_return _ _ _ _ _ (Hver ltac:(simpl; lia))).
    rewrite parser_advance_advance.
    change (negb (Stream.chars [Byte.x47; Byte.x49; Byte.x46] =? "GIF")%string)
      with false. cbv iota.
    rewrite (bind_return _ _ _ _ _
               (parser_readUnsigned (ParseGif.advance (3 + 3) p) w0 w1
                  (h0 :: h1 :: packed :: bg :: aspect :: rest)
                  ltac:(by rewrite parser_remaining_advance, Hr))).
    rewrite parser_advance_advance.
    rewrite (bind_return _ _ _ _ _
               (parser_readUnsigned (ParseGif.advance (3 + 3 + 2) p) h0 h1
                  (packed :: bg :: aspect :: rest)
                  ltac:(by rewrite parser_remaining_advance, Hr))).
    rewrite parser_advance_advance.
    rewrite (bind_return _ _ _ _ _
               (parser_readByte (ParseGif.advance (3 + 3 + 2 + 2) p) packed
                  (bg :: aspect :: rest)
                  ltac:(by rewrite parser_remaining_advance, Hr))).
    rewrite parser_advance_advance. cbv zeta.
    destruct (shift (byteToBitArr (byte_value packed))) as [flag bits1].
    cbn [fst snd] in Hflag, Hres, Hsize, Hsort.
    destruct (splice0 3 bits1) as [res_bits bits2].
    cbn [fst snd] in Hres, Hsize, Hsort.
    destruct (shift bits2) as [sorted bits3].
    cbn [fst snd] in Hsize, Hsort.
    destruct (splice0 3 bits3) as [size_bits bits4].
    cbn [fst snd] in Hsize.
    subst flag sorted. rewrite Hres, Hsize. fold size. rewrite Hn.
    rewrite (bind_return _ _ _ _ _
               (parser_readByte (ParseGif.advance (3 + 3 + 2 + 2 + 1) p) bg
                  (aspect :: rest)
                  ltac:(by rewrite parser_remaining_advance, Hr))).
    rewrite parser_advance_advance.
    rewrite (bind_return _ _ _ _ _
               (parser_readByte (ParseGif.advance (3 + 3 + 2 + 2 + 1 + 1) p) aspect
                  rest
                  ltac:(by rewrite parser_remaining_advance, Hr))).
    rewrite parser_advance_advance. unfold hdr. done. }
  rewrite Hbody. split; [|split].
  - intros Hlt. replace (128 <=? byte_value packed)%Z with false
      by (symmetry; apply Z.leb_gt; lia). done.
  - intros Hge Hlen. replace (128 <=? byte_value packed)%Z with true
      by (symmetry; apply Z.leb_le; lia).
    destruct (parseColorTable_from_spec n (ParseGif.advance 13 p) []) as [Hok _].
    rewrite Hrest in Hok. fold (ParseGif.parseColorTable (2 ^ (size + 1))) in Hok.
    rewrite (bind_return _ _ _ _ _ (Hok Hlen)). fold table.
    rewrite parser_advance_advance.
    unfold ParseGif.set_globalColorTable, ParseGif.advance. done.
  - intros Hge Hlen. replace (128 <=? byte_value packed)%Z with true
      by (symmetry; apply Z.leb_le; lia).
    destruct (parseColorTable_from_spec n (ParseGif.advance 13 p) []) as [_ Hend].
    rewrite Hrest in Hend. fold (ParseGif.parseColorTable (2 ^ (size + 1))) in Hend.
    rewrite (bind_throw _ _ _ _ _ (Hend Hlen)).
    by rewrite parser_advance_advance.
Qed.

End GifStream.

(* ===================================================================== *)
(** ** The GIF resource: deinterlacing *)
(* ===================================================================== *)

Section GifDeinterlace.
Import Gif.
Context {P : Type}.

(** *** Images as lists of rows *)

Lemma join_uniform_length {A} (w : nat) (R : list (list A)) :
  Forall (fun row => length row = w) R → length (mjoin R) = length R * w.
Proof.
  induction 1 as [|row R Hrow _ IH]; [done|].
  change (mjoin (row :: R)) with (row ++ mjoin R).
  rewrite length_app, IH, Hrow. simpl. lia.
Qed.

Lemma take_join_uniform {A} (w r : nat) (R : list (list A)) :
  Forall (fun row => length row = w) R → take (r * w) (mjoin R) = mjoin (take r R).
Proof.
  intros HR. revert r. induction HR as [|row R Hrow _ IH]; intros r.
  - change (mjoin []) with (@nil A). by rewrite !take_nil.
  - destruct r as [|r]; [done|].
    change (mjoin (row :: R)) with (row ++ mjoin R).
    change (take (S r) (row :: R)) with (row :: take r R).
    change (mjoin (row :: take r R)) with (row ++ mjoin (take r R)).
    replace (S r * w) with (length row + r * w) by (rewrite Hrow; simpl; lia).
    by rewrite take_app_add, IH.
Qed.

Lemma drop_join_uniform {A} (w r : nat) (R : list (list A)) :
  Forall (fun row => length row = w) R → drop (r * w) (mjoin R) = mjoin (drop r R).
Proof.
  intros HR. revert r. induction HR as [|row R Hrow _ IH]; intros r.
  - change (mjoin []) with (@nil A). by rewrite !drop_nil.
  - destruct r as [|r]; [done|].
    change (mjoin (row :: R)) with (row ++ mjoin R).
    change (drop (S r) (row :: R)) with (drop r R).
    replace (S r * w) with (length row + r * w) by (rewrite Hrow; simpl; lia).
    by rewrite drop_app_add, IH.
Qed.

Lemma slice_row (w k : nat) (src : list (list P)) (row : list P) :
  Forall (fun row => length row = w) src → src !! k = Some row →
  slice (k * w) ((k + 1) * w) (mjoin src) = row.
Proof.
  intros Hsrc Hk. unfold slice.
  replace ((k + 1) * w - k * w) with w by lia.
  rewrite (drop_join_uniform w k src Hsrc).
  rewrite (drop_S _ _ _ Hk).
  change (mjoin (row :: drop (S k) src)) with (row ++ mjoin (drop (S k) src)).
  rewrite Forall_forall in Hsrc.
  assert (length row = w) as <-.
  { apply Hsrc. by eapply list_elem_of_lookup_2. }
  by rewrite take_app_length.
Qed.

Lemma splice_row {A} (w r : nat) (X : list A) (D : list (list A)) :
  Forall (fun row => length row = w) D → r < length D →
  splice (r * w) w X (mjoin D) = mjoin (<[r := X]> D).
Proof.
  intros HD Hr. unfold splice.
  replace (r * w + w) with (S r * w) by lia.
  rewrite (take_join_uniform w r D HD), (drop_join_uniform w (S r) D HD).
  rewrite insert_take_drop by done.
  rewrite join_app.
  change (mjoin (X :: drop (S r) D)) with (X ++ mjoin (drop (S r) D)). done.
Qed.

(** Copying a whole stored row onto a whole row of the image. *)
Lemma cpRow_rows (w r k : nat) (src : list (list P)) (D : list (list (option P))) :
  Forall (fun row => length row = w) src →
  Forall (fun row => length row = w) D →
  r < length D → k < length src →
  cpRow (mjoin src) w r k (mjoin D)
  = mjoin (<[r := Some <$> (src !!! k)]> D)
  ∧ Forall (fun row => length row = w) (<[r := Some <$> (src !!! k)]> D).
Proof.
  intros Hsrc HD Hr Hk.
  destruct (lookup_lt_is_Some_2 src k Hk) as [row Hrow].
  rewrite (list_lookup_total_correct _ _ _ Hrow).
  unfold cpRow. cbv zeta. rewrite (slice_row w k src row Hsrc Hrow).
  split; [by apply splice_row|].
  apply Forall_insert; [done|]. rewrite length_fmap.
  rewrite Forall_forall in Hsrc. apply Hsrc. by eapply list_elem_of_lookup_2.
Qed.

Lemma replicate_rows {A} (x : A) (rows w : nat) :
  replicate (rows * w) x = mjoin (replicate rows (replicate w x)).
Proof.
  induction rows as [|rows IH]; [done|].
  change (S rows * w) with (w + rows * w).
  rewrite replicate_add, IH. done.
Qed.

Lemma fmap_join {A B} (g : A → B) (R : list (list A)) :
  mjoin (fmap g <$> R) = g <$> mjoin R.
Proof.
  induction R as [|row R IH]; [done|].
  change (mjoin (row :: R)) with (row ++ mjoin R).
  rewrite fmap_app, <- IH. done.
Qed.

(** *** The rows a pass visits *)

Lemma pass_count (rows offset step : nat) :
  0 < step →
  let n := (rows + step - 1 - offset) / step in
  (∀ j, j < n → offset + j * step < rows) ∧ rows ≤ offset + n * step.
Proof.
  intros Hstep n.
  pose proof (Nat.Div0.mul_div_le (rows + step - 1 - offset) step) as Hlo.
  pose proof (Nat.mul_succ_div_gt (rows + step - 1 - offset) step ltac:(lia)) as Hhi.
  fold n in Hlo, Hhi. split; [intros j Hj|]; nia.
Qed.

Lemma elem_of_pass_rows (rows offset step r : nat) :
  0 < step →
  r ∈ pass_rows rows offset step ↔ ∃ j, r = offset + j * step ∧ r < rows.
Proof.
  intros Hstep. destruct (pass_count rows offset step Hstep) as [Hin Hout].
  unfold pass_rows. rewrite list_elem_of_fmap. split.
  - intros (j & -> & Hj). apply elem_of_seq in Hj. exists j. split; [done|].
    apply Hin. lia.
  - intros (j & -> & Hj). exists j. split; [done|]. apply elem_of_seq. nia.
Qed.

Lemma NoDup_pass_rows (rows offset step : nat) :
  0 < step → NoDup (pass_rows rows offset step).
Proof.
  intros Hstep. apply NoDup_fmap_2_strong; [|apply NoDup_seq].
  intros x y _ _ Heq. nia.
Qed.

Lemma interlace_order_Permutation (rows : nat) :
  interlace_order rows ≡ₚ seq 0 rows.
Proof.
  apply NoDup_Permutation; [|apply NoDup_seq|].
  - unfold interlace_order. rewrite !NoDup_app.
    repeat split; try (apply NoDup_pass_rows; lia);
      intros r Hr; rewrite ?elem_of_app, !elem_of_pass_rows by lia;
      apply elem_of_pass_rows in Hr as (j & -> & _); try lia;
      intros H; decompose [or ex and] H; lia.
  - intros r. unfold interlace_order.
    rewrite !elem_of_app, !elem_of_pass_rows, elem_of_seq by lia. split.
    + intros H; decompose [or ex and] H; lia.
    + intros [_ Hr]. simpl in Hr.
      pose proof (Nat.div_mod_eq r 8) as Hdiv.
      pose proof (Nat.mod_upper_bound r 8 ltac:(lia)) as Hmod.
      set (q := r / 8) in *. set (m := r mod 8) in *.
      assert (m = 0 ∨ m = 1 ∨ m = 2 ∨ m = 3 ∨ m = 4 ∨ m = 5 ∨ m = 6 ∨ m = 7)
        as Hm by lia.
      decompose [or] Hm.
      * left. exists q. lia.
      * do 3 right. exists (4 * q). lia.
      * do 2 right. left. exists (2 * q). lia.
      * do 3 right. exists (4 * q + 1). lia.
      * right. left. exists q. lia.
      * do 3 right. exists (4 * q + 2). lia.
      * do 2 right. left. exists (2 * q + 1). lia.
      * do 3 right. exists (4 * q + 3). lia.
Qed.

Lemma interlace_order_length (rows : nat) : length (interlace_order rows) = rows.
Proof. by rewrite interlace_order_Permutation, length_seq. Qed.

(** *** Copying rows *)

Lemma copy_rows_app {A} (f : nat → A) (ps qs : list (nat * nat)) (D : list A) :
  copy_rows f (ps ++ qs) D = copy_rows f qs (copy_rows f ps D).
Proof. unfold copy_rows. by rewrite foldl_app. Qed.

Lemma copy_rows_length {A} (f : nat → A) (ps : list (nat * nat)) (D : list A) :
  length (copy_rows f ps D) = length D.
Proof.
  revert D. induction ps as [|[k r] ps IH]; intros D; [done|].
  change (copy_rows f ((k, r) :: ps) D) with (copy_rows f ps (<[r := f k]> D)).
  by rewrite IH, length_insert.
Qed.

Lemma copy_rows_lookup_ne {A} (f : nat → A) (ps : list (nat * nat)) (D : list A) r :
  r ∉ ps.*2 → copy_rows f ps D !! r = D !! r.
Proof.
  revert D. induction ps as [|[k r'] ps IH]; intros D Hr; [done|].
  change (copy_rows f ((k, r') :: ps) D) with (copy_rows f ps (<[r' := f k]> D)).
  rewrite fmap_cons, not_elem_of_cons in Hr. destruct Hr as [Hne Hr].
  rewrite IH by done. apply list_lookup_insert_ne. simpl in Hne. congruence.
Qed.

Lemma copy_rows_lookup {A} (f : nat → A) (ps : list (nat * nat)) (D : list A) k r :
  NoDup ps.*2 → (k, r) ∈ ps → r < length D →
  copy_rows f ps D !! r = Some (f k).
Proof.
  revert D. induction ps as [|[k' r'] ps IH]; intros D Hnd Hin Hr.
  - by apply elem_of_nil in Hin.
  - change (copy_rows f ((k', r') :: ps) D) with (copy_rows f ps (<[r' := f k']> D)).
    rewrite fmap_cons, NoDup_cons in Hnd. destruct Hnd as [Hfresh Hnd].
    apply elem_of_cons in Hin as [Heq|Hin].
    + injection Heq as -> ->. rewrite copy_rows_lookup_ne by done.
      by apply list_lookup_insert_eq.
    + apply IH; [done|done|by rewrite length_insert].
Qed.

(** *** The passes *)

Lemma before_rows_uniform (w toRow rows : nat) :
  0 < w → before_rows toRow (rows * w) w = bool_decide (toRow < rows).
Proof.
  intros Hw. unfold before_rows. destruct w as [|w]; [lia|].
  case_bool_decide; [apply Nat.ltb_lt|apply Nat.ltb_ge]; nia.
Qed.

Lemma pass_loop_rows (w step : nat) (src : list (list P)) :
  0 < w → Forall (fun row => length row = w) src →
  ∀ n fuel toRow fromRow (D : list (list (option P))),
    n < fuel →
    (∀ j, j < n → toRow + j * step < length src) →
    length src ≤ toRow + n * step →
    fromRow + n ≤ length src →
    Forall (fun row => length row = w) D → length D = length src →
    ∃ D',
      pass_loop fuel (mjoin src) w step toRow fromRow (mjoin D)
      = Some (mjoin D', fromRow + n)
      ∧ D' = copy_rows (fun k => Some <$> (src !!! k))
               (zip (seq fromRow n) ((fun j => toRow + j * step) <$> seq 0 n)) D
      ∧ Forall (fun row => length row = w) D'.
Proof.
  intros Hw Hsrc n.
  induction n as [|n IH]; intros fuel toRow fromRow D Hfuel Hin Hout Hfrom HD HlenD;
    (destruct fuel as [|fuel]; [lia|]); cbn [pass_loop];
    rewrite (join_uniform_length w src Hsrc), before_rows_uniform by done.
  - rewrite bool_decide_eq_false_2 by lia.
    exists D. rewrite Nat.add_0_r. done.
  - rewrite bool_decide_eq_true_2 by (specialize (Hin 0); lia).
    destruct (cpRow_rows w toRow fromRow src D Hsrc HD) as [-> HD'];
      [specialize (Hin 0); lia|lia|].
    destruct (IH fuel (toRow + step) (S fromRow)
                 (<[toRow := Some <$> (src !!! fromRow)]> D)) as (D' & -> & -> & HD'');
      [lia|intros j Hj; specialize (Hin (S j)); lia|lia|lia|done
      |by rewrite length_insert|].
    eexists. split; [f_equal; f_equal; lia|]. split; [|done].
    change (seq fromRow (S n)) with (fromRow :: seq (S fromRow) n).
    change (seq 0 (S n)) with (0 :: seq 1 n).
    rewrite fmap_cons, <- (fmap_S_seq 0 n), <- list_fmap_compose.
    change (zip (?a :: ?l) (?b :: ?k)) with ((a, b) :: zip l k).
    change (copy_rows ?f ((?k, ?r) :: ?ps) ?D) with (copy_rows f ps (<[r := f k]> D)).
    rewrite Nat.add_0_r. f_equal. f_equal. apply list_fmap_ext. intros _ j _.
    simpl. lia.
Qed.

Lemma pass_rows_pass (w : nat) (src : list (list P)) (offset step fuel fromRow : nat)
      (D : list (list (option P))) :
  0 < w → 0 < step → Forall (fun row => length row = w) src →
  length src < fuel →
  fromRow + length (pass_rows (length src) offset step) ≤ length src →
  Forall (fun row => length row = w) D → length D = length src →
  ∃ D',
    pass_loop fuel (mjoin src) w step offset fromRow (mjoin D)
    = Some (mjoin D', fromRow + length (pass_rows (length src) offset step))
    ∧ D' = copy_rows (fun k => Some <$> (src !!! k))
             (zip (seq fromRow (length (pass_rows (length src) offset step)))
                  (pass_rows (length src) offset step)) D
    ∧ Forall (fun row => length row = w) D'.
Proof.
  intros Hw Hstep Hsrc Hfuel Hfrom HD HlenD.
  destruct (pass_count (length src) offset step Hstep) as [Hin Hout].
  unfold pass_rows in *. rewrite length_fmap, length_seq in *.
  apply pass_loop_rows; try done. lia.
Qed.

Lemma lookup_zip_seq (order : list nat) (k r : nat) :
  order !! k = Some r → (k, r) ∈ zip (seq 0 (length order)) order.
Proof.
  intros Hk. apply list_elem_of_lookup. exists k.
  rewrite lookup_zip_with, lookup_seq_lt by (by eapply lookup_lt_Some).
  by rewrite Hk.
Qed.

Lemma Permutation_by_order {A} `{Inhabited A} (order : list nat) (dst src : list A) :
  order ≡ₚ seq 0 (length src) → length dst = length src →
  (∀ k r, order !! k = Some r → dst !! r = src !! k) →
  dst ≡ₚ src.
Proof.
  intros Hperm Hlen Hrows.
  assert (src = (fun r => dst !!! r) <$> order) as ->.
  { apply list_eq. intros k. rewrite list_lookup_fmap.
    destruct (order !! k) as [r|] eqn:Hk; simpl.
    - rewrite <- (Hrows k r Hk).
      assert (r < length dst) as Hr.
      { rewrite Hlen. apply (elem_of_seq 0). rewrite <- Hperm.
        by eapply list_elem_of_lookup_2. }
      destruct (lookup_lt_is_Some_2 dst r Hr) as [x Hx].
      by rewrite Hx, (list_lookup_total_correct _ _ _ Hx).
    - apply lookup_ge_None. apply lookup_ge_None in Hk.
      rewrite Hperm, length_seq in Hk. done. }
  rewrite length_fmap in Hperm, Hlen. rewrite Hperm, <- Hlen.
  match goal with |- _ ≡ₚ ?l => assert (l = dst) as Heq; [|by rewrite Heq] end.
  apply list_eq. intros r. rewrite list_lookup_fmap.
  destruct (decide (r < length dst)) as [Hr|Hr].
  - rewrite lookup_seq_lt by done. simpl.
    destruct (lookup_lt_is_Some_2 dst r Hr) as [x Hx].
    by rewrite Hx, (list_lookup_total_correct _ _ _ Hx).
  - rewrite lookup_seq_ge by lia. symmetry. apply lookup_ge_None. lia.
Qed.

(** X8.  [deinterlace] puts the rows of an interlaced image back in display
    order.  For pixels that make up whole rows of a positive [width], the
    function returns an array without holes, of the same rows: the [k]-th
    stored row becomes row [interlace_order rows !! k], where the stored
    order is the rows 0, 8, 16, ..., then 4, 12, ..., then 2, 6, ..., then
    1, 3, ...; no row is lost or repeated. *)
Theorem deinterlace_restores_the_rows (fuel width : nat) (src : list (list P)) :
  0 < width → Forall (fun row => length row = width) src → length src < fuel →
  ∃ dst : list (list P),
    deinterlace fuel (mjoin src) width = Some (Some <$> mjoin dst)
    ∧ (∀ k r, interlace_order (length src) !! k = Some r → dst !! r = src !! k)
    ∧ dst ≡ₚ src.
Proof.
  intros Hw Hsrc Hfuel.
  set (f := fun k => Some <$> (src !!! k)).
  pose proof (interlace_order_length (length src)) as Hlen.
  pose proof (interlace_order_Permutation (length src)) as Hperm.
  unfold interlace_order in Hlen. rewrite !length_app in Hlen.
  set (D0 := replicate (length src) (replicate width (@None P))).
  assert (Forall (fun row => length row = width) D0) as HD0.
  { apply Forall_replicate. apply length_replicate. }
  assert (length D0 = (length src)) as HlenD0 by apply length_replicate.
  unfold deinterlace. cbv zeta.
  rewrite (join_uniform_length width src Hsrc).
  rewrite replicate_rows. fold D0.
  cbn [zip zip_with foldl mbind option_bind].
  destruct (pass_rows_pass width src 0 8 fuel 0 D0) as (D1 & -> & HD1 & HU1);
    [done|lia|done|done|lia|done|done|].
  cbn [mbind option_bind].
  destruct (pass_rows_pass width src 4 8 fuel
              (0 + length (pass_rows (length src) 0 8)) D1) as (D2 & -> & HD2 & HU2);
    [done|lia|done|done|lia|done
    |by rewrite HD1, copy_rows_length|].
  cbn [mbind option_bind].
  destruct (pass_rows_pass width src 2 4 fuel
              (0 + length (pass_rows (length src) 0 8) + length (pass_rows (length src) 4 8)) D2)
    as (D3 & -> & HD3 & HU3);
    [done|lia|done|done|lia|done
    |by rewrite HD2, copy_rows_length, HD1, copy_rows_length|].
  cbn [mbind option_bind].
  destruct (pass_rows_pass width src 1 2 fuel
              (0 + length (pass_rows (length src) 0 8) + length (pass_rows (length src) 4 8)
               + length (pass_rows (length src) 2 4)) D3)
    as (D4 & -> & HD4 & HU4);
    [done|lia|done|done|lia|done
    |by rewrite HD3, copy_rows_length, HD2, copy_rows_length, HD1, copy_rows_length|].
  cbn [fmap option_fmap option_map fst].
  fold f in HD1, HD2, HD3, HD4.
  assert (D4 = copy_rows f (zip (seq 0 (length src)) (interlace_order (length src))) D0) as HD.
  { rewrite HD4, HD3, HD2, HD1, <- !copy_rows_app. f_equal.
    etrans; [|exact (f_equal (fun n => zip (seq 0 n) (interlace_order (length src)))
                             Hlen)].
    cbv beta. unfold interlace_order. rewrite !seq_app.
    rewrite !zip_with_app by (by rewrite length_seq).
    by rewrite <- ?app_assoc. }
  assert (length (interlace_order (length src)) = (length src)) as Hlen'
    by apply interlace_order_length.
  assert (NoDup (zip (seq 0 (length src)) (interlace_order (length src))).*2) as Hnd.
  { rewrite snd_zip by (rewrite length_seq; lia).
    rewrite Hperm. apply NoDup_seq. }
  assert (∀ k r, interlace_order (length src) !! k = Some r →
                 (k, r) ∈ zip (seq 0 (length src)) (interlace_order (length src)) ∧ r < (length src)
                 ∧ k < (length src)) as Hpairs.
  { intros k r Hk. split; [|split].
    - rewrite <- Hlen' at 1. by apply lookup_zip_seq.
    - apply (elem_of_seq 0). rewrite <- Hperm. by eapply list_elem_of_lookup_2.
    - rewrite <- Hlen'. by eapply lookup_lt_Some. }
  set (dst := copy_rows (fun k => src !!! k) (zip (seq 0 (length src)) (interlace_order (length src)))
                (replicate (length src) [])).
  assert (∀ k r, interlace_order (length src) !! k = Some r → dst !! r = src !! k) as Hrows.
  { intros k r Hk. destruct (Hpairs k r Hk) as (Hin & Hr & Hk').
    unfold dst. rewrite (copy_rows_lookup _ _ _ k r Hnd Hin)
      by (by rewrite length_replicate).
    destruct (lookup_lt_is_Some_2 src k Hk') as [row Hrow].
    by rewrite Hrow, (list_lookup_total_correct _ _ _ Hrow). }
  exists dst. split; [|split].
  - f_equal. rewrite <- fmap_join. f_equal.
    apply list_eq. intros r. rewrite HD, list_lookup_fmap.
    destruct (decide (r < (length src))) as [Hr|Hr].
    + assert (r ∈ interlace_order (length src)) as Hin.
      { rewrite Hperm. apply elem_of_seq. lia. }
      apply list_elem_of_lookup in Hin as [k Hk].
      destruct (Hpairs k r Hk) as (Hin & _ & Hk').
      rewrite (copy_rows_lookup _ _ _ k r Hnd Hin) by (by rewrite HlenD0).
      rewrite (Hrows k r Hk).
      destruct (lookup_lt_is_Some_2 src k Hk') as [row Hrow].
      unfold f. by rewrite Hrow, (list_lookup_total_correct _ _ _ Hrow).
    + rewrite (proj2 (lookup_ge_None _ _))
        by (rewrite copy_rows_length, HlenD0; lia).
      unfold dst. rewrite (proj2 (lookup_ge_None _ _)); [done|].
      rewrite copy_rows_length, length_replicate. lia.
  - done.
  - apply (Permutation_by_order (interlace_order (length src))); [done| |done].
    unfold dst. by rewrite copy_rows_length, length_replicate.
Qed.

(** X9.  [deinterlace] does not return for a [width] of 0 and at least one
    pixel: [rows] is [Infinity], so the first pass never leaves its loop,
    however many turns it is given. *)
Theorem deinterlace_width_0_diverges (fuel : nat) (pixels : list P) :
  pixels ≠ [] → deinterlace fuel pixels 0 = None.
Proof.
  intros Hne. unfold deinterlace. cbv zeta.
  cbn [zip zip_with foldl mbind option_bind].
  assert (∀ step toRow fromRow newPixels,
             pass_loop fuel pixels 0 step toRow fromRow newPixels = None) as Hloop.
  { induction fuel as [|n IH]; intros step toRow fromRow newPixels; [done|].
    cbn [pass_loop before_rows].
    destruct pixels; [done|]. cbn [length Nat.eqb negb]. apply IH. }
  rewrite Hloop. done.
Qed.

End GifDeinterlace.

(* ===================================================================== *)
(** ** The GIF resource: LZW decoding *)
(* ===================================================================== *)

Section LzwDecoding.
Import Gif Lzw.
Local Open Scope Z_scope.

Lemma pow2_small (i : Z) : 0 ≤ i < 31 → 0 < 2 ^ i < 2 ^ 31.
Proof.
  intros Hi. split; [by apply Z.pow_pos_nonneg; lia|apply Z.pow_lt_mono_r; lia].
Qed.

(** Setting a bit above a number adds its weight. *)
Lemma bor_fresh_bit (code i : Z) :
  0 ≤ i < 31 → 0 ≤ code < 2 ^ i → bor code (shl 1 i) = code + 2 ^ i.
Proof.
  intros Hi Hcode. pose proof (pow2_small i Hi) as Hp.
  unfold bor. rewrite (shl_1_small i Hi).
  rewrite !to_int32_small by lia.
  assert (Z.land code (2 ^ i) = 0) as Hland.
  { apply Z.bits_inj'. intros n Hn. rewrite Z.land_spec, Z.bits_0, Z.pow2_bits_eqb by lia.
    destruct (Z.eqb_spec i n) as [<-|Hne]; [|apply andb_false_r].
    rewrite <- (Z.mod_small code (2 ^ i)) by lia.
    rewrite Z.mod_pow2_bits_high by lia. done. }
  rewrite <- Z.lxor_lor by done. symmetry. by apply Z.add_nocarry_lxor.
Qed.

Lemma bits_value_range (bits : list bool) :
  0 ≤ bits_value bits < 2 ^ Z.of_nat (length bits).
Proof.
  induction bits as [|b bits IH]; [simpl; lia|].
  cbn [bits_value foldr length]. fold (bits_value bits).
  rewrite Nat2Z.inj_succ, Z.pow_succ_r by lia. destruct b; simpl; lia.
Qed.

Lemma readCode_from_spec (data : string) (n : nat) (i code pos : Z) :
  0 ≤ i → i + Z.of_nat n ≤ 31 → 0 ≤ code < 2 ^ i →
  readCode_from data n i code pos
  = (code + 2 ^ i * bits_value ((fun k => bit_at data (pos + Z.of_nat k)) <$> seq 0 n),
     pos + Z.of_nat n).
Proof.
  revert i code pos. induction n as [|n IH]; intros i code pos Hi Hn Hcode.
  - cbn [readCode_from seq fmap list_fmap bits_value foldr]. f_equal; lia.
  - cbn [readCode_from]. cbv zeta.
    set (b := bit_at data pos).
    assert ((if b then bor code (shl 1 i) else code) = code + Z.b2z b * 2 ^ i) as ->.
    { destruct b; [rewrite bor_fresh_bit by lia|]; simpl; lia. }
    rewrite IH.
    + change (seq 0 (S n)) with (0%nat :: seq 1 n).
      rewrite fmap_cons, <- fmap_S_seq, <- list_fmap_compose.
      cbn [bits_value foldr]. rewrite Z.add_0_r. fold b.
      rewrite Z.pow_add_r, Z.pow_1_r by lia.
      assert (((fun k => bit_at data (pos + 1 + Z.of_nat k)) <$> seq 0 n)
              = ((fun k => bit_at data (pos + Z.of_nat k)) ∘ S <$> seq 0 n)) as ->.
      { apply list_fmap_ext. intros _ k _. simpl. f_equal. lia. }
      fold (bits_value ((fun k => bit_at data (pos + Z.of_nat k)) ∘ S <$> seq 0 n)).
      f_equal; lia.
    + lia.
    + lia.
    + rewrite Z.pow_add_r, Z.pow_1_r by lia. destruct b; simpl; lia.
Qed.

(** The bit of the data at position [pos]: bit [pos mod 8] of byte
    [pos / 8]. *)
Lemma bit_at_spec (data : string) (pos : Z) :
  0 ≤ pos < 2 ^ 31 →
  bit_at data pos
  = match String.get (Z.to_nat (pos / 8)) data with
    | Some a => Z.testbit (Z.of_N (Ascii.N_of_ascii a)) (pos mod 8)
    | None => false
    end.
Proof.
  intros Hpos. unfold bit_at, charCodeAt, shr.
  rewrite (to_int32_small pos) by lia.
  change (3 mod 32) with 3. rewrite Z.shiftr_div_pow2 by lia.
  change (2 ^ 3) with 8.
  replace (pos / 8 <? 0) with false
    by (symmetry; apply Z.ltb_ge; apply Z.div_pos; lia).
  destruct (String.get (Z.to_nat (pos / 8)) data) as [a|]; [|done].
  cbn [fmap option_fmap option_map].
  assert (band pos 7 = pos mod 8) as ->.
  { unfold band. rewrite !to_int32_small by lia.
    change 7 with (Z.ones 3). rewrite Z.land_ones by lia. done. }
  apply band_bit. pose proof (Z.mod_pos_bound pos 8). lia.
Qed.

Lemma readCode_reads_bits (data : string) (size pos : Z) :
  0 ≤ size ≤ 31 →
  let bits := (fun k => bit_at data (pos + Z.of_nat k)) <$> seq 0 (Z.to_nat size) in
  readCode data size pos = (bits_value bits, pos + size)
  ∧ 0 ≤ bits_value bits < 2 ^ size.
Proof.
  intros Hsize bits. unfold readCode.
  rewrite readCode_from_spec by lia. fold bits. split.
  - f_equal; lia.
  - pose proof (bits_value_range bits) as Hr.
    unfold bits in Hr at 3. rewrite length_fmap, length_seq, Z2Nat.id in Hr by lia.
    done.
Qed.

(** X10.  [readCode(size)] reads the next [size] bits of the data, lowest
    bit first, each byte from its lowest bit up; bits past the end of the
    data read as 0.  The code is below [2 ^ size] and [pos] moves on by
    [size]. *)
Theorem readCode_reads_the_bits_lowest_first (data : string) (size pos : Z) :
  0 ≤ size ≤ 31 →
  let bits := (fun k => bit_at data (pos + Z.of_nat k)) <$> seq 0 (Z.to_nat size) in
  readCode data size pos = (bits_value bits, pos + size)
  ∧ 0 ≤ bits_value bits < 2 ^ size
  ∧ ∀ p, 0 ≤ p < 2 ^ 31 →
         bit_at data p
         = match String.get (Z.to_nat (p / 8)) data with
           | Some a => Z.testbit (Z.of_N (Ascii.N_of_ascii a)) (p mod 8)
           | None => false
           end.
Proof.
  intros Hsize bits. unfold readCode.
  rewrite readCode_from_spec by lia. fold bits. split; [|split].
  - f_equal; lia.
  - pose proof (bits_value_range bits) as Hr.
    unfold bits in Hr at 3. rewrite length_fmap, length_seq, Z2Nat.id in Hr by lia.
    done.
  - apply bit_at_spec.
Qed.

(** *** The loop *)

Lemma readCode_zero (data : string) (n : nat) (i code pos : Z) :
  (∀ k, 0 ≤ k < Z.of_nat n → bit_at data (pos + k) = false) →
  readCode_from data n i code pos = (code, pos + Z.of_nat n).
Proof.
  revert i code pos. induction n as [|n IH]; intros i code pos Hzero.
  - cbn [readCode_from]. f_equal. lia.
  - cbn [readCode_from]. cbv zeta.
    rewrite <- (Z.add_0_r pos) at 1. rewrite (Hzero 0) by lia.
    rewrite IH; [f_equal; lia|].
    intros k Hk. replace (pos + 1 + k) with (pos + (1 + k)) by lia.
    apply Hzero. lia.
Qed.

Lemma clear_dict_0 (clearCode : Z) :
  1 ≤ clearCode → clear_dict clearCode !! 0%nat = Some (Arr [Some 0]).
Proof.
  intros Hc. unfold clear_dict.
  assert (seqZ 0 clearCode = 0 :: seqZ 1 (clearCode - 1)) as ->.
  { by rewrite (seqZ_cons 0 clearCode) by lia. }
  done.
Qed.

(** X11.  Data that does not begin with the clear code is not decoded: if
    its first code is the end code the output is empty, if it is 0 the
    decoder fails on the empty dictionary with a [TypeError], and any other
    code is an ['Invalid LZW code.']. *)
Theorem lzwDecode_needs_a_clear_code_first
        (fuel : nat) (minCodeSize : Z) (data : string) :
  0 ≤ minCodeSize ≤ 30 →
  let first_code := (readCode data (minCodeSize + 1) 0).1 in
  first_code ≠ 2 ^ minCodeSize →
  lzwDecode (S fuel) minCodeSize data
  = Some (if first_code =? 2 ^ minCodeSize + 1 then Return []
          else if first_code =? 0 then Throw TypeError
          else Throw InvalidLZWCode).
Proof.
  intros Hmin first_code Hfirst.
  destruct (readCode_reads_bits data (minCodeSize + 1) 0 ltac:(lia)) as [Hread Hrange].
  unfold lzwDecode. cbn [decode_loop]. unfold iteration. cbv zeta.
  cbn [codeSize pos code dict output].
  rewrite (shl_1_small minCodeSize) by lia.
  unfold first_code in *. destruct (readCode data (minCodeSize + 1) 0) as [c p].
  cbn [fst] in *. injection Hread as Hc _.
  replace (c =? 2 ^ minCodeSize) with false by (symmetry; by apply Z.eqb_neq).
  destruct (c =? 2 ^ minCodeSize + 1); [done|].
  cbn [length]. replace (c <? Z.of_nat 0) with false by (symmetry; apply Z.ltb_ge; lia).
  change (Z.of_nat 0) with 0. destruct (c =? 0); done.
Qed.

(** An iteration that reads no set bit. *)
Lemma iteration_zero (minCodeSize : Z) (data : string) (s : Decoder) :
  0 ≤ minCodeSize ≤ 30 → primed (2 ^ minCodeSize) s →
  (∀ p, pos s ≤ p < pos s + 12 → bit_at data p = false) →
  ∃ s', iteration minCodeSize data s = Continue s'
        ∧ primed (2 ^ minCodeSize) s'
        ∧ pos s' = pos s + codeSize s.
Proof.
  intros Hmin ((m0 & H0) & Hlast & Hsize) Hzero.
  pose proof (pow2_small minCodeSize ltac:(lia)) as Hp.
  unfold iteration. cbv zeta. rewrite (shl_1_small minCodeSize) by lia.
  unfold readCode. rewrite readCode_zero.
  2:{ intros k Hk. apply Hzero. rewrite Z2Nat.id in Hk by lia. lia. }
  rewrite Z2Nat.id by lia.
  replace (0 =? 2 ^ minCodeSize) with false by (symmetry; apply Z.eqb_neq; lia).
  replace (0 =? 2 ^ minCodeSize + 1) with false by (symmetry; apply Z.eqb_neq; lia).
  assert (0 < Z.of_nat (length (dict s))) as Hlen.
  { apply lookup_lt_Some in H0. lia. }
  replace (0 <? Z.of_nat (length (dict s))) with true by (symmetry; apply Z.ltb_lt; lia).
  assert (dict_get (dict s) (Some 0) = Some (Arr m0)) as Hget0 by exact H0.
  assert (∀ dict', dict' !! 0%nat = Some (Arr m0) →
    ∃ s', Continue
            (mkDecoder (pos s + codeSize s)
               (output s ++ match dict_get dict' (Some 0) with
                            | Some (Arr l) => l
                            | _ => []
                            end)
               dict'
               (if (Z.of_nat (length dict') =? shl 1 (codeSize s)) && (codeSize s <? 12)
                then codeSize s + 1 else codeSize s)
               (Some 0)) = Continue s'
          ∧ primed (2 ^ minCodeSize) s' ∧ pos s' = pos s + codeSize s) as Hnext.
  { intros dict' Hd. eexists. split; [done|]. split; [|done].
    split; [by exists m0|]. split; [right; exists m0; exact Hd|].
    cbn [codeSize]. destruct (_ =? _); cbn [andb]; [|lia].
    destruct (Z.ltb_spec (codeSize s) 12); lia. }
  case_bool_decide as Hclear; cbn [negb].
  - by apply Hnext.
  - destruct Hlast as [Hl|[l Hl]]; [done|].
    unfold push_extended. rewrite Hl, Hget0.
    apply Hnext. by apply lookup_app_l_Some.
Qed.

(** A primed decoder that reads nothing but zero bits goes on. *)
Lemma decode_loop_zero (minCodeSize : Z) (data : string) (fuel : nat) (s : Decoder) :
  0 ≤ minCodeSize ≤ 30 → primed (2 ^ minCodeSize) s →
  (∀ p, pos s ≤ p < 2 ^ 31 → bit_at data p = false) →
  pos s + 12 * Z.of_nat fuel < 2 ^ 31 →
  decode_loop fuel minCodeSize data s = None.
Proof.
  intros Hmin. revert s. induction fuel as [|fuel IH]; intros s Hprimed Hzero Hfuel;
    [done|].
  cbn [decode_loop].
  destruct (iteration_zero minCodeSize data s Hmin Hprimed) as (s' & -> & Hp' & Hpos).
  { intros p Hp. apply Hzero. lia. }
  destruct Hprimed as (_ & _ & Hsize).
  apply IH; [done| |lia].
  intros p Hp. apply Hzero. lia.
Qed.

(** X12.  Without an end code the decoder does not stop.  When the data
    begins with the clear code and holds no other set bit, as data cut off
    after the clear code does, every further code reads as 0 and is
    decoded: the loop has not returned after [n] iterations, for every
    [n] with [13 + 12 * n < 2 ^ 31], that is, as long as [pos] is sure to
    stay in the 31-bit range of [pos >> 3]. *)
Theorem lzwDecode_does_not_stop_without_an_end_code
        (fuel : nat) (minCodeSize : Z) (data : string) :
  0 ≤ minCodeSize ≤ 11 →
  (readCode data (minCodeSize + 1) 0).1 = 2 ^ minCodeSize →
  (∀ p, minCodeSize + 1 ≤ p < 2 ^ 31 → bit_at data p = false) →
  13 + 12 * Z.of_nat fuel < 2 ^ 31 →
  lzwDecode fuel minCodeSize data = None.
Proof.
  intros Hmin Hfirst Hzero Hfuel.
  destruct fuel as [|fuel]; [done|].
  pose proof (pow2_small minCodeSize ltac:(lia)) as Hp.
  destruct (readCode_reads_bits data (minCodeSize + 1) 0 ltac:(lia)) as [Hread _].
  unfold lzwDecode. cbn [decode_loop]. unfold iteration. cbv zeta.
  cbn [codeSize pos code dict output].
  rewrite (shl_1_small minCodeSize) by lia.
  destruct (readCode data (minCodeSize + 1) 0) as [c p].
  cbn [fst] in Hfirst. injection Hread as _ Hpos. subst c.
  rewrite Z.eqb_refl.
  apply decode_loop_zero; [lia| | |].
  - split; [|split].
    + eexists. cbn [dict]. apply clear_dict_0. lia.
    + by left.
    + cbn [codeSize]. lia.
  - cbn [pos]. intros q Hq. apply Hzero. lia.
  - cbn [pos]. lia.
Qed.

Lemma clear_dict_lookup (clearCode c : Z) :
  0 ≤ c < clearCode → clear_dict clearCode !! Z.to_nat c = Some (Arr [Some c]).
Proof.
  intros Hc. unfold clear_dict. rewrite lookup_app_l.
  - rewrite list_lookup_fmap, lookup_seqZ_lt by lia.
    rewrite Z2Nat.id by lia. done.
  - rewrite length_fmap, length_seqZ. lia.
Qed.

Lemma clear_dict_length (clearCode : Z) :
  0 ≤ clearCode → Z.of_nat (length (clear_dict clearCode)) = clearCode + 2.
Proof.
  intros Hc. unfold clear_dict. rewrite length_app, length_fmap, length_seqZ.
  cbn [length]. lia.
Qed.

(** The loop on a stream of clear code and pixel pairs. *)
Lemma decode_loop_uncompressed (minCodeSize : Z) (data : string) (pixels : list Z) :
  0 ≤ minCodeSize ≤ 11 → minCodeSize ≠ 1 →
  Forall (fun c => 0 ≤ c < 2 ^ minCodeSize) pixels →
  ∀ (fuel : nat) (s : Decoder),
    codeSize s = minCodeSize + 1 →
    (∀ (k : nat) c, uncompressed minCodeSize pixels !! k = Some c →
       (readCode data (minCodeSize + 1)
                 (pos s + Z.of_nat k * (minCodeSize + 1))).1 = c) →
    (length (uncompressed minCodeSize pixels) ≤ fuel)%nat →
    decode_loop fuel minCodeSize data s = Some (Return (output s ++ (Some <$> pixels))).
Proof.
  intros Hmin Hne Hpixels.
  pose proof (pow2_small minCodeSize ltac:(lia)) as Hp.
  assert (Hread : ∀ p, (readCode data (minCodeSize + 1) p).2 = p + (minCodeSize + 1)).
  { intros p.
    destruct (readCode_reads_bits data (minCodeSize + 1) p ltac:(lia)) as [-> _].
    done. }
  induction Hpixels as [|c pixels Hc _ IH]; intros fuel s Hsize Hcodes Hfuel.
  - destruct fuel as [|fuel]; [cbn in Hfuel; lia|].
    cbn [decode_loop]. unfold iteration. cbv zeta.
    rewrite (shl_1_small minCodeSize), Hsize by lia.
    pose proof (Hcodes 0%nat _ eq_refl) as H0. rewrite Z.mul_0_l, Z.add_0_r in H0.
    destruct (readCode data (minCodeSize + 1) (pos s)) as [code p]. cbn [fst] in H0.
    subst code.
    replace (2 ^ minCodeSize + 1 =? 2 ^ minCodeSize) with false
      by (symmetry; apply Z.eqb_neq; lia).
    rewrite Z.eqb_refl. cbn [output fmap list_fmap]. by rewrite app_nil_r.
  - destruct fuel as [|[|fuel]]; [cbn in Hfuel; lia|cbn in Hfuel; lia|].
    cbn [decode_loop]. unfold iteration at 1. cbv zeta.
    rewrite (shl_1_small minCodeSize), Hsize by lia.
    pose proof (Hcodes 0%nat _ eq_refl) as H0. rewrite Z.mul_0_l, Z.add_0_r in H0.
    pose proof (Hread (pos s)) as Hp0.
    destruct (readCode data (minCodeSize + 1) (pos s)) as [code p]. cbn [fst snd] in *.
    subst code p. rewrite Z.eqb_refl.
    unfold iteration at 1. cbv zeta. cbn [codeSize pos code dict output].
    rewrite (shl_1_small minCodeSize) by lia.
    pose proof (Hcodes 1%nat _ eq_refl) as H1. rewrite Z.mul_1_l in H1.
    pose proof (Hread (pos s + (minCodeSize + 1))) as Hp1.
    destruct (readCode data (minCodeSize + 1) (pos s + (minCodeSize + 1))) as [code p].
    cbn [fst snd] in *. subst code p.
    replace (c =? 2 ^ minCodeSize) with false by (symmetry; apply Z.eqb_neq; lia).
    replace (c =? 2 ^ minCodeSize + 1) with false by (symmetry; apply Z.eqb_neq; lia).
    rewrite (clear_dict_length (2 ^ minCodeSize)) by lia.
    replace (c <? 2 ^ minCodeSize + 2) with true by (symmetry; apply Z.ltb_lt; lia).
    rewrite bool_decide_eq_true_2 by done. cbn [negb].
    rewrite (clear_dict_length (2 ^ minCodeSize)) by lia.
    assert (dict_get (clear_dict (2 ^ minCodeSize)) (Some c) = Some (Arr [Some c])) as ->.
    { unfold dict_get. cbn [mbind option_bind].
      replace (c <? 0) with false by (symmetry; apply Z.ltb_ge; lia).
      by apply clear_dict_lookup. }
    rewrite (shl_1_small (minCodeSize + 1)) by lia.
    replace (2 ^ minCodeSize + 2 =? 2 ^ (minCodeSize + 1)) with false.
    2:{ symmetry. apply Z.eqb_neq. rewrite Z.pow_add_r, Z.pow_1_r by lia.
        intros Heq. assert (2 ^ minCodeSize = 2 ^ 1) as Hpow by lia.
        apply Z.pow_inj_r in Hpow; lia. }
    cbn [andb]. rewrite IH.
    + cbn [output]. rewrite <- app_assoc. done.
    + done.
    + cbn [pos]. intros k code Hk. rewrite <- (Hcodes (S (S k)) code Hk).
      f_equal. f_equal. lia.
    + apply le_S_n, le_S_n. exact Hfuel.
Qed.

(** X13.  An image stored without compression is decoded pixel by pixel.
    When the codes of the data, all of [minCodeSize + 1] bits, are a clear
    code before every pixel and then the end code, [lzwDecode] returns the
    pixels, in order. *)
Theorem lzwDecode_uncompressed_image
        (fuel : nat) (minCodeSize : Z) (data : string) (pixels : list Z) :
  0 ≤ minCodeSize ≤ 11 → minCodeSize ≠ 1 →
  Forall (fun c => 0 ≤ c < 2 ^ minCodeSize) pixels →
  (∀ (k : nat) c, uncompressed minCodeSize pixels !! k = Some c →
     (readCode data (minCodeSize + 1) (Z.of_nat k * (minCodeSize + 1))).1 = c) →
  (length (uncompressed minCodeSize pixels) ≤ fuel)%nat →
  lzwDecode fuel minCodeSize data = Some (Return (Some <$> pixels)).
Proof.
  intros Hmin Hne Hpixels Hcodes Hfuel. unfold lzwDecode.
  rewrite (decode_loop_uncompressed minCodeSize data pixels Hmin Hne Hpixels);
    done.
Qed.

End LzwDecoding.

(* ===================================================================== *)
(** ** The vertex buffer: positions, slots and bounds *)
(* ===================================================================== *)

Section VertexBuffer.



Lemma indexOf_first (ts : list WebGLTexture) (t : WebGLTexture) (j : nat) (i0 : Z) :
  ts !! j = Some t → (∀ j', j' < j → ts !! j' ≠ Some t) →
  JS.indexOf_from (JS.VObject <$> ts) (JS.VObject t) i0 = (i0 + Z.of_nat j)%Z.
Proof.
  revert j i0. induction ts as [|t0 ts IH]; intros j i0 Hj Hfirst; [done|].
  rewrite fmap_cons. cbn [JS.indexOf_from JS.strict_equals].
  destruct j as [|j].
  - injection Hj as ->. rewrite Nat.eqb_refl. lia.
  - destruct (Nat.eqb_spec t0 t) as [->|Hne].
    + by destruct (Hfirst 0 ltac:(lia)).
    + rewrite (IH j); [lia|done|].
      intros j' Hj'. apply (Hfirst (S j')). lia.
Qed.

Lemma indexOf_absent (ts : list WebGLTexture) (t : WebGLTexture) (i0 : Z) :
  t ∉ ts → JS.indexOf_from (JS.VObject <$> ts) (JS.VObject t) i0 = (-1)%Z.
Proof.
  revert i0. induction ts as [|t0 ts IH]; intros i0 Hnot; [done|].
  rewrite fmap_cons. cbn [JS.indexOf_from JS.strict_equals].
  apply not_elem_of_cons in Hnot as [Hne Hnot].
  destruct (Nat.eqb_spec t0 t) as [->|_]; [done|]. by apply IH.
Qed.

Lemma written_slot_at (c : Context) (batch : Batch) (i v : nat)
      (command : DrawImageCommand) :
  commands batch !! i = Some command → v < 6 →
  42 * (i + 1) ≤ length (_verts c) →
  written_slot (_verts (_updateVertexBufferData batch c)) i v
  = Some (inject_Z
            (next_textureId (_textureManager c) batch
               (foldl (next_textureId (_textureManager c) batch) 0%Z
                      (take i (commands batch)))
               command)).
Proof.
  intros Hi Hv Hlen. unfold written_slot.
  rewrite (written_at c batch i v 5 command Hi) by (done || lia).
  unfold command_data. destruct (view command) as [[[sx sy] sw] sh].
  do 6 (destruct v as [|v]; [done|]). lia.
Qed.

(** X15.  The slot stored for a command whose image has a cached texture is
    the position of the first occurrence of that texture among the textures
    of the batch, and -1 when the batch does not list it. *)
Theorem slot_of_a_cached_texture
        (c : Context) (batch : Batch) (i : nat) (command : DrawImageCommand)
        (t : WebGLTexture) :
  commands batch !! i = Some command →
  TextureManager.getWebGLTexture (_textureManager c) (image command) = Some t →
  42 * (i + 1) ≤ length (_verts c) →
  let verts := _verts (_updateVertexBufferData batch c) in
  (∀ j, textures batch !! j = Some t →
        (∀ j', j' < j → textures batch !! j' ≠ Some t) →
        written_slot verts i <$> [0; 1; 2; 3; 4; 5]
        = replicate 6 (Some (inject_Z (Z.of_nat j))))
  ∧ (t ∉ textures batch →
     written_slot verts i <$> [0; 1; 2; 3; 4; 5] = replicate 6 (Some (inject_Z (-1)))).
Proof.
  intros Hi Ht Hlen verts.
  assert (TextureManager.hasWebGLTexture (_textureManager c) (image command) = true)
    as Hhas.
  { unfold TextureManager.hasWebGLTexture, TextureManager.getWebGLTexture in *.
    apply bool_decide_eq_true_2.
    destruct (cache (_textureManager c) !! _); [by eexists|done]. }
  assert (∀ v, v < 6 →
               written_slot verts i v
               = Some (inject_Z (JS.indexOf (JS.VObject <$> textures batch)
                                            (JS.VObject t)))) as Hslot.
  { intros v Hv. unfold verts. rewrite (written_slot_at c batch i v command) by done.
    unfold next_textureId at 1. rewrite Hhas, Ht. done. }
  cbn [fmap list_fmap replicate].
  rewrite !Hslot by lia. unfold JS.indexOf. split.
  - intros j Hj Hfirst. rewrite (indexOf_first _ t j) by done. done.
  - intros Hnot. rewrite indexOf_absent by done. done.
Qed.

(** X16.  [_updateVertexBufferData] keeps the length of the buffer.  The
    numbers of the commands of the batch replace the front of the buffer,
    what lies behind them stays as it was, and what does not fit (more than
    [length / 42] commands) is dropped without an error. *)
Theorem vertex_buffer_is_overwritten_in_place (c : Context) (batch : Batch) :
  let packed := packed_data (_textureManager c) batch 0%Z (commands batch) in
  _verts (_updateVertexBufferData batch c)
  = take (length (_verts c)) (packed ++ drop (42 * length (commands batch)) (_verts c))
  ∧ length (_verts (_updateVertexBufferData batch c)) = length (_verts c)
  ∧ length packed = 42 * length (commands batch).
Proof.
  intros packed.
  assert (length packed = 42 * length (commands batch)) as Hpacked
    by apply packed_data_length.
  rewrite updateVertexBufferData_eq, foldl_pack_command.
  cbn [fst snd set_verts _verts]. fold packed.
  split; [|split; [apply foldl_store_length|done]].
  apply list_eq. intros j.
  rewrite foldl_store_lookup, Hpacked, Nat.sub_0_r.
  destruct (decide (j < length (_verts c))) as [Hj|Hj].
  - rewrite lookup_take_lt by done.
    case_decide as Hin.
    + rewrite lookup_app_l by lia. done.
    + rewrite lookup_app_r by lia. rewrite lookup_drop. f_equal. lia.
  - rewrite lookup_take_ge by lia. rewrite decide_False by lia.
    apply lookup_ge_None. lia.
Qed.

End VertexBuffer.

(* ===================================================================== *)
(** ** flush: the calls on the device *)
(* ===================================================================== *)

Section Flush.

Lemma draw_counts_app (xs ys : list GLCall) :
  draw_counts (xs ++ ys) = draw_counts xs ++ draw_counts ys.
Proof. unfold draw_counts. apply omap_app. Qed.

Lemma draw_counts_bindTextures (b : Batch) : draw_counts (bindTextures_calls b) = [].
Proof.
  unfold bindTextures_calls. generalize (bindTextures_units b). intros us.
  induction us as [|[unit t] us IH]; [done|]. exact IH.
Qed.

(** What the loop of [flush] leaves on the device and in the buffer. *)
Lemma foldl_flush_batch_device (bs : list Batch) (c : Context) (acc : list WebGLTexture) :
  let c' := (foldl flush_batch (c, acc) bs).1 in
  draw_counts (__gl c')
  = draw_counts (__gl c) ++ ((fun b => 6 * length (commands b)) <$> bs)
  ∧ length (_verts c') = length (_verts c)
  ∧ snapToPixel c' = snapToPixel c
  ∧ backgroundColor c' = backgroundColor c
  ∧ (bs = [] → __gl c' = __gl c ∧ _verts c' = _verts c
               ∧ _commandPool c' = _commandPool c ∧ _batchPool c' = _batchPool c).
Proof.
  revert c acc. induction bs as [|b bs IH]; intros c acc.
  - cbn [foldl fst fmap list_fmap]. rewrite app_nil_r. done.
  - change (foldl flush_batch (c, acc) (b :: bs))
      with (foldl flush_batch (flush_batch (c, acc) b) bs).
    unfold flush_batch at 2.
    rewrite updateVertexBufferData_eq, bindTextures_eq, free_commands_eq.
    rewrite foldl_pack_command.
    match goal with |- context [foldl flush_batch (?c1, ?a1) bs] =>
      destruct (IH c1 a1) as (H1 & H2 & H3 & H4 & _) end.
    cbv zeta. rewrite H1, H2, H3, H4. cbn [__gl _verts snapToPixel backgroundColor
      set_batchPool set_commandPool set_diag gl_call add_gl_calls set_verts fst snd].
    rewrite !draw_counts_app, draw_counts_bindTextures, foldl_store_length.
    rewrite fmap_cons. cbn [draw_counts omap list_omap app].
    rewrite <- !app_assoc. done.
Qed.

(** X17.  [flush] issues one draw call per batch, in batch order, and the
    call for a batch draws six vertices for each of its commands. *)
Theorem flush_draws_the_batches_in_order (c : Context) :
  draw_counts (__gl (flush c))
  = draw_counts (__gl c) ++ ((fun b => 6 * length (commands b)) <$> _batches c).
Proof.
  unfold flush.
  pose proof (foldl_flush_batch_device (_batches c)
                (clear (set_diag (mkDiag 0 0 0 (_maxGPUTextures c)) c)) [])
    as (H1 & _).
  change (_batches (clear (set_diag (mkDiag 0 0 0 (_maxGPUTextures c)) c)))
    with (_batches c).
  destruct (foldl flush_batch _ _) as [c1 acc]. cbn [fst] in H1.
  cbn [__gl set_batches set_diag]. rewrite H1.
  unfold clear, gl_call. cbn [set_diag __gl]. rewrite !draw_counts_app.
  change (draw_counts [gl_clear]) with (@nil nat).
  change (draw_counts [gl_clearColor _ _ _ _]) with (@nil nat).
  by rewrite !app_nil_r.
Qed.

Lemma uploads_app (xs ys : list GLCall) : uploads (xs ++ ys) = uploads xs ++ uploads ys.
Proof. unfold uploads. apply omap_app. Qed.

Lemma uploads_bindTextures (b : Batch) : uploads (bindTextures_calls b) = [].
Proof.
  unfold bindTextures_calls. generalize (bindTextures_units b). intros us.
  induction us as [|[unit t] us IH]; [done|]. exact IH.
Qed.

Lemma packed_buffers_length (tm : TextureManager) (snap : bool) (verts : list Q)
      (bs : list Batch) :
  length (packed_buffers tm snap verts bs) = length bs.
Proof.
  revert verts. induction bs as [|b bs IH]; intros verts; [done|].
  cbn [packed_buffers]. cbv zeta. cbn [length]. by rewrite IH.
Qed.

Lemma foldl_flush_batch_uploads (bs : list Batch) (c : Context)
      (acc : list WebGLTexture) :
  let c' := (foldl flush_batch (c, acc) bs).1 in
  let buffers := packed_buffers (_textureManager c) (snapToPixel c) (_verts c) bs in
  uploads (__gl c') = uploads (__gl c) ++ buffers
  ∧ _verts c' = default (_verts c) (last buffers).
Proof.
  revert c acc. induction bs as [|b bs IH]; intros c acc.
  - cbn [foldl fst packed_buffers last default]. by rewrite app_nil_r.
  - change (foldl flush_batch (c, acc) (b :: bs))
      with (foldl flush_batch (flush_batch (c, acc) b) bs).
    unfold flush_batch at 2.
    rewrite updateVertexBufferData_eq, bindTextures_eq, free_commands_eq.
    match goal with |- context [foldl flush_batch (?c1, ?a1) bs] =>
      destruct (IH c1 a1) as (H1 & H2) end.
    cbv zeta in *. rewrite H1, H2. clear H1 H2.
    cbn [__gl _verts snapToPixel _textureManager
         set_batchPool set_commandPool set_diag gl_call add_gl_calls set_verts fst snd].
    cbn [packed_buffers].
    set (verts' := (foldl (pack_command (_textureManager c) (snapToPixel c) b)
                          (_verts c, 0, 0%Z) (commands b)).1.1).
    split.
    + rewrite !uploads_app, uploads_bindTextures.
      change (uploads [gl_bindBuffer]) with (@nil (list Q)).
      change (uploads [gl_bufferSubData 0 verts']) with [verts'].
      change (uploads [gl_drawArrays 0 (6 * length (commands b))]) with (@nil (list Q)).
      rewrite !app_nil_r, <- !app_assoc. done.
    + destruct (packed_buffers (_textureManager c) (snapToPixel c) verts' bs)
        as [|v vs] eqn:Hbs; [done|].
      change (last (verts' :: v :: vs)) with (last (v :: vs)).
      by destruct (last (v :: vs)) eqn:Hlast; [|by apply last_None in Hlast].
Qed.

(** X18.  [flush] uploads the vertex buffer once per batch, in batch order,
    and what it uploads for a batch is the whole buffer as the vertex
    packer leaves it after packing that batch over what the batch before
    left; the buffer of the context ends as the last upload. *)
Theorem flush_uploads_the_buffer_of_each_batch (c : Context) :
  let buffers :=
    packed_buffers (_textureManager c) (snapToPixel c) (_verts c) (_batches c) in
  uploads (__gl (flush c)) = uploads (__gl c) ++ buffers
  ∧ length buffers = length (_batches c)
  ∧ _verts (flush c) = default (_verts c) (last buffers).
Proof.
  intros buffers. unfold flush.
  pose proof (foldl_flush_batch_uploads (_batches c)
                (clear (set_diag (mkDiag 0 0 0 (_maxGPUTextures c)) c)) [])
    as (H1 & H2).
  change (_batches (clear (set_diag (mkDiag 0 0 0 (_maxGPUTextures c)) c)))
    with (_batches c).
  destruct (foldl flush_batch _ _) as [c1 acc]. cbn [fst] in H1, H2.
  cbn [__gl _verts set_batches set_diag]. rewrite H1, H2.
  unfold clear, gl_call.
  cbn [set_diag __gl _verts _textureManager snapToPixel]. fold buffers.
  rewrite !uploads_app.
  change (uploads [gl_clear]) with (@nil (list Q)).
  change (uploads [gl_clearColor _ _ _ _]) with (@nil (list Q)).
  rewrite !app_nil_r. split; [done|]. split; [|done].
  apply packed_buffers_length.
Qed.

(** X19.  [flush] with nothing queued only clears the canvas: the counters
    are reset to 0, no buffer is uploaded and nothing is drawn, the vertex
    buffer and the pools stay as they are. *)
Theorem flush_of_an_empty_frame (c : Context) :
  _batches c = [] →
  let bg := backgroundColor c in
  __gl (flush c)
  = __gl c ++ [gl_clearColor (red bg / 255) (green bg / 255) (blue bg / 255) (alpha bg);
               gl_clear]
  ∧ _diag (flush c) = mkDiag 0 0 0 (_maxGPUTextures c)
  ∧ _verts (flush c) = _verts c
  ∧ _commandPool (flush c) = _commandPool c
  ∧ _batchPool (flush c) = _batchPool c
  ∧ _batches (flush c) = [].
Proof.
  intros Hnil bg. unfold flush. cbv zeta.
  change (_batches (clear (set_diag (mkDiag 0 0 0 (_maxGPUTextures c)) c)))
    with (_batches c).
  rewrite Hnil. cbn [foldl]. cbn. rewrite Hnil, <- app_assoc. done.
Qed.

(** X20.  [flush] leaves the drawing state alone: the transform stack, the
    opacity and depth stack, the texture cache, the log, [snapToPixel], the
    background colour and the two limits are what they were, and the vertex
    buffer keeps its length. *)
Theorem flush_keeps_the_drawing_state (c : Context) :
  _stack (flush c) = _stack c
  ∧ _state (flush c) = _state c
  ∧ _textureManager (flush c) = _textureManager c
  ∧ _log (flush c) = _log c
  ∧ snapToPixel (flush c) = snapToPixel c
  ∧ backgroundColor (flush c) = backgroundColor c
  ∧ _maxDrawingsPerBatch (flush c) = _maxDrawingsPerBatch c
  ∧ _maxGPUTextures (flush c) = _maxGPUTextures c
  ∧ length (_verts (flush c)) = length (_verts c).
Proof.
  unfold flush.
  pose proof (foldl_flush_batch_device (_batches c)
                (clear (set_diag (mkDiag 0 0 0 (_maxGPUTextures c)) c)) [])
    as (_ & D2 & D3 & D4 & _).
  pose proof (foldl_flush_batch (_batches c)
                (clear (set_diag (mkDiag 0 0 0 (_maxGPUTextures c)) c)) [])
    as [_ [_ _ _ _ _ _ _ _ Hlog [Hl1 Hl2] (Hs1 & Hs2 & Hs3)]].
  change (_batches (clear (set_diag (mkDiag 0 0 0 (_maxGPUTextures c)) c)))
    with (_batches c).
  destruct (foldl flush_batch _ _) as [c1 acc]. cbn [fst] in *.
  cbn [set_batches set_diag _stack _state _textureManager _log snapToPixel
       backgroundColor _maxDrawingsPerBatch _maxGPUTextures _verts].
  rewrite D2, D3, D4, Hlog, Hl1, Hl2, Hs1, Hs2, Hs3. done.
Qed.

End Flush.

(* ===================================================================== *)
(** ** drawImage: what a frame leaves for flush *)
(* ===================================================================== *)

Section Frame.


Lemma register_length (t : WebGLTexture) (ts : list WebGLTexture) :
  1 ≤ length (Batch.register t ts).
Proof.
  assert (t ∈ Batch.register t ts) as Hin by (apply elem_of_register; by right).
  destruct (Batch.register t ts); [by apply elem_of_nil in Hin|simpl; lia].
Qed.

(** Admission into a last batch that respects its limits (it may be empty,
    as a batch fresh from the pool is). *)
Lemma maybeAdd_within (M T : nat) (tm : TextureManager) (command : DrawImageCommand)
      (b : Batch) :
  1 ≤ M → 1 ≤ T → maxDraws b = M → maxTextures b = T →
  length (commands b) ≤ M → length (textures b) ≤ T →
  let r := Batch.maybeAdd tm command b in
  if r.1.1
  then 1 ≤ length (commands r.1.2) ≤ M ∧ 1 ≤ length (textures r.1.2) ≤ T
  else r.1.2 = b ∧ (commands b ≠ [] ∨ textures b ≠ []).
Proof.
  intros HM HT HbM HbT Hc Ht. unfold Batch.maybeAdd.
  destruct (TextureManager.updateFromGraphic tm (image command)) as [t tm'].
  pose proof (register_length t (textures b)) as Hreg.
  destruct (maxTextures b <? length (Batch.register t (textures b))) eqn:E1;
    cbn [orb fst snd].
  - split; [done|]. apply Nat.ltb_lt in E1. right. intros Hnil.
    rewrite Hnil in E1. unfold Batch.register in E1. simpl in E1. lia.
  - apply Nat.ltb_ge in E1.
    destruct (length (commands b) =? maxDraws b) eqn:E2; cbn [fst snd].
    + split; [done|]. apply Nat.eqb_eq in E2. left. intros Hnil.
      rewrite Hnil in E2. simpl in E2. lia.
    + apply Nat.eqb_neq in E2. cbn [commands textures].
      rewrite length_app. simpl. lia.
Qed.

Lemma admission_within (M T : nat) (command : DrawImageCommand)
      (bs : list Batch) (tm : TextureManager) (bp : Pool Batch) :
  let ok := fun b => maxDraws b = M ∧ maxTextures b = T in
  let within := fun b => 1 ≤ length (commands b) ≤ M ∧ 1 ≤ length (textures b) ≤ T in
  1 ≤ M → 1 ≤ T →
  Forall ok bs → Forall ok (free_list bp) → Forall within bs →
  Forall within (admission (Batch.new M T) command (bs, tm, bp)).1.1.
Proof.
  intros ok within HM HT Hok Hpool Hin.
  assert (Hfresh : ∀ tm0 bp0, Forall ok (free_list bp0) →
            within (Batch.add tm0 command
                      (Pool.get (Batch.new M T) Batch.reset bp0).1).1).
  { intros tm0 bp0 Hbp0. rewrite add_spec. cbn [fst commands textures].
    destruct (open_batch_empty M T bp0) as [-> ->].
    unfold within. cbn [commands textures app length].
    unfold Batch.register. simpl. lia. }
  destruct bs as [|b0 bs0 _] using rev_ind.
  - rewrite admission_nil. cbv zeta. rewrite admission_snoc. cbv zeta.
    destruct (open_batch_limits M T bp Hpool) as [[Ho1 Ho2] Ho3].
    destruct (open_batch_empty M T bp) as [He1 He2].
    pose proof (maybeAdd_within M T tm command
                  (Pool.get (Batch.new M T) Batch.reset bp).1 HM HT Ho1 Ho2) as Hadd.
    rewrite He1, He2 in Hadd. specialize (Hadd ltac:(simpl; lia) ltac:(simpl; lia)).
    cbv zeta in Hadd.
    destruct (Batch.maybeAdd tm command _) as [[added b'] tm']. cbn [fst snd] in *.
    destruct added; cbn [fst snd].
    + by apply Forall_singleton.
    + destruct Hadd as [_ [?|?]]; done.
  - rewrite admission_snoc. cbv zeta.
    apply Forall_app in Hok as [Hok0 Hokb]. rewrite Forall_singleton in Hokb.
    apply Forall_app in Hin as [Hin0 Hinb]. rewrite Forall_singleton in Hinb.
    destruct Hokb as [Hb1 Hb2]. destruct Hinb as [Hc Ht].
    pose proof (maybeAdd_within M T tm command b0 HM HT Hb1 Hb2
                  ltac:(lia) ltac:(lia)) as Hadd.
    cbv zeta in Hadd.
    destruct (Batch.maybeAdd tm command b0) as [[added b'] tm']. cbn [fst snd] in *.
    destruct added; cbn [fst snd].
    + apply Forall_app. split; [done|]. by apply Forall_singleton.
    + destruct Hadd as [-> _].
      apply Forall_app. split; [done|].
      apply Forall_cons. split; [done|]. apply Forall_singleton.
      by apply Hfresh.
Qed.

Lemma drawImage_within (call : DrawCall) (c : Context) :
  well_formed c → Forall (within_limits c) (_batches c) →
  Forall (within_limits (drawImage call c)) (_batches (drawImage call c)).
Proof.
  intros [H1 H2 H3 H4] Hin.
  destruct (graphic call) as [g|] eqn:Hg.
  - rewrite (drawImage_valid call g c Hg). cbv zeta.
    unfold within_limits.
    cbn [_batches _maxDrawingsPerBatch _maxGPUTextures set_textureManager
         set_batchPool set_batches set_commandPool].
    by apply admission_within.
  - rewrite (drawImage_null call c Hg). done.
Qed.

(** X22.  Whatever is drawn on a context fresh from the constructor, every
    batch queued for [flush] holds at least one command and at most
    [maxDrawingsPerBatch], refers to at least one texture and at most as
    many as the device has texture units, and fits the vertex buffer: no
    command of a frame is dropped by the vertex packer. *)
Theorem batches_stay_within_limits
        (maxDrawingsPerBatch units : nat) (w h : Z) (bg : Color)
        (calls : list DrawCall) :
  1 ≤ maxDrawingsPerBatch → 1 ≤ units →
  let frame := run calls (new_context maxDrawingsPerBatch units w h bg) in
  Forall (fun b => 1 ≤ length (commands b) ≤ maxDrawingsPerBatch
                   ∧ 1 ≤ length (textures b) ≤ units
                   ∧ 42 * length (commands b) ≤ length (_verts frame))
         (_batches frame).
Proof.
  intros HM HT frame.
  set (c0 := new_context maxDrawingsPerBatch units w h bg).
  assert (∀ calls c, well_formed c → Forall (within_limits c) (_batches c) →
                     Forall (within_limits (run calls c)) (_batches (run calls c)))
    as Hrun.
  { clear. induction calls as [|call calls IH]; intros c Hwf Hin; [done|].
    rewrite run_cons. apply IH; [by apply drawImage_well_formed|].
    by apply drawImage_within. }
  pose proof (Hrun calls c0 (new_context_well_formed _ _ w h bg HM HT)
                ltac:(constructor)) as Hin.
  destruct (run_frame calls c0) as (HfM & HfT & _ & _ & _ & _ & Hverts).
  subst frame. fold c0.
  eapply Forall_impl; [exact Hin|]. intros b [Hc Ht].
  rewrite HfM in Hc. rewrite HfT in Ht. rewrite Hverts.
  unfold c0, new_context in *. cbn [_verts _maxDrawingsPerBatch _maxGPUTextures] in *.
  rewrite length_replicate. repeat split; lia.
Qed.

End Frame.

(* ===================================================================== *)
(** ** The RotateTo action *)
(* ===================================================================== *)

Section RotateToAction.
Import RotateTo.
Variables TwoPI PI : Q.

(** What [start] leaves as it found it. *)
Lemma start_frame (a : RotateTo) :
  rotation (start TwoPI PI a) = rotation a
  ∧ angularVelocity (start TwoPI PI a) = angularVelocity a
  ∧ _end (start TwoPI PI a) = _end a
  ∧ _speed (start TwoPI PI a) = _speed a
  ∧ _rotationType (start TwoPI PI a) = _rotationType a
  ∧ _stopped (start TwoPI PI a) = _stopped a
  ∧ _started (start TwoPI PI a) = true
  ∧ _start (start TwoPI PI a) = Some (rotation a)
  ∧ _currentNonCannonAngle (start TwoPI PI a) = Some (rotation a).
Proof.
  unfold start. cbv zeta.
  destruct (ngt _ _); destruct (_rotationType a); done.
Qed.

(** An update of a stopped action. *)
Lemma update_stopped (_delta : Q) (a : RotateTo) :
  _stopped a = true →
  rotation (update TwoPI PI _delta a) = _end a
  ∧ angularVelocity (update TwoPI PI _delta a) = Some 0%Q
  ∧ _stopped (update TwoPI PI _delta a) = true
  ∧ _started (update TwoPI PI _delta a) = true
  ∧ _end (update TwoPI PI _delta a) = _end a
  ∧ isComplete (update TwoPI PI _delta a) = true.
Proof.
  intros Hstopped. unfold update. cbv zeta.
  set (b := if negb (_started a) then start TwoPI PI a else a).
  assert (_stopped b = true ∧ _end b = _end a ∧ _started b = true)
    as (Hs & He & Hst).
  { unfold b. destruct (start_frame a) as (_ & _ & He & _ & _ & Hs & Hst & _).
    destruct (_started a) eqn:Hstarted; cbn [negb]; [done|].
    by rewrite He, Hs, Hst. }
  assert (isComplete (advance _delta b) = true) as ->.
  { unfold isComplete. cbn [advance _stopped]. by rewrite Hs. }
  unfold isComplete. cbn [finish advance rotation angularVelocity _stopped _started
                          _end orb].
  by rewrite He, Hst.
Qed.

(** What an update makes of the fields the action does not compute. *)
Lemma update_frame (_delta : Q) (a : RotateTo) :
  _end (update TwoPI PI _delta a) = _end a
  ∧ _speed (update TwoPI PI _delta a) = _speed a
  ∧ _rotationType (update TwoPI PI _delta a) = _rotationType a
  ∧ _started (update TwoPI PI _delta a) = true
  ∧ _stopped (update TwoPI PI _delta a) = isComplete (update TwoPI PI _delta a)
  ∧ (isComplete (update TwoPI PI _delta a) = true →
     rotation (update TwoPI PI _delta a) = _end a
     ∧ angularVelocity (update TwoPI PI _delta a) = Some 0%Q)
  ∧ (isComplete (update TwoPI PI _delta a) = false →
     rotation (update TwoPI PI _delta a) = rotation a).
Proof.
  unfold update. cbv zeta.
  set (b := if negb (_started a) then start TwoPI PI a else a).
  assert (_end b = _end a ∧ _speed b = _speed a ∧ _rotationType b = _rotationType a
          ∧ _started b = true ∧ rotation b = rotation a)
    as (He & Hsp & Hty & Hst & Hr).
  { unfold b.
    destruct (start_frame a) as (Hr & _ & He & Hsp & Hty & _ & Hst & _).
    destruct (_started a) eqn:Hstarted; cbn [negb]; done. }
  destruct (isComplete (advance _delta b)) eqn:Hc.
  - unfold isComplete. cbn [finish advance _end _speed _rotationType _started
                            _stopped rotation angularVelocity orb].
    rewrite He, Hsp, Hty, Hst. repeat split; done.
  - rewrite Hc. cbn [advance _end _speed _rotationType _started rotation].
    rewrite He, Hsp, Hty, Hst, Hr. repeat split; try done.
    unfold isComplete in Hc. cbn [advance _stopped] in *.
    by destruct (_stopped b).
Qed.

(** A stopped action is complete after any run of updates. *)
Lemma stopped_latch (deltas : list Q) (a : RotateTo) :
  _stopped a = true → deltas ≠ [] →
  isComplete (updates TwoPI PI deltas a) = true.
Proof.
  intros Hstopped Hne.
  destruct deltas as [|d deltas _] using rev_ind; [done|]. clear Hne.
  unfold updates. rewrite foldl_app. cbn [foldl].
  assert (_stopped (foldl (fun a _delta => update TwoPI PI _delta a) a deltas) = true)
    as Hs.
  { clear d. induction deltas as [|d deltas IH] using rev_ind; [done|].
    rewrite foldl_app. cbn [foldl].
    by destruct (update_stopped d _ IH) as (_ & _ & -> & _). }
  by destruct (update_stopped d _ Hs) as (_ & _ & _ & _ & _ & ->).
Qed.

(** X23.  Once stopped, by [stop()] or by reaching the target, the action
    stays complete: every later update puts the entity at the target angle
    with no angular velocity, however long the frames take. *)
Theorem stopped_action_keeps_the_entity_at_the_end
        (deltas : list Q) (a : RotateTo) :
  _stopped a = true → deltas ≠ [] →
  let a' := updates TwoPI PI deltas a in
  rotation a' = _end a
  ∧ angularVelocity a' = Some 0%Q
  ∧ isComplete a' = true.
Proof.
  intros Hstopped Hne.
  destruct deltas as [|d deltas _] using rev_ind; [done|]. clear Hne.
  unfold updates. rewrite foldl_app. cbn [foldl].
  assert (_stopped (foldl (fun a _delta => update TwoPI PI _delta a) a deltas) = true
          ∧ _end (foldl (fun a _delta => update TwoPI PI _delta a) a deltas) = _end a)
    as [Hs He].
  { clear d. induction deltas as [|d deltas IH] using rev_ind; [done|].
    rewrite foldl_app. cbn [foldl]. destruct IH as [IH1 IH2].
    destruct (update_stopped d _ IH1) as (_ & _ & -> & _ & -> & _). done. }
  destruct (update_stopped d _ Hs) as (-> & -> & _ & _ & _ & ->). done.
Qed.

(** X24.  [stop()] makes the action complete and clears the angular
    velocity without moving the entity; but it does not hold the entity
    where it is: the next update puts it at the target angle. *)
Theorem stop_does_not_hold_the_entity (_delta : Q) (a : RotateTo) :
  isComplete (stop a) = true
  ∧ angularVelocity (stop a) = Some 0%Q
  ∧ rotation (stop a) = rotation a
  ∧ rotation (update TwoPI PI _delta (stop a)) = _end a.
Proof.
  repeat split; try done.
  by destruct (update_stopped _delta (stop a) eq_refl) as (-> & _).
Qed.

(** X25.  [reset()] does not clear [_stopped]: a completed action that is
    reset does not rotate again.  Wherever the entity has been moved in
    the meantime, the next update plans the rotation anew from there,
    finds the action complete and puts the entity at the target angle at
    once. *)
Theorem reset_does_not_restart (_delta rotation' : Q) (a : RotateTo) :
  isComplete (update TwoPI PI _delta a) = true →
  let finished := update TwoPI PI _delta a in
  let again := update TwoPI PI _delta (moved rotation' (reset finished)) in
  _started (reset finished) = false
  ∧ isComplete (reset finished) = true
  ∧ _start again = Some rotation'
  ∧ rotation again = _end a
  ∧ angularVelocity again = Some 0%Q
  ∧ isComplete again = true.
Proof.
  intros Hdone finished again.
  assert (_stopped finished = true ∧ _end finished = _end a) as [Hs He].
  { destruct (update_frame _delta a) as (He & _ & _ & _ & Hs & _).
    unfold finished. by rewrite Hs, He. }
  assert (_stopped (moved rotation' (reset finished)) = true) as Hs' by exact Hs.
  destruct (update_stopped _delta _ Hs') as (H1 & H2 & _ & _ & _ & H6).
  fold again in H1, H2, H6. cbn [moved reset _end] in H1.
  repeat split; try done.
  - unfold again, update. cbv zeta.
    change (negb (_started (moved rotation' (reset finished)))) with true. cbv iota.
    destruct (start_frame (moved rotation' (reset finished)))
      as (_ & _ & _ & _ & _ & _ & _ & Hstart & _).
    destruct (isComplete (advance _delta
                (start TwoPI PI (moved rotation' (reset finished)))));
      cbn [finish advance _start]; by rewrite Hstart.
  - by rewrite H1, He.
Qed.

(** *** The plan made by the first update *)

(** The numbers [start] computes. *)
Lemma start_plan (a : RotateTo) :
  let d1 := Qabs (_end a - rotation a) in
  let short := if Qle_bool d1 (TwoPI - d1) then d1 else (TwoPI - d1)%Q in
  let long := if Qle_bool d1 (TwoPI - d1) then (TwoPI - d1)%Q else d1 in
  let positive :=
    nge (nrem (Some (rotation a - _end a + TwoPI)%Q) (Some TwoPI)) (Some PI) in
  _shortestPathIsPositive (start TwoPI PI a) = Some positive
  ∧ _shortDistance (start TwoPI PI a) = Some short
  ∧ _longDistance (start TwoPI PI a) = Some long
  ∧ (short + long == TwoPI)%Q
  ∧ (short <= long)%Q
  ∧ (short = d1 ∨ long = d1)
  ∧ (_direction (start TwoPI PI a), _distance (start TwoPI PI a))
    = match _rotationType a with
      | ShortestPath => (Some (if positive then 1 else -1)%Q, Some short)
      | LongestPath => (Some (if positive then -1 else 1)%Q, Some long)
      | Clockwise => (Some 1%Q, Some (if positive then short else long))
      | CounterClockwise => (Some (-1)%Q, Some (if positive then long else short))
      end.
Proof.
  intros d1 short long positive. unfold start. cbv zeta.
  change (nabs (nsub (Some (_end a)) (Some (rotation a)))) with (Some d1).
  change (nsub (Some TwoPI) (Some d1)) with (Some (TwoPI - d1)%Q).
  change (nge (nrem (nadd (nsub (Some (rotation a)) (Some (_end a))) (Some TwoPI))
                    (Some TwoPI)) (Some PI)) with positive.
  unfold ngt, short, long.
  destruct (Qle_bool d1 (TwoPI - d1)) eqn:Hle; cbn [negb].
  - apply Qle_bool_iff in Hle.
    destruct (_rotationType a), positive; cbn; repeat split; auto; ring.
  - assert (TwoPI - d1 <= d1)%Q as Hle'.
    { apply Qlt_le_weak, Qnot_le_lt. intros H. apply Qle_bool_iff in H. congruence. }
    destruct (_rotationType a), positive; cbn; repeat split; auto; ring.
Qed.



(** *** Updates of a started action *)

Lemma start_planned (a : RotateTo) :
  ∃ d D, planned (start TwoPI PI a) (rotation a) d D
         ∧ _currentNonCannonAngle (start TwoPI PI a) = Some (rotation a).
Proof.
  destruct (start_plan a) as (_ & _ & _ & _ & _ & _ & Hplan).
  destruct (start_frame a) as (_ & _ & _ & _ & _ & _ & Hst & Hstart & Hcur).
  pose proof (f_equal fst Hplan) as Hdir. pose proof (f_equal snd Hplan) as Hdist.
  cbn [fst snd] in Hdir, Hdist. clear Hplan. unfold planned.
  rewrite Hst, Hstart, Hcur, Hdir, Hdist.
  destruct (_rotationType a), (nge _ _); cbn [fst snd];
    eexists _, _; repeat split; eauto.
Qed.

(** One update of a started action. *)
Lemma update_planned (_delta : Q) (a : RotateTo) (r0 d D c : Q) :
  planned a r0 d D → _currentNonCannonAngle a = Some c →
  let a' := update TwoPI PI _delta a in
  let c' := (c + d * _speed a * (_delta / 1000))%Q in
  planned a' r0 d D
  ∧ _currentNonCannonAngle a' = Some c'
  ∧ _speed a' = _speed a ∧ _end a' = _end a
  ∧ _stopped a' = isComplete a'
  ∧ isComplete a' = _stopped a || Qle_bool (Qabs D) (Qabs (c' - r0))
  ∧ (isComplete a' = false →
     rotation a' = rotation a ∧ angularVelocity a' = Some (d * _speed a)%Q).
Proof.
  intros (Hst & Hstart & Hdir & Hd & Hdist) Hcur a' c'.
  unfold a', update. cbv zeta. rewrite Hst. cbn [negb].
  assert (isComplete (advance _delta a)
          = _stopped a || Qle_bool (Qabs D) (Qabs (c' - r0))) as Hc.
  { unfold isComplete, advance.
    cbn [_stopped _currentNonCannonAngle _start _distance].
    by rewrite Hcur, Hdir, Hstart, Hdist. }
  unfold planned.
  destruct (isComplete (advance _delta a)) eqn:Hcomplete.
  - unfold isComplete. cbn [finish advance _started _start _direction _distance
      _currentNonCannonAngle _speed _end _stopped orb].
    rewrite Hst, Hstart, Hdir, Hdist, Hcur. repeat split; auto; done.
  - rewrite Hcomplete.
    cbn [advance _started _start _direction _distance _currentNonCannonAngle
         _speed _end _stopped rotation angularVelocity].
    rewrite Hst, Hstart, Hdir, Hdist, Hcur. repeat split; auto.
    destruct (_stopped a); [done|]. done.
Qed.

(** The angle travelled after [t] seconds is [|speed| * t]. *)
Lemma travelled (r0 d speed t c : Q) :
  (d = 1%Q ∨ d = (-1)%Q) → (0 <= t)%Q → (c == r0 + d * speed * t)%Q →
  (Qabs (c - r0) == Qabs speed * t)%Q.
Proof.
  intros Hd Ht Hc.
  assert (c - r0 == d * (speed * t))%Q as -> by (rewrite Hc; ring).
  rewrite !Qabs_Qmult, (Qabs_pos t Ht).
  destruct Hd as [-> | ->];
    [change (Qabs 1) with 1%Q|change (Qabs (-1)) with 1%Q]; ring.
Qed.

Lemma elapsed_snoc (deltas : list Q) (_delta : Q) :
  elapsed (deltas ++ [_delta]) = (elapsed deltas + _delta / 1000)%Q.
Proof. unfold elapsed. by rewrite foldl_app. Qed.

Lemma elapsed_nonneg (deltas : list Q) :
  Forall (fun _delta => 0 <= _delta)%Q deltas → (0 <= elapsed deltas)%Q.
Proof.
  induction deltas as [|d deltas IH] using rev_ind; intros Hpos.
  - apply Qle_refl.
  - apply Forall_app in Hpos as [Hpos Hd]. rewrite Forall_singleton in Hd.
    rewrite elapsed_snoc.
    assert (0 <= d / 1000)%Q by (apply Qle_shift_div_l; [done|by rewrite Qmult_0_l]).
    specialize (IH Hpos). 
    apply (Qplus_le_compat 0 (elapsed deltas) 0 (d / 1000)) in IH; [|done].
    by rewrite Qplus_0_l in IH.
Qed.

Lemma delta_seconds_nonneg (_delta : Q) : (0 <= _delta)%Q → (0 <= _delta / 1000)%Q.
Proof. intros H. apply Qle_shift_div_l; [done|by rewrite Qmult_0_l]. Qed.

(** The first update starts the action. *)
Lemma updates_start (deltas : list Q) (a : RotateTo) :
  _started a = false → deltas ≠ [] →
  updates TwoPI PI deltas a = updates TwoPI PI deltas (start TwoPI PI a).
Proof.
  intros Hstarted Hne. destruct deltas as [|_delta deltas]; [done|].
  unfold updates. cbn [foldl]. f_equal.
  unfold update. cbv zeta. rewrite Hstarted.
  destruct (start_frame a) as (_ & _ & _ & _ & _ & _ & -> & _). done.
Qed.

(** A run of updates of a started action that has not been stopped. *)
Lemma updates_planned (b : RotateTo) (r0 d D : Q) (deltas : list Q) :
  planned b r0 d D → _currentNonCannonAngle b = Some r0 → _stopped b = false →
  let a' := updates TwoPI PI deltas b in
  planned a' r0 d D
  ∧ _speed a' = _speed b ∧ _end a' = _end b
  ∧ (deltas ≠ [] → _stopped a' = isComplete a')
  ∧ (_stopped a' = false → rotation a' = rotation b)
  ∧ (deltas ≠ [] → isComplete a' = false →
     angularVelocity a' = Some (d * _speed b)%Q)
  ∧ ∃ c, _currentNonCannonAngle a' = Some c
         ∧ (Forall (fun _delta => 0 <= _delta)%Q deltas →
            (c == r0 + d * _speed b * elapsed deltas)%Q
            ∧ (_stopped a' = true → Qabs D <= Qabs (_speed b) * elapsed deltas)%Q
            ∧ (deltas ≠ [] →
               isComplete a' = true
               ↔ (Qabs D <= Qabs (_speed b) * elapsed deltas)%Q)).
Proof.
  intros Hplanned Hcur Hstopped.
  induction deltas as [|_delta deltas IH] using rev_ind.
  - cbn [updates foldl]. split; [exact Hplanned|]. do 5 (split; [done|]).
    exists r0. split; [done|]. intros _. unfold elapsed. cbn [foldl].
    split; [ring|]. split; [by rewrite Hstopped|done].
  - cbv zeta in IH. unfold updates. rewrite foldl_app. cbn [foldl].
    fold (updates TwoPI PI deltas b).
    set (a1 := updates TwoPI PI deltas b) in *.
    destruct IH as (I1 & I2 & I3 & I4 & I5 & I6 & c & Ic & I7).
    destruct (update_planned _delta a1 r0 d D c I1 Ic)
      as (P1 & P2 & P3 & P4 & P5 & P6 & P7).
    cbv zeta in *. rewrite I2 in *.
    assert (_stopped a1 = true → isComplete (update TwoPI PI _delta a1) = true)
      as Hlatch by (intros Hs; rewrite P6, Hs; done).
    split; [exact P1|]. split; [done|]. split; [by rewrite P4|].
    split; [done|]. split; [|split].
    + intros Hs. rewrite P5 in Hs. destruct (P7 Hs) as [-> _].
      apply I5. destruct (_stopped a1); [by rewrite Hlatch in Hs|done].
    + intros _ Hc. by destruct (P7 Hc) as [_ ->].
    + eexists. split; [exact P2|]. intros Hpos.
      apply Forall_app in Hpos as [Hpos Hd]. rewrite Forall_singleton in Hd.
      destruct (I7 Hpos) as (Hc & Hreach & _).
      pose proof (elapsed_nonneg deltas Hpos) as Ht.
      pose proof (delta_seconds_nonneg _delta Hd) as Hs.
      rewrite elapsed_snoc.
      assert (0 <= elapsed deltas + _delta / 1000)%Q as Ht'.
      { apply (Qplus_le_compat 0 (elapsed deltas) 0 (_delta / 1000)) in Ht; [|done].
        by rewrite Qplus_0_l in Ht. }
      assert (c + d * _speed b * (_delta / 1000)
              == r0 + d * _speed b * (elapsed deltas + _delta / 1000))%Q as Hc'
        by (rewrite Hc; ring).
      destruct Hplanned as (_ & _ & _ & Hdir & _).
      pose proof (travelled r0 d (_speed b) _ _ Hdir Ht' Hc') as Htr.
      assert (Qabs (_speed b) * elapsed deltas
              <= Qabs (_speed b) * (elapsed deltas + _delta / 1000))%Q as Hmono.
      { rewrite Qmult_plus_distr_r, <- (Qplus_0_r (Qabs (_speed b) * elapsed deltas)) at 1.
        apply Qplus_le_compat; [apply Qle_refl|].
        apply Qmult_le_0_compat; [apply Qabs_nonneg|done]. }
      assert (isComplete (update TwoPI PI _delta a1) = true
              ↔ (Qabs D <= Qabs (_speed b) * (elapsed deltas + _delta / 1000))%Q)
        as Hiff.
      { rewrite P6. split.
        - intros Hor. apply orb_true_iff in Hor as [Hs1|Hle].
          + eapply Qle_trans; [by apply Hreach|done].
          + apply Qle_bool_iff in Hle. by rewrite Htr in Hle.
        - intros Hle. apply orb_true_iff. right. apply Qle_bool_iff.
          by rewrite Htr. }
      split; [done|]. split; [|done].
      rewrite P5. apply Hiff.
Qed.


(** X29.  Until it completes, the action leaves the rotation of the entity
    alone and only sets its angular velocity, to the speed with the sign of
    the planned direction. *)
Theorem rotation_is_left_to_the_angular_velocity (deltas : list Q) (a : RotateTo) :
  _started a = false → deltas ≠ [] →
  let a' := updates TwoPI PI deltas a in
  isComplete a' = false →
  rotation a' = rotation a
  ∧ ∃ direction, (direction = 1%Q ∨ direction = (-1)%Q)
                 ∧ _direction a' = Some direction
                 ∧ angularVelocity a' = Some (direction * _speed a)%Q.
Proof.
  intros Hstarted Hne a' Hc.
  destruct (start_planned a) as (d & D & Hplanned & Hcur).
  destruct (start_frame a) as (Hr0 & _ & He0 & Hsp0 & _ & Hs0 & _).
  destruct (_stopped a) eqn:Hstopped.
  { pose proof (stopped_latch deltas a Hstopped Hne) as Hl.
    fold a' in Hl. congruence. }
  pose proof (updates_planned _ _ _ _ deltas Hplanned Hcur Hs0)
    as (P1 & _ & _ & P4 & P5 & P6 & _).
  cbv zeta in *. rewrite <- (updates_start deltas a Hstarted Hne) in *.
  fold a' in P1, P4, P5, P6. rewrite Hsp0, Hr0 in *.
  split; [apply P5; by rewrite (P4 Hne)|].
  destruct P1 as (_ & _ & Hd & Hdir & _).
  exists d. repeat split; auto.
Qed.

End RotateToAction.

(* ===================================================================== *)
(** ** The further properties on concrete inputs *)
(* ===================================================================== *)

Section ConcreteGif.
Import Gif Lzw.

Lemma readSubBlocks_joins_the_chunks_witness :
  let p := mkParseGif
             (Stream.new [Byte.x02; Byte.x41; Byte.x42; Byte.x01; Byte.x43; Byte.x00;
                          Byte.xff]) [] in
  ParseGif.readSubBlocks p
  = (Return (Stream.chars (mjoin [[Byte.x41; Byte.x42]; [Byte.x43]])),
     ParseGif.advance
       (length (ParseGif.sub_blocks [[Byte.x41; Byte.x42]; [Byte.x43]])) p).
Proof.
  intros p.
  apply (readSubBlocks_joins_the_chunks p [[Byte.x41; Byte.x42]; [Byte.x43]]
           [Byte.xff]).
  - repeat constructor.
  - reflexivity.
Defined.

Lemma parseHeader_layout_witness :
  let p := mkParseGif
             (Stream.new [Byte.x47; Byte.x49; Byte.x46; Byte.x38; Byte.x39; Byte.x61;
                          Byte.x02; Byte.x00; Byte.x01; Byte.x00; Byte.x80; Byte.x00;
                          Byte.x00;
                          Byte.xff; Byte.x00; Byte.x00; Byte.x00; Byte.x00; Byte.xff])
             [] in
  let table := [[255; 0; 0]; [0; 0; 255]]%Z in
  let hdr := mkHeader "GIF" "89a" 2 1 true 0 false 0 0 0 in
  ((128 < 128)%Z →
   ParseGif.parseHeader_hdr p = (Return (hdr []), ParseGif.advance 13 p))
  ∧ ((128 ≤ 128)%Z → 3 * 2 ≤ 6 →
     ParseGif.parseHeader_hdr p
     = (Return (hdr table), mkParseGif (Stream.advance (13 + 3 * 2) (_st p)) table))
  ∧ ((128 ≤ 128)%Z → 6 < 3 * 2 →
     ParseGif.parseHeader_hdr p
     = (Throw PastEndOfStream, ParseGif.advance (13 + 6) p)).
Proof.
  intros p table hdr.
  apply (parseHeader_layout p Byte.x38 Byte.x39 Byte.x61 Byte.x02 Byte.x00
           Byte.x01 Byte.x00 Byte.x80 Byte.x00 Byte.x00
           [Byte.xff; Byte.x00; Byte.x00; Byte.x00; Byte.x00; Byte.xff]).
  reflexivity.
Defined.

Lemma deinterlace_restores_the_rows_witness :
  let src := [[10; 11]; [20; 21]; [30; 31]; [40; 41]; [50; 51]] in
  ∃ dst : list (list nat),
    deinterlace 20 (mjoin src) 2 = Some (Some <$> mjoin dst)
    ∧ (∀ k r, interlace_order (length src) !! k = Some r → dst !! r = src !! k)
    ∧ dst ≡ₚ src.
Proof.
  intros src. apply (deinterlace_restores_the_rows 20 2 src).
  - lia.
  - repeat constructor.
  - simpl. lia.
Defined.

Lemma deinterlace_width_0_diverges_witness :
  deinterlace 1000 [7; 7; 7] 0 = None.
Proof. apply (deinterlace_width_0_diverges 1000 [7; 7; 7]). discriminate. Defined.

Lemma readCode_reads_the_bits_lowest_first_witness :
  let data := String (Ascii.ascii_of_N 12) (String (Ascii.ascii_of_N 85) EmptyString) in
  let bits := (fun k => bit_at data (3 + Z.of_nat k)) <$> seq 0 (Z.to_nat 3) in
  readCode data 3 3 = (bits_value bits, (3 + 3)%Z)
  ∧ (0 ≤ bits_value bits < 2 ^ 3)%Z
  ∧ ∀ p, (0 ≤ p < 2 ^ 31)%Z →
         bit_at data p
         = match String.get (Z.to_nat (p / 8)) data with
           | Some a => Z.testbit (Z.of_N (Ascii.N_of_ascii a)) (p mod 8)
           | None => false
           end.
Proof.
  intros data bits. apply (readCode_reads_the_bits_lowest_first data 3 3). lia.
Defined.

Lemma lzwDecode_needs_a_clear_code_first_witness :
  lzwDecode 1 2 EmptyString = Some (Throw TypeError).
Proof.
  apply (lzwDecode_needs_a_clear_code_first 0 2 EmptyString).
  - lia.
  - vm_compute. discriminate.
Defined.

Lemma lzwDecode_does_not_stop_without_an_end_code_witness :
  lzwDecode 1000 2 (String (Ascii.ascii_of_N 4) EmptyString) = None.
Proof.
  apply (lzwDecode_does_not_stop_without_an_end_code 1000 2).
  - lia.
  - reflexivity.
  - intros p Hp. rewrite bit_at_spec by lia.
    pose proof (Z.div_mod p 8 ltac:(lia)) as Hdiv.
    pose proof (Z.mod_pos_bound p 8 ltac:(lia)) as Hmod.
    destruct (Z.to_nat (p / 8)) as [|n] eqn:Hbyte; [|by destruct n].
    assert (p / 8 = 0)%Z as Hzero by (pose proof (Z.div_pos p 8); lia).
    cbn [String.get].
    assert (p mod 8 = 3 ∨ p mod 8 = 4 ∨ p mod 8 = 5 ∨ p mod 8 = 6 ∨ p mod 8 = 7)%Z
      as Hcases by lia.
    destruct Hcases as [-> | [-> | [-> | [-> | ->]]]]; reflexivity.
  - lia.
Defined.

Lemma lzwDecode_uncompressed_image_witness :
  lzwDecode 5 2 (String (Ascii.ascii_of_N 12) (String (Ascii.ascii_of_N 85) EmptyString))
  = Some (Return (Some <$> [1; 2]%Z)).
Proof.
  apply (lzwDecode_uncompressed_image 5 2).
  - lia.
  - lia.
  - repeat (apply Forall_cons; split; [simpl; lia|]). by apply Forall_nil.
  - intros k c Hk.
    do 5 (destruct k as [|k]; [injection Hk as <-; reflexivity|]).
    discriminate Hk.
  - reflexivity.
Defined.

End ConcreteGif.

Section ConcreteVertices.
Import Examples.


Lemma slot_of_a_cached_texture_witness :
  let c := set_textureManager knows_image_7 two_per_batch in
  let verts := _verts (_updateVertexBufferData half_textured c) in
  TextureManager.getWebGLTexture knows_image_7 (sprite 7 16 16) = Some 5
  ∧ textures half_textured = [3; 5]
  ∧ written_slot verts 0 <$> [0; 1; 2; 3; 4; 5] = replicate 6 (Some (inject_Z 1)).
Proof.
  intros c verts. split; [reflexivity|]. split; [reflexivity|].
  assert (Hlen : 42 * (0 + 1) ≤ length (_verts c)) by (vm_compute; lia).
  destruct (slot_of_a_cached_texture c half_textured 0
              (command_on 0 (sprite 7 16 16)) 5 eq_refl eq_refl Hlen) as [Hslot _].
  apply (Hslot 1); [reflexivity|].
  intros j' Hj'. destruct j' as [|j']; [discriminate|lia].
Defined.

Lemma flush_of_an_empty_frame_witness :
  let c := two_per_batch in
  __gl (flush c) = __gl c ++ [gl_clearColor (0 / 255) (0 / 255) (0 / 255) 1; gl_clear]
  ∧ _diag (flush c) = mkDiag 0 0 0 8
  ∧ _verts (flush c) = _verts c
  ∧ _commandPool (flush c) = _commandPool c
  ∧ _batchPool (flush c) = _batchPool c
  ∧ _batches (flush c) = [].
Proof. apply (flush_of_an_empty_frame two_per_batch). reflexivity. Defined.

Lemma batches_stay_within_limits_witness :
  let frame := run [draw T1 0 0; draw T1 1 1; draw T2 0 0] (new_context 2 8 800 600 black) in
  Forall (fun b => 1 ≤ length (commands b) ≤ 2
                   ∧ 1 ≤ length (textures b) ≤ 8
                   ∧ 42 * length (commands b) ≤ length (_verts frame))
         (_batches frame).
Proof.
  apply (batches_stay_within_limits 2 8 800 600 black
           [draw T1 0 0; draw T1 1 1; draw T2 0 0]); lia.
Defined.

End ConcreteVertices.

Section ConcreteRotation.
Import RotateTo.

Lemma stopped_action_keeps_the_entity_at_the_end_witness :
  let a := stop (new 0 0 1 1 None) in
  let a' := updates (710 # 113) (355 # 113) [16; 16]%Q a in
  rotation a' = _end a ∧ angularVelocity a' = Some 0%Q ∧ isComplete a' = true.
Proof.
  intros a.
  apply (stopped_action_keeps_the_entity_at_the_end (710 # 113) (355 # 113)
           [16; 16]%Q a).
  - reflexivity.
  - discriminate.
Defined.

Lemma reset_does_not_restart_witness :
  let a := new 0 0 1 1 None in
  let finished := update (710 # 113) (355 # 113) 1000 a in
  let again := update (710 # 113) (355 # 113) 1000 (moved 3 (reset finished)) in
  _started (reset finished) = false
  ∧ isComplete (reset finished) = true
  ∧ _start again = Some 3%Q
  ∧ rotation again = _end a
  ∧ angularVelocity again = Some 0%Q
  ∧ isComplete again = true.
Proof.
  intros a.
  apply (reset_does_not_restart (710 # 113) (355 # 113) 1000 3 a).
  vm_compute. reflexivity.
Defined.



Lemma rotation_is_left_to_the_angular_velocity_witness :
  let a := new 0 0 1 1 None in
  let a' := updates (710 # 113) (355 # 113) [16; 16]%Q a in
  rotation a' = rotation a
  ∧ ∃ direction, (direction = 1%Q ∨ direction = (-1)%Q)
                 ∧ _direction a' = Some direction
                 ∧ angularVelocity a' = Some (direction * _speed a)%Q.
Proof.
  intros a.
  apply (rotation_is_left_to_the_angular_velocity (710 # 113) (355 # 113)
           [16; 16]%Q a).
  - reflexivity.
  - discriminate.
  - vm_compute. reflexivity.
Defined.

End ConcreteRotation.
